(** * Triangle: a shallow embedding of [src/triangle.js]

    The geometric core of the [Triangle] class is embedded as Rocq
    functions: vertex store, side-name resolution, the edge-length
    resolver ([setSideLength] and its three private helpers, with the
    two-circle intersection [#alcutePoint]), the transforms ([movePoint],
    [move], [scale], [rotate], [flip]), the constructors ([fromSSS],
    [fromSAS], [fromASA], [fromAAS], [fromHL]), the registry of default
    names ([#defaultName]) with the constructor's choice of a name,
    [copy], and the placement of the labels ([#calculatePoint]).
    Rendering ([#draw], the SVG elements, style fields) is not part of the
    model.

    Numbers.  The code computes on ECMAScript Numbers (IEEE 754 binary64).
    The embedding is written once over an interface [Num] of the operations
    the code uses, and is run at two instances:
    - [float] (Rocq's primitive binary64 floats): the arithmetic of the
      program bit for bit, used for every evaluation on concrete inputs;
    - [R]: exact real arithmetic, used for the geometric facts that the
      program satisfies only up to rounding.

    Strings.  Vertex names and side keys are sequences of ASCII characters. *)

From Stdlib Require Import ZArith QArith List String Ascii Bool Floats.
From Stdlib Require Import Reals Lra Lia.
Import ListNotations.

Set Implicit Arguments.

(* ================================================================== *)
(** ** ASCII strings as the code uses them *)

Module Str.

Definition code (c : ascii) : nat := nat_of_ascii c.

(** [[A-Z]] *)
Definition isUpper (c : ascii) : bool :=
  (65 <=? code c)%nat && (code c <=? 90)%nat.

(** [[a-z]] *)
Definition isLower (c : ascii) : bool :=
  (97 <=? code c)%nat && (code c <=? 122)%nat.

Definition upChar (c : ascii) : ascii :=
  if isLower c then ascii_of_nat (code c - 32) else c.

Definition lowChar (c : ascii) : ascii :=
  if isUpper c then ascii_of_nat (code c + 32) else c.

(** [String.prototype.toUpperCase] / [toLowerCase] on ASCII *)
Fixpoint toUpperCase (s : string) : string :=
  match s with
  | EmptyString => EmptyString
  | String c r => String (upChar c) (toUpperCase r)
  end.

Fixpoint toLowerCase (s : string) : string :=
  match s with
  | EmptyString => EmptyString
  | String c r => String (lowChar c) (toLowerCase r)
  end.

(** [/[a-z]/.test(s)] *)
Fixpoint hasLower (s : string) : bool :=
  match s with
  | EmptyString => false
  | String c r => isLower c || hasLower r
  end.

(** [[...s.matchAll(/[A-Z][^A-Z]*/g)].map(([match]) => match)]:
    characters before the first capital are skipped; every capital opens a
    segment that runs up to the next capital. *)
Fixpoint segmentsFrom (cur : option string) (s : string) : list string :=
  match s with
  | EmptyString =>
      match cur with Some w => [w] | None => [] end
  | String c r =>
      if isUpper c then
        match cur with
        | Some w => w :: segmentsFrom (Some (String c EmptyString)) r
        | None => segmentsFrom (Some (String c EmptyString)) r
        end
      else
        match cur with
        | Some w => segmentsFrom (Some (w ++ String c EmptyString)%string) r
        | None => segmentsFrom None r
        end
  end.

Definition segments (s : string) : list string := segmentsFrom None s.

(** [vertexes.includes(name)] *)
Definition includes (l : list string) (s : string) : bool :=
  existsb (String.eqb s) l.

End Str.

(* ================================================================== *)
(** ** [Array.prototype.sort]

    A stable insertion sort: an element is placed before the first element
    that compares greater.  For a comparator that is a consistent order this
    is the result the language prescribes. *)

Section Sort.
Variable A : Type.
Variable gt : A -> A -> bool.   (* [gt a b]: comparefn(a, b) > 0 *)

Fixpoint insertSorted (a : A) (l : list A) : list A :=
  match l with
  | [] => [a]
  | b :: r => if gt b a then a :: b :: r else b :: insertSorted a r
  end.

Definition sortBy (l : list A) : list A :=
  fold_left (fun acc a => insertSorted a acc) l [].
End Sort.

(* ================================================================== *)
(** ** The Number interface *)

Class Num (N : Type) := {
  lit  : Z -> N;              (* integer literals of the source *)
  add  : N -> N -> N;
  sub  : N -> N -> N;
  mul  : N -> N -> N;
  div  : N -> N -> N;
  Math_sqrt : N -> N;
  ltb  : N -> N -> bool;      (* a < b *)
  leb  : N -> N -> bool;      (* a <= b *)
  eqb  : N -> N -> bool       (* a === b on Numbers *)
}.

(** [Number.prototype.toString], which the comparator-less [sort()] uses. *)
Class NumToString (N : Type) := { toString : N -> string }.

(** [Math.cos], [Math.sin], [Math.PI] *)
Class Trig (N : Type) := {
  Math_cos : N -> N;
  Math_sin : N -> N;
  Math_PI : N
}.

Declare Scope num_scope.
Delimit Scope num_scope with num.
Infix "+" := add : num_scope.
Infix "-" := sub : num_scope.
Infix "*" := mul : num_scope.
Infix "/" := div : num_scope.
Infix "<?" := ltb : num_scope.
Infix "<=?" := leb : num_scope.
Notation "a >? b" := (ltb b a) (at level 70) : num_scope.
Notation "a >=? b" := (leb b a) (at level 70) : num_scope.

(* ------------------------------------------------------------------ *)
(** *** [Number::toString] for binary64 *)

Module NumberToString.
Local Open Scope Z_scope.

Fixpoint digitsFuel (fuel : nat) (n : Z) (acc : string) : string :=
  match fuel with
  | O => acc
  | S f =>
      let acc' := String (ascii_of_nat (48 + Z.to_nat (n mod 10))) acc in
      if n <? 10 then acc' else digitsFuel f (n / 10) acc'
  end.

(** decimal digits of a non-negative integer *)
Definition digits (n : Z) : string :=
  digitsFuel (S (Z.to_nat (Z.log2 n))) n EmptyString.

Fixpoint zeros (n : nat) : string :=
  match n with O => EmptyString | S k => String "0"%char (zeros k) end.

(** exact rationals [b^e] *)
Definition qpow (b e : Z) : Q :=
  if 0 <=? e then inject_Z (b ^ e) else Qmake 1 (Z.to_pos (b ^ (- e))).

Definition qval (m e : Z) : Q := Qmult (inject_Z m) (qpow 2 e).

(** [floor (m * 2^e / 10^q)] *)
Definition floorDiv10 (m e q : Z) : Z :=
  (m * 2 ^ Z.max e 0 * 10 ^ Z.max (- q) 0) / (2 ^ Z.max (- e) 0 * 10 ^ Z.max q 0).

(** the [n] with [10^(n-1) <= m * 2^e < 10^n] *)
Fixpoint magnitudeFrom (fuel : nat) (m e n : Z) : Z :=
  match fuel with
  | O => n
  | S f => if Qle_bool (qpow 10 n) (qval m e) then magnitudeFrom f m e (n + 1) else n
  end.

Definition magnitude (m e : Z) : Z :=
  magnitudeFrom 8 m e ((Z.log2 m + e) * 30103 / 100000 - 2).

Definition qabsdiff (a b : Q) : Q :=
  if Qle_bool a b then Qminus b a else Qminus a b.

Fixpoint stripZeros (fuel : nat) (s q : Z) : Z * Z :=
  match fuel with
  | O => (s, q)
  | S f => if (0 <? s) && (s mod 10 =? 0) then stripZeros f (s / 10) (q + 1) else (s, q)
  end.

(** Shortest decimal [s * 10^q] that rounds to [m * 2^e]: the least number
    of digits [k], and among the [k]-digit candidates the one closest to the
    value (an even [s] on a tie). *)
Fixpoint shortestFrom (fuel : nat) (m e : Z) (mag k : Z) : Z * Z :=
  let x := qval m e in
  let boundary := (m =? 2 ^ 52) && (-1074 <? e) in
  let lo := if boundary then qval (4 * m - 1) (e - 2) else qval (2 * m - 1) (e - 1) in
  let hi := qval (2 * m + 1) (e - 1) in
  let inside v :=
    if Z.even m then Qle_bool lo v && Qle_bool v hi
    else negb (Qle_bool v lo) && negb (Qle_bool hi v) in
  let q := mag - k in
  let s1 := floorDiv10 m e q in
  let v1 := Qmult (inject_Z s1) (qpow 10 q) in
  let v2 := Qmult (inject_Z (s1 + 1)) (qpow 10 q) in
  match fuel with
  | O => (s1, q)
  | S f =>
      match inside v1, inside v2 with
      | true, false => (s1, q)
      | false, true => (s1 + 1, q)
      | true, true =>
          let d1 := qabsdiff v1 x in
          let d2 := qabsdiff v2 x in
          if Qeq_bool d1 d2 then ((if Z.even s1 then s1 else s1 + 1), q)
          else if Qle_bool d1 d2 then (s1, q) else (s1 + 1, q)
      | false, false => shortestFrom f m e mag (k + 1)
      end
  end.

Definition shortest (m e : Z) : Z * Z :=
  let '(s, q) := shortestFrom 17 m e (magnitude m e) 1 in
  stripZeros 20 s q.

Definition takeStr (n : nat) (s : string) : string := String.substring 0 n s.
Definition dropStr (n : nat) (s : string) : string :=
  String.substring n (String.length s - n) s.

(** the layout rules of [Number::toString] for a positive finite value
    with digits [s] and decimal point position [n] *)
Definition layout (s q : Z) : string :=
  let ds := digits s in
  let k := Z.of_nat (String.length ds) in
  let n := q + k in
  if (k <=? n) && (n <=? 21) then (ds ++ zeros (Z.to_nat (n - k)))%string
  else if (0 <? n) && (n <=? 21) then
    (takeStr (Z.to_nat n) ds ++ "." ++ dropStr (Z.to_nat n) ds)%string
  else if (-6 <? n) && (n <=? 0) then
    ("0." ++ zeros (Z.to_nat (- n)) ++ ds)%string
  else
    let ex := n - 1 in
    let sign : string := if ex <? 0 then "-"%string else "+"%string in
    let mant : string :=
      if k =? 1 then ds else (takeStr 1 ds ++ "." ++ dropStr 1 ds)%string in
    (mant ++ "e" ++ sign ++ digits (Z.abs ex))%string.

Definition ofFloat (x : float) : string :=
  match Prim2SF x with
  | S754_nan => "NaN"%string
  | S754_zero _ => "0"%string
  | S754_infinity s => (if s then "-Infinity" else "Infinity")%string
  | S754_finite s m e =>
      let '(d, q) := shortest (Zpos m) e in
      ((if s then "-" else EmptyString) ++ layout d q)%string
  end.

End NumberToString.

(* ------------------------------------------------------------------ *)
(** *** The two instances *)

Module FloatNum.

Definition ofZ (z : Z) : float :=
  match z with
  | Z0 => PrimFloat.of_uint63 (Uint63.of_Z 0)
  | Zpos _ => PrimFloat.of_uint63 (Uint63.of_Z z)
  | Zneg p => PrimFloat.opp (PrimFloat.of_uint63 (Uint63.of_Z (Zpos p)))
  end.

#[export] Instance float_Num : Num float := {|
  lit := ofZ;
  add := PrimFloat.add;
  sub := PrimFloat.sub;
  mul := PrimFloat.mul;
  div := PrimFloat.div;
  Math_sqrt := PrimFloat.sqrt;
  ltb := PrimFloat.ltb;
  leb := PrimFloat.leb;
  eqb := PrimFloat.eqb
|}.

#[export] Instance float_ToString : NumToString float := {|
  toString := NumberToString.ofFloat
|}.

End FloatNum.

Module RealNum.

Definition Rltb (a b : R) : bool := if Rlt_dec a b then true else false.
Definition Rleb (a b : R) : bool := if Rle_dec a b then true else false.
Definition Reqb (a b : R) : bool := if Req_dec_T a b then true else false.

#[export] Instance R_Num : Num R := {|
  lit := IZR;
  add := Rplus;
  sub := Rminus;
  mul := Rmult;
  div := Rdiv;
  Math_sqrt := R_sqrt.sqrt;
  ltb := Rltb;
  leb := Rleb;
  eqb := Reqb
|}.

#[export] Instance R_Trig : Trig R := {|
  Math_cos := Rtrigo_def.cos;
  Math_sin := Rtrigo_def.sin;
  Math_PI := Rtrigo1.PI
|}.

End RealNum.

(* ================================================================== *)
(** ** Exceptions and the state of a triangle *)

(** Every [throw] of the source raises a [TypeError]; the constructors name
    the throw sites by their messages.  [NativeTypeError] is the error the
    language raises when a property of [undefined] is read. *)
Inductive Thrown : Type :=
| InvalidTriangleName    (* "Invalid triangle name: ..." *)
| VertexDoesNotExist     (* "Invalid side name ... Vertex ... does not exist." *)
| ExpectedTwoVertices    (* "Invalid side name ... Expected exactly 2 vertices ..." *)
| VerticesDoNotMatch     (* "Invalid side name ... do not all match valid vertices." *)
| ConflictLengths        (* "Conflict! Different lengths have been set for the same edge." *)
| InvalidTriangle        (* "Invalid triangle." raised by the min + mid <= max checks *)
| PointNotFound          (* "Point ... not found" *)
| AngleOutOfRange        (* "... must be between 0 and 180 degrees." *)
| LengthNotPositive      (* "Length must be a positive number." *)
| LegNotPositive         (* "Leg must be a positive number." *)
| HypotenuseNotGreater   (* "Hypotenuse must be greater than leg." *)
| NativeTypeError.

Inductive Outcome (A : Type) : Type :=
| Ok (a : A)
| Throw (e : Thrown).
Arguments Ok {A} a.
Arguments Throw {A} e.

(** A method body: it runs on the current state and leaves a state behind
    also when it throws, so that what was written before the throw stays
    written. *)
Definition M (S A : Type) : Type := S -> Outcome A * S.

Definition ret {S A} (a : A) : M S A := fun s => (Ok a, s).
Definition throw {S A} (e : Thrown) : M S A := fun s => (Throw e, s).
Definition bind {S A B} (m : M S A) (k : A -> M S B) : M S B :=
  fun s => match m s with
           | (Ok a, s') => k a s'
           | (Throw e, s') => (Throw e, s')
           end.
Definition get {S} : M S S := fun s => (Ok s, s).
Definition modify {S} (f : S -> S) : M S unit := fun s => (Ok tt, f s).
(** a read-only call that may throw *)
Definition lift {S A} (o : Outcome A) : M S A := fun s => (o, s).

Declare Scope js_scope.
Delimit Scope js_scope with js.
Notation "x <- c ;; k" := (bind c (fun x => k))
  (at level 61, c at next level, right associativity) : js_scope.
Notation "c ;;; k" := (bind c (fun _ => k))
  (at level 61, right associativity) : js_scope.

(** Positions in [this.#points]; a reference to a point object is its
    position, so that two names of one object see the same coordinates. *)
Inductive ref : Type := P0 | P1 | P2.

Definition ref_eqb (a b : ref) : bool :=
  match a, b with
  | P0, P0 | P1, P1 | P2, P2 => true
  | _, _ => false
  end.

(** [p === q] on possibly undefined references *)
Definition oref_eqb (a b : option ref) : bool :=
  match a, b with
  | Some u, Some v => ref_eqb u v
  | None, None => true
  | _, _ => false
  end.

Definition refs : list ref := [P0; P1; P2].

Module Point.
Record t (N : Type) : Type := mk { x : N; y : N; name : string }.
Arguments mk {N} x y name.
Arguments x {N} _.
Arguments y {N} _.
Arguments name {N} _.
End Point.

Record Tri (N : Type) : Type := mkTri {
  pt0 : Point.t N;
  pt1 : Point.t N;
  pt2 : Point.t N
}.
Arguments mkTri {N} pt0 pt1 pt2.
Arguments pt0 {N} _.
Arguments pt1 {N} _.
Arguments pt2 {N} _.

Definition at_ {N} (t : Tri N) (r : ref) : Point.t N :=
  match r with P0 => pt0 t | P1 => pt1 t | P2 => pt2 t end.

Definition update {N} (t : Tri N) (r : ref) (p : Point.t N) : Tri N :=
  match r with
  | P0 => mkTri p (pt1 t) (pt2 t)
  | P1 => mkTri (pt0 t) p (pt2 t)
  | P2 => mkTri (pt0 t) (pt1 t) p
  end.

(** [point.x = v] and [point.y = v] *)
Definition setX {N} (r : ref) (v : N) : M (Tri N) unit :=
  modify (fun t => update t r (Point.mk v (Point.y (at_ t r)) (Point.name (at_ t r)))).
Definition setY {N} (r : ref) (v : N) : M (Tri N) unit :=
  modify (fun t => update t r (Point.mk (Point.x (at_ t r)) v (Point.name (at_ t r)))).

(** an entry of [options]: [{ name, length, p1, p2 }] *)
Record SideOption (N : Type) : Type := mkOption {
  oname : string;
  olength : N;
  op1 : option ref;
  op2 : option ref
}.
Arguments mkOption {N} oname olength op1 op2.
Arguments oname {N} _.
Arguments olength {N} _.
Arguments op1 {N} _.
Arguments op2 {N} _.

(* ================================================================== *)
(** ** The class [Triangle] *)

Section Triangle.
Context {N : Type} {num : Num N}.
Local Open Scope num_scope.
Local Open Scope js_scope.

(** [x ** 2] and [Math.pow(x, 2)], taken as the product [x * x]: the
    language leaves the last bit of a power to the implementation, and the
    engines compute a square by one multiplication. *)
Definition pow2 (a : N) : N := a * a.

(** a Number used as a condition: false on [0], [-0] and [NaN] *)
Definition truthy (a : N) : bool := (a <? lit 0) || (a >? lit 0).

(** [a || b] on Numbers *)
Definition orElse (a b : N) : N := if truthy a then a else b.

(** *** The constructor: [#createDefaultTrianglePoints] *)
Definition createDefaultTrianglePoints (name : string) : Outcome (Tri N) :=
  match Str.segments name with
  | [A; B; C] =>
      Ok (mkTri (Point.mk (lit 70) (lit 20) A)
                (Point.mk (lit 20) (lit 120) B)
                (Point.mk (lit 120) (lit 120) C))
  | _ => Throw InvalidTriangleName
  end.

(** *** Side names *)

Definition getPointsByOppositeVertex (t : Tri N) (side : string)
  : Outcome (list ref) :=
  let vertex := Str.toUpperCase side in
  if negb (existsb (fun r => String.eqb (Point.name (at_ t r)) vertex) refs)
  then Throw VertexDoesNotExist
  else Ok (filter (fun r => negb (String.eqb (Point.name (at_ t r)) vertex)) refs).

Definition getPointsByAdjacentVertex (t : Tri N) (side : string)
  : Outcome (list ref) :=
  let vertexes := Str.segments side in
  if negb (Nat.eqb (List.length vertexes) 2) then Throw ExpectedTwoVertices
  else
    let points :=
      filter (fun r => Str.includes vertexes (Point.name (at_ t r))) refs in
    if negb (Nat.eqb (List.length points) 2) then Throw VerticesDoNotMatch
    else Ok points.

Definition getPointsByName (t : Tri N) (side : string) : Outcome (list ref) :=
  if Str.hasLower side then getPointsByOppositeVertex t side
  else getPointsByAdjacentVertex t side.

(** distance between two points, as [getSideLength] writes it *)
Definition sideLength (p1 p2 : Point.t N) : N :=
  Math_sqrt (pow2 (Point.x p2 - Point.x p1) + pow2 (Point.y p2 - Point.y p1)).

(** [const [p1, p2] = ...] leaves a missing element [undefined], and
    reading its coordinate throws. *)
Definition getSideLength (t : Tri N) (name : string) : Outcome N :=
  match getPointsByName t name with
  | Throw e => Throw e
  | Ok (p1 :: p2 :: _) => Ok (sideLength (at_ t p1) (at_ t p2))
  | Ok _ => Throw NativeTypeError
  end.

(** *** [setSideLength] *)

(** the test [options.find] and [findIndex] apply: the same unordered pair *)
Definition samePair (o : SideOption N) (p1 p2 : option ref) : bool :=
  (oref_eqb (op1 o) p1 && oref_eqb (op2 o) p2)
  || (oref_eqb (op2 o) p1 && oref_eqb (op1 o) p2).

(** [sides] lists the entries of the argument in the order [for ... in]
    visits them. *)
Fixpoint checkAndMergeFrom (t : Tri N) (sides : list (string * N))
         (options : list (SideOption N)) : Outcome (list (SideOption N)) :=
  match sides with
  | [] => Ok options
  | (key, len) :: rest =>
      match getPointsByName t key with
      | Throw e => Throw e
      | Ok l =>
          let p1 := nth_error l 0 in
          let p2 := nth_error l 1 in
          match find (fun o => samePair o p1 p2) options with
          | Some o =>
              if negb (eqb (olength o) len) then Throw ConflictLengths
              else checkAndMergeFrom t rest options
          | None =>
              checkAndMergeFrom t rest (options ++ [mkOption key len p1 p2])
          end
      end
  end.

Definition checkAndMergeSides (t : Tri N) (sides : list (string * N))
  : Outcome (list (SideOption N)) :=
  checkAndMergeFrom t sides [].

(** [#alcutePoint(vertex, side1, side2)]: the two intersections of the
    circle of radius [d1] about [(x1, y1)] with the circle of radius [d2]
    about [(x2, y2)], and the choice between them. *)
Definition alcutePoint (vertex : Point.t N) (side1 side2 : N * Point.t N) : N * N :=
  let '(d1, q1) := side1 in
  let '(d2, q2) := side2 in
  let x1 := Point.x q1 in let y1 := Point.y q1 in
  let x2 := Point.x q2 in let y2 := Point.y q2 in
  let distance := Math_sqrt (pow2 (x2 - x1) + pow2 (y2 - y1)) in
  let a := (pow2 d1 - pow2 d2 + pow2 distance) / (lit 2 * distance) in
  let h := Math_sqrt (pow2 d1 - pow2 a) in
  let dx := (x2 - x1) / distance in
  let dy := (y2 - y1) / distance in
  let ix := x1 + a * dx in
  let iy := y1 + a * dy in
  let px1 := ix + h * dy in
  let py1 := iy - h * dx in
  let px2 := ix - h * dy in
  let py2 := iy + h * dx in
  let crossProduct := (x2 - x1) * (py1 - y1) - (y2 - y1) * (px1 - x1) in
  let crossProductVertex :=
    (x2 - x1) * (Point.y vertex - y1) - (y2 - y1) * (Point.x vertex - x1) in
  if crossProduct * crossProductVertex >? lit 0 then (px1, py1) else (px2, py2).

(** a reference that must not be [undefined] where it is dereferenced *)
Definition deref {S} (p : option ref) : M S ref :=
  match p with Some r => ret r | None => throw NativeTypeError end.

(** [this.#points.find(p => p !== a && p !== b)] *)
Definition otherThan (a b : ref) : option ref :=
  find (fun r => negb (ref_eqb r a) && negb (ref_eqb r b)) refs.

Section WithToString.
Context {numstr : NumToString N}.

(** [sort()] without a comparator orders the elements by their string
    forms, compared code unit by code unit. *)
Definition defaultGt (a b : N) : bool :=
  String.ltb (toString b) (toString a).

(** [const [min, mid, max] = [a, b, c].sort()] *)
Definition sortedTriple (a b c : N) : N * N * N :=
  match sortBy defaultGt [a; b; c] with
  | [u; v; w] => (u, v, w)
  | _ => (a, b, c)
  end.

(** the check the three helpers share *)
Definition rejected (a b c : N) : bool :=
  let '(min, mid, max) := sortedTriple a b c in
  min + mid <=? max.

(** the comparator [({x: x1, y: y1}, {x: x2, y: y2}) => x1 - x2 || y2 - y1] *)
Definition leftThenLow (p q : Point.t N) : N :=
  orElse (Point.x p - Point.x q) (Point.y q - Point.y p).

Definition setOneSideLength (o : SideOption N) : M (Tri N) unit :=
  let length := olength o in
  t <- get ;;
  p1 <- deref (op1 o) ;;
  l1 <- lift (getSideLength t (Str.toLowerCase (Point.name (at_ t p1)))) ;;
  p2 <- deref (op2 o) ;;
  l2 <- lift (getSideLength t (Str.toLowerCase (Point.name (at_ t p2)))) ;;
  if rejected length l1 l2 then throw InvalidTriangle
  else
    match sortBy (fun a b => leftThenLow (at_ t a) (at_ t b) >? lit 0) [p1; p2] with
    | [fixed; slided] =>
        let d := Math_sqrt (pow2 (Point.x (at_ t p1) - Point.x (at_ t p2))
                            + pow2 (Point.y (at_ t p1) - Point.y (at_ t p2))) in
        let dx := (Point.x (at_ t slided) - Point.x (at_ t fixed)) / d in
        let dy := (Point.y (at_ t slided) - Point.y (at_ t fixed)) / d in
        t1 <- get ;;
        setX slided (Point.x (at_ t1 fixed) + dx * length) ;;;
        t2 <- get ;;
        setY slided (Point.y (at_ t2 fixed) + dy * length) ;;;
        left <- deref (otherThan p1 p2) ;;
        t3 <- get ;;
        let '(x, y) := alcutePoint (at_ t3 left) (l1, at_ t3 p2) (l2, at_ t3 p1) in
        setX left x ;;;
        setY left y
    | _ => throw NativeTypeError
    end.

Definition setTwoSidesLength (o0 o1 : SideOption N) : M (Tri N) unit :=
  t <- get ;;
  let publicVertex :=
    if oref_eqb (op1 o0) (op1 o1) || oref_eqb (op1 o0) (op2 o1)
    then op1 o0 else op2 o0 in
  pv <- deref publicVertex ;;
  let oppositeSide := Str.toLowerCase (Point.name (at_ t pv)) in
  length3 <- lift (getSideLength t oppositeSide) ;;
  if rejected length3 (olength o0) (olength o1) then throw InvalidTriangle
  else
    q0 <- deref (if oref_eqb (op1 o0) publicVertex then op2 o0 else op1 o0) ;;
    q1 <- deref (if oref_eqb (op1 o1) publicVertex then op2 o1 else op1 o1) ;;
    let '(x, y) := alcutePoint (at_ t pv) (olength o0, at_ t q0) (olength o1, at_ t q1) in
    setX pv x ;;;
    setY pv y.

(** [options.findIndex(...)] *)
Fixpoint findIndex (f : SideOption N -> bool) (l : list (SideOption N)) : option nat :=
  match l with
  | [] => None
  | o :: r => if f o then Some O
              else match findIndex f r with Some i => Some (S i) | None => None end
  end.

(** [options.splice(index, 1)] *)
Fixpoint removeAt (i : nat) (l : list (SideOption N)) : list (SideOption N) :=
  match l, i with
  | [], _ => []
  | _ :: r, O => r
  | o :: r, S j => o :: removeAt j r
  end.

Definition setAllSidesLength (options : list (SideOption N)) : M (Tri N) unit :=
  match options with
  | [oa; ob; oc] =>
      if rejected (olength oa) (olength ob) (olength oc) then throw InvalidTriangle
      else
        t <- get ;;
        fixed <- deref (hd_error
          (sortBy (fun a b => leftThenLow (at_ t a) (at_ t b) >? lit 0) refs)) ;;
        slided <- deref (hd_error
          (sortBy (fun a b =>
                     orElse (Point.y (at_ t b) - Point.y (at_ t a))
                            (Point.x (at_ t b) - Point.x (at_ t a)) >? lit 0)
                  (filter (fun r => negb (ref_eqb r fixed)) refs))) ;;
        match findIndex (fun o => samePair o (Some fixed) (Some slided)) options with
        | None => throw NativeTypeError
        | Some index =>
            match nth_error options index with
            | None => throw NativeTypeError
            | Some o =>
                let length := olength o in
                let d := Math_sqrt
                  (pow2 (Point.x (at_ t slided) - Point.x (at_ t fixed))
                   + pow2 (Point.y (at_ t slided) - Point.y (at_ t fixed))) in
                let dx := (Point.x (at_ t slided) - Point.x (at_ t fixed)) / d in
                let dy := (Point.y (at_ t slided) - Point.y (at_ t fixed)) / d in
                setX slided (Point.x (at_ t fixed) + dx * length) ;;;
                setY slided (Point.y (at_ t fixed) + dy * length) ;;;
                moved <- deref (otherThan fixed slided) ;;
                match removeAt index options with
                | [s1; s2] =>
                    q1 <- deref (if oref_eqb (op1 s1) (Some moved) then op2 s1 else op1 s1) ;;
                    q2 <- deref (if oref_eqb (op1 s2) (Some moved) then op2 s2 else op1 s2) ;;
                    t3 <- get ;;
                    let '(x, y) :=
                      alcutePoint (at_ t3 moved) (olength s1, at_ t3 q1) (olength s2, at_ t3 q2) in
                    setX moved x ;;;
                    setY moved y
                | _ => throw NativeTypeError
                end
            end
        end
  | _ => throw NativeTypeError
  end.

Definition setSideLength (sides : list (string * N)) : M (Tri N) unit :=
  t <- get ;;
  options <- lift (checkAndMergeSides t sides) ;;
  match options with
  | [o] => setOneSideLength o
  | [o0; o1] => setTwoSidesLength o0 o1
  | [_; _; _] => setAllSidesLength options
  | _ => ret tt
  end.
End WithToString.
End Triangle.

(* ------------------------------------------------------------------ *)
(** *** Transforms and constructors *)

Record Line (N : Type) : Type := mkLine { la : N; lb : N; lc : N }.
Arguments mkLine {N} la lb lc.
Arguments la {N} _.
Arguments lb {N} _.
Arguments lc {N} _.

Section Transforms.
Context {N : Type} {num : Num N}.
Local Open Scope num_scope.
Local Open Scope js_scope.

(** [this.#points.forEach(f)] *)
Definition forEachPoint (f : ref -> M (Tri N) unit) : M (Tri N) unit :=
  f P0 ;;; f P1 ;;; f P2.

(** [point.x += deltaX; point.y += deltaY] *)
Definition shiftPoint (r : ref) (deltaX deltaY : N) : M (Tri N) unit :=
  t <- get ;;
  setX r (Point.x (at_ t r) + deltaX) ;;;
  t' <- get ;;
  setY r (Point.y (at_ t' r) + deltaY).

Definition movePoint (name : string) (deltaX deltaY : N) : M (Tri N) unit :=
  t <- get ;;
  match find (fun r => String.eqb (Point.name (at_ t r)) name) refs with
  | None => throw PointNotFound
  | Some point => shiftPoint point deltaX deltaY
  end.

Definition move (deltaX deltaY : N) : M (Tri N) unit :=
  forEachPoint (fun point => shiftPoint point deltaX deltaY).

Definition scale (factor : N) : M (Tri N) unit :=
  t <- get ;;
  let centerX := (Point.x (pt0 t) + Point.x (pt1 t) + Point.x (pt2 t)) / lit 3 in
  let centerY := (Point.y (pt0 t) + Point.y (pt1 t) + Point.y (pt2 t)) / lit 3 in
  forEachPoint (fun point =>
    t1 <- get ;;
    setX point (centerX + (Point.x (at_ t1 point) - centerX) * (factor - lit 1)) ;;;
    t2 <- get ;;
    setY point (centerY + (Point.y (at_ t2 point) - centerY) * (factor - lit 1))).

Definition flip (line : Line N) : M (Tri N) unit :=
  let a := la line in
  let b := lb line in
  let c := lc line in
  forEachPoint (fun point =>
    t <- get ;;
    let x := Point.x (at_ t point) in
    let y := Point.y (at_ t point) in
    let denominator := a * a + b * b in
    let x1 := (b * b * x - a * b * y - a * c) / denominator in
    let y1 := (a * a * y - a * b * x - b * c) / denominator in
    setX point (lit 2 * x1 - x) ;;;
    setY point (lit 2 * y1 - y)).

(** The loop that ends every constructor: the least shift that brings
    every coordinate to 20 or more. *)
Definition margin (t : Tri N) : N * N :=
  fold_left
    (fun (acc : N * N) (r : ref) =>
       let '(deltaX, deltaY) := acc in
       let deltaX' :=
         if lit 20 - Point.x (at_ t r) >? deltaX
         then lit 20 - Point.x (at_ t r) else deltaX in
       let deltaY' :=
         if lit 20 - Point.y (at_ t r) >? deltaY
         then lit 20 - Point.y (at_ t r) else deltaY in
       (deltaX', deltaY'))
    refs (lit 0, lit 0).

Definition moveToMargin : M (Tri N) unit :=
  t <- get ;;
  let '(deltaX, deltaY) := margin t in
  move deltaX deltaY.

(** a constructor returns the triangle its body leaves, or rethrows *)
Definition returning (body : M (Tri N) unit) (triangle : Tri N) : Outcome (Tri N) :=
  match body triangle with
  | (Ok _, t) => Ok t
  | (Throw e, _) => Throw e
  end.

(** An object literal with computed keys: a key written twice keeps its
    first position and its last value.  The keys here are lower-cased
    vertex names, never array indices, so [for ... in] visits them in this
    order. *)
Fixpoint putKey (obj : list (string * N)) (k : string) (v : N) : list (string * N) :=
  match obj with
  | [] => [(k, v)]
  | (k', v') :: r =>
      if String.eqb k' k then (k', v) :: r else (k', v') :: putKey r k v
  end.

Definition fromSSS {numstr : NumToString N}
           (length1 length2 length3 : N) (name : string) : Outcome (Tri N) :=
  match createDefaultTrianglePoints name with
  | Throw e => Throw e
  | Ok triangle =>
      returning
        (t <- get ;;
         setSideLength
           (putKey (putKey (putKey []
              (Str.toLowerCase (Point.name (pt0 t))) length1)
              (Str.toLowerCase (Point.name (pt1 t))) length2)
              (Str.toLowerCase (Point.name (pt2 t))) length3) ;;;
         moveToMargin)
        triangle
  end.

Definition fromASA {trig : Trig N}
           (angle1 length angle2 : N) (name : string) : Outcome (Tri N) :=
  match createDefaultTrianglePoints name with
  | Throw e => Throw e
  | Ok triangle =>
      returning
        (if (angle1 <=? lit 0) || (angle1 >=? lit 180) then throw AngleOutOfRange
         else if (angle2 <=? lit 0) || (angle2 >=? lit 180) then throw AngleOutOfRange
         else if angle1 + angle2 >=? lit 180 then throw AngleOutOfRange
         else if length <=? lit 0 then throw LengthNotPositive
         else
           t <- get ;;
           setX P2 (Point.x (pt1 t) + length) ;;;
           setY P2 (Point.y (pt1 t)) ;;;
           let rateAB := Math_cos (angle1 * Math_PI / lit 180) in
           let rateAC := Math_cos (angle2 * Math_PI / lit 180) in
           setX P0 (Point.x (pt1 t) + length * rateAB / (rateAB + rateAC)) ;;;
           setY P0 (Point.y (pt1 t)
                    - length * Math_sin (angle1 * Math_PI / lit 180) / (rateAB + rateAC)) ;;;
           moveToMargin)
        triangle
  end.

Definition fromHL (hypotenuse leg : N) (name : string) : Outcome (Tri N) :=
  if leg <=? lit 0 then Throw LegNotPositive
  else if hypotenuse <=? leg then Throw HypotenuseNotGreater
  else
    match createDefaultTrianglePoints name with
    | Throw e => Throw e
    | Ok triangle =>
        returning
          (t <- get ;;
           setX P2 (Point.x (pt1 t) + leg) ;;;
           setY P2 (Point.y (pt1 t)) ;;;
           setX P0 (Point.x (pt1 t)) ;;;
           setY P0 (Point.y (pt1 t) - Math_sqrt (pow2 hypotenuse - pow2 leg)) ;;;
           moveToMargin)
          triangle
    end.
End Transforms.

(* ================================================================== *)
(** ** Geometry used to state the properties *)

Section Geometry.
Context {N : Type} {num : Num N}.
Local Open Scope num_scope.

(** The signed cross product [#alcutePoint] computes for [vertex]: its sign
    tells on which side of the line from [p] to [q] the point [v] lies. *)
Definition sideCross (p q v : Point.t N) : N :=
  (Point.x q - Point.x p) * (Point.y v - Point.y p)
  - (Point.y q - Point.y p) * (Point.x v - Point.x p).

(** the side lengths [a], [b], [c]: opposite the first, the second and the
    third vertex *)
Definition lengths (t : Tri N) : N * N * N :=
  (sideLength (pt1 t) (pt2 t), sideLength (pt0 t) (pt2 t), sideLength (pt0 t) (pt1 t)).

(** [x + y > z] for every arrangement of three lengths *)
Definition strictInequality (a b c : N) : bool :=
  (a + b >? c) && (a + c >? b) && (b + c >? a).

(** The invariant the specification states for a vertex set: the points are
    not collinear and the side lengths satisfy the strict inequality. *)
Definition coreInvariant (t : Tri N) : bool :=
  let '(a, b, c) := lengths t in
  truthy (sideCross (pt1 t) (pt2 t) (pt0 t)) && strictInequality a b c.

(** the cosine of the interior angle at [v] between the sides to [p] and
    to [q], by the scalar product *)
Definition cosAngleAt (v p q : Point.t N) : N :=
  ((Point.x p - Point.x v) * (Point.x q - Point.x v)
   + (Point.y p - Point.y v) * (Point.y q - Point.y v))
  / (sideLength v p * sideLength v q).

(** the triangle [move] leaves *)
Definition translated (deltaX deltaY : N) (t : Tri N) : Tri N :=
  let shift p := Point.mk (Point.x p + deltaX) (Point.y p + deltaY) (Point.name p) in
  mkTri (shift (pt0 t)) (shift (pt1 t)) (shift (pt2 t)).

(** the point [movePoint] leaves *)
Definition shifted (deltaX deltaY : N) (p : Point.t N) : Point.t N :=
  Point.mk (Point.x p + deltaX) (Point.y p + deltaY) (Point.name p).

(** the point [flip] leaves *)
Definition reflected (line : Line N) (p : Point.t N) : Point.t N :=
  let a := la line in
  let b := lb line in
  let c := lc line in
  let x := Point.x p in
  let y := Point.y p in
  Point.mk (lit 2 * ((b * b * x - a * b * y - a * c) / (a * a + b * b)) - x)
           (lit 2 * ((a * a * y - a * b * x - b * c) / (a * a + b * b)) - y)
           (Point.name p).

(** the point [scale] leaves, for the centroid [(centerX, centerY)] *)
Definition scaledAbout (centerX centerY factor : N) (p : Point.t N) : Point.t N :=
  Point.mk (centerX + (Point.x p - centerX) * (factor - lit 1))
           (centerY + (Point.y p - centerY) * (factor - lit 1))
           (Point.name p).

Definition centroidX (t : Tri N) : N :=
  (Point.x (pt0 t) + Point.x (pt1 t) + Point.x (pt2 t)) / lit 3.
Definition centroidY (t : Tri N) : N :=
  (Point.y (pt0 t) + Point.y (pt1 t) + Point.y (pt2 t)) / lit 3.

(** where [fromHL] puts the points before the final shift *)
Definition placedHL (hypotenuse leg : N) (A B C : string) : Tri N :=
  mkTri (Point.mk (lit 20) (lit 120 - Math_sqrt (pow2 hypotenuse - pow2 leg)) A)
        (Point.mk (lit 20) (lit 120) B)
        (Point.mk (lit 20 + leg) (lit 120) C).

(** where [fromASA] puts the points before the final shift *)
Definition placedASA {trig : Trig N} (angle1 length angle2 : N) (A B C : string)
  : Tri N :=
  let rateAB := Math_cos (angle1 * Math_PI / lit 180) in
  let rateAC := Math_cos (angle2 * Math_PI / lit 180) in
  mkTri (Point.mk (lit 20 + length * rateAB / (rateAB + rateAC))
                  (lit 120 - length * Math_sin (angle1 * Math_PI / lit 180)
                             / (rateAB + rateAC)) A)
        (Point.mk (lit 20) (lit 120) B)
        (Point.mk (lit 20 + length) (lit 120) C).
End Geometry.

(** [q] is the mirror image of [p] across [a x + b y + c = 0]: the midpoint
    of [p] and [q] lies on the line, and [q - p] is parallel to the normal
    [(a, b)]. *)
Definition mirrorImage (line : Line R) (p q : Point.t R) : Prop :=
  (la line * ((Point.x p + Point.x q) / 2)
   + lb line * ((Point.y p + Point.y q) / 2) + lc line = 0)%R
  /\ (lb line * (Point.x q - Point.x p) = la line * (Point.y q - Point.y p))%R
  /\ Point.name q = Point.name p.

(* ------------------------------------------------------------------ *)
(** *** How a method body treats the state *)

Section Frames.
Context {N : Type}.

(** a computation that reads but never writes *)
Definition readOnly {A} (m : M (Tri N) A) : Prop :=
  forall s, snd (m s) = s.

(** a computation that leaves the state as it found it whenever it throws *)
Definition atomic {A} (m : M (Tri N) A) : Prop :=
  forall s e s', m s = (Throw e, s') -> s' = s.

(** a computation that cannot throw *)
Definition total {A} (m : M (Tri N) A) : Prop :=
  forall s, exists a s', m s = (Ok a, s').

(** the points a resolved side keeps, as a mask over [this.#points] *)
Definition keep (a b c : bool) : list ref :=
  filter (fun r => match r with P0 => a | P1 => b | P2 => c end) refs.

(** What the names of the triangle force on a mask: equal names are kept or
    dropped together, never all three points are kept, and two dropped
    points carry the same name. *)
Definition goodMask (e01 e02 e12 a b c : bool) : bool :=
  implb e01 (Bool.eqb a b) && implb e02 (Bool.eqb a c) && implb e12 (Bool.eqb b c)
  && negb (a && b && c)
  && implb (negb a && negb b) e01
  && implb (negb a && negb c) e02
  && implb (negb b && negb c) e12.

Definition sameName (t : Tri N) (r r' : ref) : bool :=
  String.eqb (Point.name (at_ t r)) (Point.name (at_ t r')).

(** an option whose two ends were read off a resolved side of [t] *)
Definition edge (t : Tri N) (o : SideOption N) : Prop :=
  exists a b c,
    goodMask (sameName t P0 P1) (sameName t P0 P2) (sameName t P1 P2) a b c = true
    /\ op1 o = nth_error (keep a b c) 0
    /\ op2 o = nth_error (keep a b c) 1.

(** both ends of the option are points *)
Definition full (o : SideOption N) : bool :=
  match op1 o, op2 o with Some _, Some _ => true | _, _ => false end.

(** no option repeats the pair of an earlier one *)
Fixpoint distinctPairs (l : list (SideOption N)) : Prop :=
  match l with
  | [] => True
  | o :: r =>
      (forall o', In o' r -> samePair o (op1 o') (op2 o') = false)
      /\ distinctPairs r
  end.
End Frames.

(* ------------------------------------------------------------------ *)
(** *** The triangle of [new Triangle("ABC")], in binary64 *)

Module Run.
Import FloatNum.
Local Open Scope float_scope.
Local Open Scope string_scope.

Definition ABC : Tri float :=
  mkTri (Point.mk 70 20 "A") (Point.mk 20 120 "B") (Point.mk 120 120 "C").

(** every coordinate is [NaN] *)
Definition allNaN (t : Tri float) : Tri float :=
  mkTri (Point.mk nan nan (Point.name (pt0 t)))
        (Point.mk nan nan (Point.name (pt1 t)))
        (Point.mk nan nan (Point.name (pt2 t))).


End Run.

(* ================================================================== *)
(** ** The rest of the class *)

(** *** Shapes of names *)

Fixpoint noUpper (s : string) : bool :=
  match s with
  | EmptyString => true
  | String c r => negb (Str.isUpper c) && noUpper r
  end.

(** one match of [[A-Z][^A-Z]*]: a capital followed by no capital *)
Definition isSegment (w : string) : bool :=
  match w with
  | EmptyString => false
  | String c r => Str.isUpper c && noUpper r
  end.

(** a segment without lower-case letters, such as [A], [B1] or [C'] *)
Definition plainName (w : string) : bool :=
  isSegment w && negb (Str.hasLower w).

(** [names.join("")] *)
Fixpoint concatAll (ws : list string) : string :=
  match ws with
  | [] => EmptyString
  | w :: r => (w ++ concatAll r)%string
  end.

(** the three vertex names are plain and pairwise different *)
Definition wellNamed {N} (t : Tri N) : bool :=
  plainName (Point.name (pt0 t)) && plainName (Point.name (pt1 t))
  && plainName (Point.name (pt2 t))
  && negb (String.eqb (Point.name (pt0 t)) (Point.name (pt1 t)))
  && negb (String.eqb (Point.name (pt0 t)) (Point.name (pt2 t)))
  && negb (String.eqb (Point.name (pt1 t)) (Point.name (pt2 t))).

(** the names of the three vertices *)
Definition names {N} (t : Tri N) : list string :=
  [Point.name (pt0 t); Point.name (pt1 t); Point.name (pt2 t)].

(** *** [rotate], [fromSAS], [fromAAS] *)

Section MoreOfTheClass.
Context {N : Type} {num : Num N} {trig : Trig N}.
Local Open Scope num_scope.
Local Open Scope js_scope.

(** unary minus: the product with [-1] changes the sign and nothing else *)
Definition neg (a : N) : N := lit (-1) * a.

Definition rotate (angle : N) : M (Tri N) unit :=
  t <- get ;;
  let centerX := (Point.x (pt0 t) + Point.x (pt1 t) + Point.x (pt2 t)) / lit 3 in
  let centerY := (Point.y (pt0 t) + Point.y (pt1 t) + Point.y (pt2 t)) / lit 3 in
  let radian := angle * Math_PI / lit 180 in
  forEachPoint (fun point =>
    t1 <- get ;;
    let dx := Point.x (at_ t1 point) - centerX in
    let dy := Point.y (at_ t1 point) - centerY in
    setX point (centerX + dx * Math_cos radian - dy * Math_sin radian) ;;;
    setY point (centerY + dx * Math_sin radian + dy * Math_cos radian)).

(** [fromSAS(length1, angle, length2, name)]; its second message reads
    "The length must be greater than 0." *)
Definition fromSAS (length1 angle length2 : N) (name : string) : Outcome (Tri N) :=
  match createDefaultTrianglePoints name with
  | Throw e => Throw e
  | Ok triangle =>
      returning
        (if (angle <=? lit 0) || (angle >=? lit 180) then throw AngleOutOfRange
         else if (length1 <=? lit 0) || (length2 <=? lit 0) then throw LengthNotPositive
         else
           t <- get ;;
           let fixed := P0 in
           let slided := P1 in
           let d := Math_sqrt
             (pow2 (Point.x (at_ t slided) - Point.x (at_ t fixed))
              + pow2 (Point.y (at_ t slided) - Point.y (at_ t fixed))) in
           let dx := (Point.x (at_ t slided) - Point.x (at_ t fixed)) / d in
           let dy := (Point.y (at_ t slided) - Point.y (at_ t fixed)) / d in
           setX slided (Point.x (at_ t fixed) + dx * length2) ;;;
           setY slided (Point.y (at_ t fixed) + dy * length2) ;;;
           let radian := angle * Math_PI / lit 180 in
           setX P2 (Point.x (at_ t fixed)
                    + length1 * (dx * Math_cos radian + dy * Math_sin radian)) ;;;
           setY P2 (Point.y (at_ t fixed)
                    + length1 * (neg dx * Math_sin radian + dy * Math_cos radian)) ;;;
           moveToMargin)
        triangle
  end.

Definition fromAAS (angle1 angle2 length : N) (name : string) : Outcome (Tri N) :=
  fromASA angle2 length (lit 180 - angle1 - angle2) name.

(** the point [rotate] leaves, for the centroid [(centerX, centerY)] *)
Definition rotatedAbout (centerX centerY radian : N) (p : Point.t N) : Point.t N :=
  let dx := Point.x p - centerX in
  let dy := Point.y p - centerY in
  Point.mk (centerX + dx * Math_cos radian - dy * Math_sin radian)
           (centerY + dx * Math_sin radian + dy * Math_cos radian)
           (Point.name p).

(** where [fromSAS] puts the points before the final shift *)
Definition placedSAS (length1 angle length2 : N) (A B C : string) : Tri N :=
  let d := Math_sqrt (pow2 (lit 20 - lit 70) + pow2 (lit 120 - lit 20)) in
  let dx := (lit 20 - lit 70) / d in
  let dy := (lit 120 - lit 20) / d in
  let radian := angle * Math_PI / lit 180 in
  mkTri (Point.mk (lit 70) (lit 20) A)
        (Point.mk (lit 70 + dx * length2) (lit 20 + dy * length2) B)
        (Point.mk (lit 70 + length1 * (dx * Math_cos radian + dy * Math_sin radian))
                  (lit 20 + length1 * (neg dx * Math_sin radian + dy * Math_cos radian))
                  C).
End MoreOfTheClass.

(** the capitals of a string: each one opens a match of [[A-Z][^A-Z]*] *)
Fixpoint countUpper (s : string) : nat :=
  match s with
  | EmptyString => O
  | String c r => (if Str.isUpper c then 1 else 0) + countUpper r
  end.

(** a computation that never renames a vertex *)
Definition keepsNames {N A} (m : M (Tri N) A) : Prop :=
  forall s, names (snd (m s)) = names s.

(** the ends of the side opposite a vertex, in the order of [this.#points] *)
Definition opposite (r : ref) : ref * ref :=
  match r with
  | P0 => (P1, P2)
  | P1 => (P0, P2)
  | P2 => (P0, P1)
  end.

(* ------------------------------------------------------------------ *)
(** *** Default names, the constructor and [copy] *)

(** the values that reach the constructor as [name] or [canvas] *)
Inductive Value : Type :=
| VUndefined
| VString (s : string)
| VElement (id : nat).   (* an object, such as [document.body] *)

Definition document_body : Value := VElement 0.

(** [weakMap]: for a canvas, the array of the names given by default.  An
    entry put in front shadows an older one for the same canvas. *)
Definition WeakMap : Type := list (nat * list string).

Fixpoint lookup (m : WeakMap) (id : nat) : option (list string) :=
  match m with
  | [] => None
  | (k, v) :: r => if Nat.eqb k id then Some v else lookup r id
  end.

(** [weakMap.get(key)]: [undefined] when the key is not an object *)
Definition weakMap_get (m : WeakMap) (key : Value) : option (list string) :=
  match key with
  | VElement id => lookup m id
  | _ => None
  end.

(** [weakMap.set(key, value)]: a [TypeError] when the key is not an object *)
Definition weakMap_set (key : Value) (value : list string) : M WeakMap unit :=
  fun m =>
    match key with
    | VElement id => (Ok tt, (id, value) :: m)
    | _ => (Throw NativeTypeError, m)
    end.

(** [String.fromCharCode(i)] for [i] from 65 to 90 *)
Definition capitals : list ascii := map ascii_of_nat (seq 65 26).

(** The [for] loop of [#defaultName] from the letters still to try: the
    name it returns, if it returns, then [points] and [noneUsed] as the
    pushes leave them. *)
Fixpoint forCapitals (letters : list ascii) (suffix : string)
         (points noneUsed : list string)
  : option string * (list string * list string) :=
  match letters with
  | [] => (None, (points, noneUsed))
  | c :: rest =>
      let point := String c suffix in
      if negb (Str.includes points point) then
        let noneUsed' := noneUsed ++ [point] in
        let points' := points ++ [point] in
        if (3 <=? List.length noneUsed')%nat
        then (Some (concatAll noneUsed'), (points', noneUsed'))
        else forCapitals rest suffix points' noneUsed'
      else forCapitals rest suffix points noneUsed
  end.

(** The [while] loop, run for at most [fuel] rounds: [None] when the rounds
    do not suffice; a result [None] is the [undefined] of a function that
    falls off its end. *)
Fixpoint whileFewer (fuel : nat) (suffix : string) (points noneUsed : list string)
  : option (option string * list string) :=
  match fuel with
  | O => None
  | S fuel' =>
      if (List.length noneUsed <? 3)%nat then
        match forCapitals capitals suffix points noneUsed with
        | (Some name, (points', _)) => Some (Some name, points')
        | (None, (points', noneUsed')) =>
            whileFewer fuel' (suffix ++ "'")%string points' noneUsed'
        end
      else Some (None, points)
  end.

(** [#defaultName(canvas)]; the array it pushes to is the one the map
    holds. *)
Definition defaultName (fuel : nat) (canvas : Value) (m : WeakMap)
  : option (Outcome (option string) * WeakMap) :=
  match weakMap_get m canvas with
  | None =>
      match weakMap_set canvas ["A"; "B"; "C"]%string m with
      | (Ok _, m') => Some (Ok (Some "ABC"%string), m')
      | (Throw e, m') => Some (Throw e, m')
      end
  | Some points =>
      match whileFewer fuel EmptyString points [] with
      | None => None
      | Some (name, points') =>
          match weakMap_set canvas points' m with
          | (Ok _, m') => Some (Ok name, m')
          | (Throw e, m') => Some (Throw e, m')
          end
      end
  end.

(** the longest name of a list *)
Definition maxLength (l : list string) : nat :=
  fold_right (fun s a => Nat.max (String.length s) a) O l.

(** only apostrophes *)
Fixpoint onlyQuotes (s : string) : bool :=
  match s with
  | EmptyString => true
  | String c r => Ascii.eqb c "'"%char && onlyQuotes r
  end.

Section Construction.
Context {N : Type} {num : Num N}.

(** The constructor, up to the points it creates: the default of [canvas],
    the choice of the name, [#createDefaultTrianglePoints], and
    [canvas.appendChild], which only an object has.  Reading [matchAll] of
    an undefined name throws. *)
Definition construct (fuel : nat) (name canvas : Value) (m : WeakMap)
  : option (Outcome (Tri N) * WeakMap) :=
  let canvas := match canvas with VUndefined => document_body | _ => canvas end in
  let chosen :=
    match name with
    | VString s => Some (Ok (Some s), m)
    | _ => defaultName fuel canvas m
    end in
  match chosen with
  | None => None
  | Some (Throw e, m') => Some (Throw e, m')
  | Some (Ok None, m') => Some (Throw NativeTypeError, m')
  | Some (Ok (Some s), m') =>
      match createDefaultTrianglePoints s with
      | Throw e => Some (Throw e, m')
      | Ok points =>
          match canvas with
          | VElement _ => Some (Ok points, m')
          | _ => Some (Throw NativeTypeError, m')
          end
      end
  end.

(** [copy()] of a triangle with the points [t] on the canvas [canvas] *)
Definition copy (fuel : nat) (canvas : Value) (t : Tri N) (m : WeakMap)
  : option (Outcome (Tri N) * WeakMap) :=
  match construct fuel canvas
          (VString (concatAll (map (fun n => (n ++ "'")%string) (names t)))) m with
  | None => None
  | Some (Throw e, m') => Some (Throw e, m')
  | Some (Ok newTriangle, m') =>
      let p0 := Point.mk (Point.x (pt0 t)) (Point.y (pt0 t))
                         (Point.name (pt0 newTriangle)) in
      let p1 := Point.mk (Point.x (pt1 t)) (Point.y (pt1 t))
                         (Point.name (pt1 newTriangle)) in
      let p2 := Point.mk (Point.x (pt2 t)) (Point.y (pt2 t))
                         (Point.name (pt2 newTriangle)) in
      Some (returning (move (lit 10) (lit 10)) (mkTri p0 p1 p2), m')
  end.
End Construction.

(* ------------------------------------------------------------------ *)
(** *** Where the vertex labels go: [#calculatePoint] *)

Section Labels.
Context {N : Type} {num : Num N}.
Local Open Scope num_scope.

(** [Math.max(7, v)]: 7 when [v < 7], else [v], which is [NaN] when [v]
    is *)
Definition atLeast7 (v : N) : N := if v <? lit 7 then lit 7 else v.

(** [#calculatePoint(start, end, distance)] on the coordinates of the two
    points *)
Definition calculatePoint (start end_ : N * N) (distance : N) : N * N :=
  let vector := (fst end_ - fst start, snd end_ - snd start) in
  let length := Math_sqrt (fst vector * fst vector + snd vector * snd vector) in
  let unit := (fst vector / length, snd vector / length) in
  (atLeast7 (fst end_ + fst unit * distance),
   atLeast7 (snd end_ + snd unit * distance)).
End Labels.

(** what the pushes of a run keep true of [noneUsed], for the names
    [seen] that the run found in the map *)
Definition fresh (seen NU : list string) : Prop :=
  NoDup NU /\ (forall a, In a NU -> ~ In a seen)
  /\ Forall (fun a => plainName a = true) NU.

(** *** Samples in exact arithmetic *)

Section Samples.
Import RealNum.
Local Open Scope R_scope.
Local Open Scope string_scope.

(** a string form for the exact numbers: the properties hold for any *)
Definition blank : NumToString R := {| toString := fun _ => EmptyString |}.

(** the triangle with the sides 3, 4 and 5 *)
Definition T345 : Tri R :=
  mkTri (Point.mk 0 4 "A") (Point.mk 0 0 "B") (Point.mk 3 0 "C").
End Samples.

(* ================================================================== *)
(** * Properties *)

Import FloatNum RealNum.

(** ** Sorting *)

Section SortFacts.
Variable A : Type.
Variable gt : A -> A -> bool.

Lemma insertSorted_length a l :
  List.length (insertSorted gt a l) = S (List.length l).
Proof.
  induction l as [|b r IH]; simpl; [reflexivity|].
  destruct (gt b a); simpl; [reflexivity | now rewrite IH].
Qed.

Lemma sortBy3 a b c : exists u v w, sortBy gt [a; b; c] = [u; v; w].
Proof.
  unfold sortBy; simpl.
  destruct (gt a b); simpl;
    repeat match goal with
           | |- context [if ?g then _ else _] => destruct g; simpl
           end; eauto.
Qed.

Lemma sortBy2 a b : sortBy gt [a; b] = if gt a b then [b; a] else [a; b].
Proof. reflexivity. Qed.
End SortFacts.

(** ** [setSideLength] writes nothing before its last throw *)

Section Atomicity.
Context {N : Type} {num : Num N}.

Lemma readOnly_get : readOnly (@get (Tri N)).
Proof. intro s; reflexivity. Qed.

Lemma readOnly_lift A (o : Outcome A) : readOnly (@lift (Tri N) A o).
Proof. intro s; reflexivity. Qed.

Lemma readOnly_deref p : readOnly (@deref (Tri N) p).
Proof. intro s; destruct p; reflexivity. Qed.

Lemma atomic_throw A e : atomic (@throw (Tri N) A e).
Proof. intros s e' s' H; inversion H; reflexivity. Qed.

Lemma atomic_ret A (a : A) : atomic (@ret (Tri N) A a).
Proof. intros s e' s' H; inversion H. Qed.

Lemma total_atomic A (m : M (Tri N) A) : total m -> atomic m.
Proof.
  intros T s e s' H. destruct (T s) as (a & s1 & E). congruence.
Qed.

Lemma atomic_bind A B (m : M (Tri N) A) (k : A -> M (Tri N) B) :
  readOnly m -> (forall a, atomic (k a)) -> atomic (bind m k).
Proof.
  intros R K s e s' H. unfold bind in H.
  specialize (R s). destruct (m s) as [[a|e1] s1]; simpl in R; subst s1.
  - exact (K a s e s' H).
  - inversion H; reflexivity.
Qed.

Lemma total_bind A B (m : M (Tri N) A) (k : A -> M (Tri N) B) :
  total m -> (forall a, total (k a)) -> total (bind m k).
Proof.
  intros T K s. unfold bind. destruct (T s) as (a & s1 & E). rewrite E.
  apply K.
Qed.

Lemma total_get : total (@get (Tri N)).
Proof. intro s; unfold get; eauto. Qed.

Lemma total_setX r v : total (@setX N r v).
Proof. intro s; unfold setX, modify; eauto. Qed.

Lemma total_setY r v : total (@setY N r v).
Proof. intro s; unfold setY, modify; eauto. Qed.

Lemma total_deref_some r : total (@deref (Tri N) (Some r)).
Proof. intro s; unfold deref, ret; eauto. Qed.

Lemma otherThan_some a b : exists r, otherThan a b = Some r.
Proof. destruct a, b; cbv; eauto. Qed.

Ltac total_steps :=
  repeat first
    [ apply total_setX | apply total_setY | apply total_get
    | apply total_deref_some
    | (apply total_bind; [| intro]) ].

Context {numstr : NumToString N}.

Lemma atomic_setOneSideLength o : atomic (setOneSideLength o).
Proof.
  unfold setOneSideLength.
  apply atomic_bind; [apply readOnly_get | intro t].
  apply atomic_bind; [apply readOnly_deref | intro p1].
  apply atomic_bind; [apply readOnly_lift | intro l1].
  apply atomic_bind; [apply readOnly_deref | intro p2].
  apply atomic_bind; [apply readOnly_lift | intro l2].
  destruct (rejected _ l1 l2); [apply atomic_throw|].
  rewrite sortBy2.
  destruct (otherThan_some p1 p2) as [left L]. rewrite L.
  destruct (_ >? _)%num; apply total_atomic; total_steps;
    destruct (alcutePoint _ _ _); total_steps.
Qed.

Lemma atomic_setTwoSidesLength o0 o1 : atomic (setTwoSidesLength o0 o1).
Proof.
  unfold setTwoSidesLength.
  apply atomic_bind; [apply readOnly_get | intro t].
  apply atomic_bind; [apply readOnly_deref | intro pv].
  apply atomic_bind; [apply readOnly_lift | intro l3].
  destruct (rejected _ _ _); [apply atomic_throw|].
  apply atomic_bind; [apply readOnly_deref | intro q0].
  apply atomic_bind; [apply readOnly_deref | intro q1].
  destruct (alcutePoint _ _ _). apply total_atomic; total_steps.
Qed.

(** Three edges: every option names two points. *)

Lemma filter_refs f : filter f refs = keep (f P0) (f P1) (f P2).
Proof. unfold keep, refs; simpl. reflexivity. Qed.

Lemma getPointsByName_keep (t : Tri N) key l :
  getPointsByName t key = Ok l ->
  exists a b c,
    goodMask (sameName t P0 P1) (sameName t P0 P2) (sameName t P1 P2) a b c = true
    /\ l = keep a b c.
Proof.
  unfold getPointsByName, getPointsByOppositeVertex, getPointsByAdjacentVertex.
  destruct (Str.hasLower key).
  - set (V := Str.toUpperCase key).
    destruct (negb (existsb _ refs)) eqn:E; [discriminate|].
    rewrite filter_refs. intros [= <-].
    do 3 eexists; split; [|reflexivity].
    unfold sameName; simpl in *.
    destruct (String.eqb_spec (Point.name (pt0 t)) V) as [E0|E0];
    destruct (String.eqb_spec (Point.name (pt1 t)) V) as [E1|E1];
    destruct (String.eqb_spec (Point.name (pt2 t)) V) as [E2|E2];
    simpl in E; try discriminate;
    destruct (String.eqb_spec (Point.name (pt0 t)) (Point.name (pt1 t)));
    destruct (String.eqb_spec (Point.name (pt0 t)) (Point.name (pt2 t)));
    destruct (String.eqb_spec (Point.name (pt1 t)) (Point.name (pt2 t)));
    simpl; try reflexivity; congruence.
  - set (vs := Str.segments key).
    destruct (negb (Nat.eqb (List.length vs) 2)); [discriminate|].
    rewrite filter_refs. cbv beta. simpl at_.
    set (i0 := Str.includes vs (Point.name (pt0 t))).
    set (i1 := Str.includes vs (Point.name (pt1 t))).
    set (i2 := Str.includes vs (Point.name (pt2 t))).
    destruct (negb (Nat.eqb _ 2)) eqn:E; [discriminate|].
    intros [= <-].
    exists i0, i1, i2; split; [|reflexivity].
    assert (H01 : sameName t P0 P1 = true -> i0 = i1)
      by (unfold sameName, i0, i1; simpl; intro Q;
          apply String.eqb_eq in Q; now rewrite Q).
    assert (H02 : sameName t P0 P2 = true -> i0 = i2)
      by (unfold sameName, i0, i2; simpl; intro Q;
          apply String.eqb_eq in Q; now rewrite Q).
    assert (H12 : sameName t P1 P2 = true -> i1 = i2)
      by (unfold sameName, i1, i2; simpl; intro Q;
          apply String.eqb_eq in Q; now rewrite Q).
    clearbody i0 i1 i2.
    destruct (sameName t P0 P1), (sameName t P0 P2), (sameName t P1 P2),
      i0, i1, i2; try reflexivity; try discriminate;
      try (specialize (H01 eq_refl); discriminate);
      try (specialize (H02 eq_refl); discriminate);
      try (specialize (H12 eq_refl); discriminate).
Qed.

Lemma three_masks e01 e02 e12 a1 b1 c1 a2 b2 c2 a3 b3 c3 :
  let p (a b c : bool) := (nth_error (keep a b c) 0, nth_error (keep a b c) 1) in
  let same (u v : option ref * option ref) :=
    (oref_eqb (fst u) (fst v) && oref_eqb (snd u) (snd v))
    || (oref_eqb (snd u) (fst v) && oref_eqb (fst u) (snd v)) in
  let whole (u : option ref * option ref) :=
    match u with (Some _, Some _) => true | _ => false end in
  goodMask e01 e02 e12 a1 b1 c1 = true ->
  goodMask e01 e02 e12 a2 b2 c2 = true ->
  goodMask e01 e02 e12 a3 b3 c3 = true ->
  same (p a1 b1 c1) (p a2 b2 c2) = false ->
  same (p a1 b1 c1) (p a3 b3 c3) = false ->
  same (p a2 b2 c2) (p a3 b3 c3) = false ->
  whole (p a1 b1 c1) && whole (p a2 b2 c2) && whole (p a3 b3 c3) = true.
Proof.
  destruct e01, e02, e12, a1, b1, c1; cbv; try discriminate;
    destruct a2, b2, c2; try discriminate;
    destruct a3, b3, c3; try discriminate; intros; congruence.
Qed.

Lemma distinctPairs_snoc (l : list (SideOption N)) o :
  distinctPairs l ->
  (forall o', In o' l -> samePair o' (op1 o) (op2 o) = false) ->
  distinctPairs (l ++ [o]).
Proof.
  induction l as [|u r IH]; simpl.
  - intros _ _. split; [intros ? []| exact I].
  - intros [Hu Hr] H. split.
    + intros o' Hin. apply in_app_or in Hin. destruct Hin as [Hin|[<-|[]]].
      * now apply Hu.
      * apply H. now left.
    + apply IH; [exact Hr|]. intros o' Hin. apply H. now right.
Qed.

Lemma checkAndMergeFrom_wf (t : Tri N) sides : forall options res,
  checkAndMergeFrom t sides options = Ok res ->
  Forall (edge t) options -> distinctPairs options ->
  Forall (edge t) res /\ distinctPairs res.
Proof.
  induction sides as [|[key len] rest IH]; simpl; intros options res H F D.
  - inversion H; subst; auto.
  - destruct (getPointsByName t key) as [l|] eqn:G; [|discriminate].
    destruct (find _ options) as [o|] eqn:Fd.
    + destruct (negb _); [discriminate|]. eapply IH; eauto.
    + eapply IH; [exact H| |].
      * apply Forall_app; split; [exact F|]. constructor; [|constructor].
        destruct (getPointsByName_keep _ _ G) as (a & b & c & Hg & ->).
        exists a, b, c; simpl; auto.
      * apply distinctPairs_snoc; [exact D|]. simpl.
        intros o' Hin. exact (find_none _ _ Fd o' Hin).
Qed.

Lemma checkAndMergeSides_three (t : Tri N) sides oa ob oc :
  checkAndMergeSides t sides = Ok [oa; ob; oc] ->
  full oa = true /\ full ob = true /\ full oc = true.
Proof.
  intro H. apply checkAndMergeFrom_wf in H; [|constructor|exact I].
  destruct H as [F D].
  inversion F as [|? ? Ea F1]; subst. inversion F1 as [|? ? Eb F2]; subst.
  inversion F2 as [|? ? Ec _]; subst.
  destruct Ea as (a1 & b1 & c1 & G1 & A1 & A2).
  destruct Eb as (a2 & b2 & c2 & G2 & B1 & B2).
  destruct Ec as (a3 & b3 & c3 & G3 & C1 & C2).
  simpl in D. destruct D as (Dab & Dbc & _).
  pose proof (Dab ob (or_introl eq_refl)) as Hab.
  pose proof (Dab oc (or_intror (or_introl eq_refl))) as Hac.
  pose proof (Dbc oc (or_introl eq_refl)) as Hbc.
  unfold samePair in Hab, Hac, Hbc. unfold full.
  rewrite A1, A2, B1, B2 in Hab. rewrite A1, A2, C1, C2 in Hac.
  rewrite B1, B2, C1, C2 in Hbc. rewrite A1, A2, B1, B2, C1, C2.
  pose proof (three_masks _ _ _ _ _ _ _ _ _ _ _ _ G1 G2 G3 Hab Hac Hbc) as W.
  simpl in W. apply andb_prop in W. destruct W as [W Wc].
  apply andb_prop in W. destruct W as [Wa Wb]. auto.
Qed.

Lemma full_pick (o : SideOption N) moved :
  full o = true ->
  exists r, (if oref_eqb (op1 o) (Some moved) then op2 o else op1 o) = Some r.
Proof.
  unfold full. destruct (op1 o), (op2 o); try discriminate.
  intros _. destruct (oref_eqb _ _); eauto.
Qed.

Lemma total_deref_pick (o : SideOption N) moved :
  full o = true ->
  total (@deref (Tri N)
           (if oref_eqb (op1 o) (Some moved) then op2 o else op1 o)).
Proof.
  intro F. destruct (@full_pick o moved F) as [r ->]. apply total_deref_some.
Qed.

Lemma atomic_setAllSidesLength (oa ob oc : SideOption N) :
  full oa = true -> full ob = true -> full oc = true ->
  atomic (setAllSidesLength [oa; ob; oc]).
Proof.
  intros Fa Fb Fc. unfold setAllSidesLength.
  destruct (rejected _ _ _); [apply atomic_throw|].
  apply atomic_bind; [apply readOnly_get | intro t].
  apply atomic_bind; [apply readOnly_deref | intro fixed].
  apply atomic_bind; [apply readOnly_deref | intro slided].
  destruct (findIndex _ _) as [index|]; [|apply atomic_throw].
  destruct (nth_error _ index) as [o|] eqn:E; [|apply atomic_throw].
  destruct (otherThan_some fixed slided) as [moved L]. rewrite L.
  apply total_atomic.
  apply total_bind; [apply total_setX | intros _].
  apply total_bind; [apply total_setY | intros _].
  apply total_bind; [apply total_deref_some | intro m].
  destruct index as [|[|[|k]]]; simpl removeAt;
    try (destruct k; discriminate);
    (apply total_bind; [apply total_deref_pick; assumption | intro q1]);
    (apply total_bind; [apply total_deref_pick; assumption | intro q2]);
    (apply total_bind; [apply total_get | intro t3]);
    destruct (alcutePoint _ _ _); total_steps.
Qed.

Lemma atomic_setSideLength sides : atomic (setSideLength sides).
Proof.
  intros s e s' H. unfold setSideLength in H.
  unfold bind at 1 in H. unfold get at 1 in H.
  unfold bind at 1 in H. unfold lift at 1 in H.
  destruct (checkAndMergeSides s sides) as [options|e0] eqn:E.
  - destruct options as [|o0 [|o1 [|o2 [|o3 r]]]].
    + inversion H.
    + exact (@atomic_setOneSideLength o0 s e s' H).
    + exact (@atomic_setTwoSidesLength o0 o1 s e s' H).
    + destruct (checkAndMergeSides_three _ _ E) as (Fa & Fb & Fc).
      exact (@atomic_setAllSidesLength o0 o1 o2 Fa Fb Fc s e s' H).
    + inversion H.
  - inversion H; reflexivity.
Qed.
End Atomicity.

(** ** Closed forms of the transforms and constructors *)

Section ClosedForms.
Context {N : Type} {num : Num N}.
Local Open Scope num_scope.

(** the destructuring of a sorted triple always finds three elements *)
Lemma sortedTriple_sorted {numstr : NumToString N} (a b c : N) :
  exists u v w,
    sortBy defaultGt [a; b; c] = [u; v; w] /\ sortedTriple a b c = (u, v, w).
Proof.
  destruct (sortBy3 defaultGt a b c) as (u & v & w & E).
  exists u, v, w. split; [exact E|]. unfold sortedTriple. now rewrite E.
Qed.

Lemma move_translated deltaX deltaY (t : Tri N) :
  move deltaX deltaY t = (Ok tt, translated deltaX deltaY t).
Proof. destruct t as [[] [] []]. reflexivity. Qed.

Lemma moveToMargin_translated (t : Tri N) :
  moveToMargin t = (Ok tt, translated (fst (margin t)) (snd (margin t)) t).
Proof.
  unfold moveToMargin, bind, get. destruct (margin t) as [dX dY].
  apply move_translated.
Qed.


Lemma scale_scaledAbout factor (t : Tri N) :
  scale factor t
  = (Ok tt,
     mkTri (scaledAbout (centroidX t) (centroidY t) factor (pt0 t))
           (scaledAbout (centroidX t) (centroidY t) factor (pt1 t))
           (scaledAbout (centroidX t) (centroidY t) factor (pt2 t))).
Proof. destruct t as [[] [] []]. reflexivity. Qed.

Lemma flip_reflected line (t : Tri N) :
  flip line t
  = (Ok tt, mkTri (reflected line (pt0 t)) (reflected line (pt1 t))
                  (reflected line (pt2 t))).
Proof. destruct t as [[] [] []]. reflexivity. Qed.

Lemma createDefault_segments name A B C :
  Str.segments name = [A; B; C] ->
  createDefaultTrianglePoints name
  = Ok (mkTri (Point.mk (lit 70) (lit 20) A)
              (Point.mk (lit 20) (lit 120) B)
              (Point.mk (lit 120) (lit 120) C)).
Proof. intro H. unfold createDefaultTrianglePoints. now rewrite H. Qed.

Lemma fromHL_placed hypotenuse leg name A B C :
  (leg <=? lit 0) = false -> (hypotenuse <=? leg) = false ->
  Str.segments name = [A; B; C] ->
  fromHL hypotenuse leg name
  = Ok (translated (fst (margin (placedHL hypotenuse leg A B C)))
                   (snd (margin (placedHL hypotenuse leg A B C)))
                   (placedHL hypotenuse leg A B C)).
Proof.
  intros H1 H2 H3. unfold fromHL. rewrite H1, H2, (createDefault_segments _ H3).
  unfold returning.
  match goal with
  | |- context [(bind ?a ?b) ?t] =>
      replace ((bind a b) t) with (moveToMargin (placedHL hypotenuse leg A B C))
        by reflexivity
  end.
  rewrite moveToMargin_translated. reflexivity.
Qed.


Lemma fromASA_placed {trig : Trig N} angle1 length angle2 name A B C :
  (angle1 <=? lit 0) || (angle1 >=? lit 180) = false ->
  (angle2 <=? lit 0) || (angle2 >=? lit 180) = false ->
  (angle1 + angle2 >=? lit 180) = false ->
  (length <=? lit 0) = false ->
  Str.segments name = [A; B; C] ->
  fromASA angle1 length angle2 name
  = Ok (translated (fst (margin (placedASA angle1 length angle2 A B C)))
                   (snd (margin (placedASA angle1 length angle2 A B C)))
                   (placedASA angle1 length angle2 A B C)).
Proof.
  intros H1 H2 H3 H4 H5. unfold fromASA.
  rewrite (createDefault_segments _ H5), H1, H2, H3, H4.
  unfold returning.
  match goal with
  | |- context [(bind ?a ?b) ?t] =>
      replace ((bind a b) t)
        with (moveToMargin (placedASA angle1 length angle2 A B C))
        by reflexivity
  end.
  rewrite moveToMargin_translated. reflexivity.
Qed.

Lemma tri_eq (a a' b b' c c' d d' e e' f f' : N) A B C :
  a = a' -> b = b' -> c = c' -> d = d' -> e = e' -> f = f' ->
  mkTri (Point.mk a b A) (Point.mk c d B) (Point.mk e f C)
  = mkTri (Point.mk a' b' A) (Point.mk c' d' B) (Point.mk e' f' C).
Proof. intros; subst; reflexivity. Qed.
End ClosedForms.

(* ================================================================== *)
(** ** Exact arithmetic *)

Section Exact.
Local Open Scope R_scope.

Lemma Rltb_true a b : a < b -> Rltb a b = true.
Proof. intro H. unfold Rltb. destruct (Rlt_dec a b); [reflexivity | contradiction]. Qed.

Lemma Rltb_false a b : ~ a < b -> Rltb a b = false.
Proof. intro H. unfold Rltb. destruct (Rlt_dec a b); [contradiction | reflexivity]. Qed.

Lemma Rleb_true a b : a <= b -> Rleb a b = true.
Proof. intro H. unfold Rleb. destruct (Rle_dec a b); [reflexivity | contradiction]. Qed.

Lemma Rleb_false a b : ~ a <= b -> Rleb a b = false.
Proof. intro H. unfold Rleb. destruct (Rle_dec a b); [contradiction | reflexivity]. Qed.
End Exact.

Ltac decide_cmp :=
  repeat match goal with
         | |- context [Rltb ?a ?b] =>
             first [ rewrite (@Rltb_true a b) by lra
                   | rewrite (@Rltb_false a b) by lra ]
         | |- context [Rleb ?a ?b] =>
             first [ rewrite (@Rleb_true a b) by lra
                   | rewrite (@Rleb_false a b) by lra ]
         end.

Section ExactFacts.
Local Open Scope R_scope.
Local Open Scope string_scope.

(** the closing loop of a constructor shifts nothing when every coordinate
    is 20 or more *)
Lemma margin_none (t : Tri R) :
  20 <= Point.x (pt0 t) -> 20 <= Point.x (pt1 t) -> 20 <= Point.x (pt2 t) ->
  20 <= Point.y (pt0 t) -> 20 <= Point.y (pt1 t) -> 20 <= Point.y (pt2 t) ->
  margin t = (0, 0).
Proof.
  intros. unfold margin; simpl. decide_cmp. reflexivity.
Qed.


Lemma deg90 : 90 * Rtrigo1.PI / 180 = Rtrigo1.PI / 2.
Proof. field. Qed.

Lemma deg60 : 60 * Rtrigo1.PI / 180 = Rtrigo1.PI / 3.
Proof. field. Qed.

Lemma placedASA_90_10_60 :
  placedASA 90 10 60 "A" "B" "C"
  = mkTri (Point.mk 20 100 "A") (Point.mk 20 120 "B") (Point.mk 30 120 "C").
Proof.
  unfold placedASA; simpl. rewrite deg90, deg60, cos_PI2, sin_PI2, cos_PI3.
  apply tri_eq; try reflexivity; field.
Qed.

Lemma fromASA_90_10_60 :
  fromASA 90 10 60 "ABC"
  = Ok (mkTri (Point.mk 20 100 "A") (Point.mk 20 120 "B") (Point.mk 30 120 "C")).
Proof.
  rewrite (@fromASA_placed R _ _ 90 10 60 "ABC" "A" "B" "C");
    try (simpl; decide_cmp; reflexivity).
  rewrite placedASA_90_10_60.
  rewrite margin_none by (simpl; lra).
  unfold translated; simpl. f_equal. apply tri_eq; lra.
Qed.

Lemma angle_C_90_10_60 :
  cosAngleAt (Point.mk 30 120 "C") (Point.mk 20 100 "A") (Point.mk 20 120 "B")
  <> Rtrigo_def.cos (60 * Rtrigo1.PI / 180).
Proof.
  unfold cosAngleAt, sideLength, pow2; simpl.
  rewrite deg60, cos_PI3.
  replace ((20 - 30) * (20 - 30) + (100 - 120) * (100 - 120)) with 500 by ring.
  replace ((20 - 30) * (20 - 30) + (120 - 120) * (120 - 120)) with (10 * 10) by ring.
  replace ((20 - 30) * (20 - 30) + (100 - 120) * (120 - 120)) with 100 by ring.
  rewrite sqrt_square by lra.
  intro H.
  assert (P : 0 < R_sqrt.sqrt 500) by (apply sqrt_lt_R0; lra).
  assert (S : R_sqrt.sqrt 500 * R_sqrt.sqrt 500 = 500) by (apply sqrt_sqrt; lra).
  assert (E : 100 = 1 / 2 * (R_sqrt.sqrt 500 * 10))
    by (rewrite <- H; field; lra).
  nra.
Qed.

(** [fromASA(60, 10, 60)] in exact arithmetic: the three sides measure 10 *)
Lemma fromASA_60_10_60_equilateral :
  exists t,
    fromASA 60 10 60 "ABC" = Ok t
    /\ sideLength (pt1 t) (pt2 t) = 10
    /\ sideLength (pt0 t) (pt1 t) = 10
    /\ sideLength (pt0 t) (pt2 t) = 10.
Proof.
  rewrite (@fromASA_placed R _ _ 60 10 60 "ABC" "A" "B" "C");
    try (simpl; decide_cmp; reflexivity).
  eexists; split; [reflexivity|].
  generalize (fst (margin (placedASA 60 10 60 "A" "B" "C"))) as dX.
  generalize (snd (margin (placedASA 60 10 60 "A" "B" "C"))) as dY.
  intros dY dX.
  unfold placedASA, translated, sideLength, pow2; simpl.
  rewrite deg60, cos_PI3, sin_PI3.
  assert (S3 : R_sqrt.sqrt 3 * R_sqrt.sqrt 3 = 3) by (apply sqrt_sqrt; lra).
  repeat apply conj.
  - replace (_ + _) with (10 * 10) by ring. apply sqrt_square; lra.
  - replace (_ + _) with (10 * 10) by (field_simplify; nra).
    apply sqrt_square; lra.
  - replace (_ + _) with (10 * 10) by (field_simplify; nra).
    apply sqrt_square; lra.
Qed.

(** the formula of [flip] is the reflection across the line *)
Lemma reflected_mirrorImage (line : Line R) (p : Point.t R) :
  la line * la line + lb line * lb line <> 0 ->
  mirrorImage line p (reflected line p).
Proof.
  intro H. unfold mirrorImage, reflected; simpl.
  repeat apply conj; [field; exact H | field; exact H | reflexivity].
Qed.

(** with factor 1 the formula of [scale] sends every point to the centroid *)
Lemma scaledAbout_one (cx cy : R) (p : Point.t R) :
  scaledAbout cx cy 1 p = Point.mk cx cy (Point.name p).
Proof. unfold scaledAbout; simpl. f_equal; ring. Qed.

(** with factor 2 it leaves every point where it is *)
Lemma scaledAbout_two (cx cy : R) (p : Point.t R) :
  scaledAbout cx cy 2 p = p.
Proof. destruct p. unfold scaledAbout; simpl. f_equal; ring. Qed.
End ExactFacts.

(** The two-circle intersection picks the side of the reference vertex. *)

Section Intersector.
Local Open Scope R_scope.

(** the first candidate of [#alcutePoint] lies on the negative side of the
    line from the first anchor to the second, the other on the positive *)
Lemma candidate_cross (ux uy a h D x1 y1 : R) :
  0 < D -> D * D = ux * ux + uy * uy ->
  ux * (y1 + a * (uy / D) - h * (ux / D) - y1)
  - uy * (x1 + a * (ux / D) + h * (uy / D) - x1) = - (h * D)
  /\ ux * (y1 + a * (uy / D) + h * (ux / D) - y1)
     - uy * (x1 + a * (ux / D) - h * (uy / D) - x1) = h * D.
Proof.
  intros HD E. split.
  - transitivity (- h * (ux * ux + uy * uy) / D); [field; lra|].
    rewrite <- E. field; lra.
  - transitivity (h * (ux * ux + uy * uy) / D); [field; lra|].
    rewrite <- E. field; lra.
Qed.

Lemma alcutePoint_same_side (v q1 q2 : Point.t R) (d1 d2 : R) :
  let ux := Point.x q2 - Point.x q1 in
  let uy := Point.y q2 - Point.y q1 in
  let D := R_sqrt.sqrt (ux * ux + uy * uy) in
  let a := (d1 * d1 - d2 * d2 + D * D) / (2 * D) in
  0 < D -> 0 < d1 * d1 - a * a -> sideCross q1 q2 v <> 0 ->
  forall n,
  0 < sideCross q1 q2
        (Point.mk (fst (alcutePoint v (d1, q1) (d2, q2)))
                  (snd (alcutePoint v (d1, q1) (d2, q2))) n)
      * sideCross q1 q2 v.
Proof.
  intros ux uy D a HD Hh Hv n.
  assert (E : D * D = ux * ux + uy * uy).
  { unfold D. apply sqrt_sqrt. nra. }
  set (h := R_sqrt.sqrt (d1 * d1 - a * a)).
  assert (Hpos : 0 < h) by (apply sqrt_lt_R0; exact Hh).
  destruct (@candidate_cross ux uy a h D (Point.x q1) (Point.y q1) HD E) as [C1 C2].
  unfold alcutePoint, pow2. simpl.
  fold ux uy. fold D. fold a. fold h.
  unfold sideCross in *. simpl in *. fold ux uy in Hv |- *.
  set (cv := ux * (Point.y v - Point.y q1) - uy * (Point.x v - Point.x q1)) in *.
  rewrite C1.
  destruct (Rltb 0 (- (h * D) * cv)) eqn:B; simpl.
  - rewrite C1. unfold Rltb in B. destruct (Rlt_dec _ _); [lra | discriminate].
  - rewrite C2. unfold Rltb in B. destruct (Rlt_dec _ _); [discriminate|].
    assert (0 < h * D) by nra. nra.
Qed.
End Intersector.

(* ================================================================== *)
(** ** Binary64 *)

Section Binary64.
Local Open Scope float_scope.

(** the string forms the length checks compare *)
Example toString_samples :
  toString 2 = "2"%string
  /\ toString 10 = "10"%string
  /\ toString 1000 = "1000"%string
  /\ toString (PrimFloat.sqrt 12500) = "111.80339887498948"%string
  /\ toString (260 / 3) = "86.66666666666667"%string
  /\ toString (1 / 10) = "0.1"%string
  /\ toString (1 / 10000000) = "1e-7"%string
  /\ toString (-50) = "-50"%string
  /\ toString (0 / 0) = "NaN"%string.
Proof. repeat apply conj; vm_compute; reflexivity. Qed.

(** a float that compares equal to zero is one of the two zeros *)
Lemma zero_spec a : PrimFloat.eqb a 0 = true -> exists s, Prim2SF a = S754_zero s.
Proof.
  rewrite FloatAxioms.eqb_spec.
  change (Prim2SF 0) with (S754_zero false).
  destruct (Prim2SF a) as [s|s| |s m e]; eauto;
    try discriminate; destruct s; discriminate.
Qed.

(** with [a] and [b] zero the first coordinate [flip] computes is [0 / 0] *)
Lemma mirror_x_nan a b c x y :
  PrimFloat.eqb a 0 = true -> PrimFloat.eqb b 0 = true ->
  2 * ((b * b * x - a * b * y - a * c) / (a * a + b * b)) - x = nan.
Proof.
  intros Ha Hb.
  destruct (zero_spec Ha) as [sa Ea]. destruct (zero_spec Hb) as [sb Eb].
  apply Prim2SF_inj.
  rewrite !sub_spec, !mul_spec, !div_spec, !add_spec, !sub_spec, !mul_spec, Ea, Eb.
  change (Prim2SF nan) with S754_nan.
  change (Prim2SF 2) with (S754_finite false 4503599627370496 (-51)).
  destruct (Prim2SF x) as [sx|sx| |sx mx ex], (Prim2SF y) as [sy|sy| |sy my ey],
    (Prim2SF c) as [sc|sc| |sc mc ec], sa, sb;
    try reflexivity;
    repeat match goal with s : bool |- _ => destruct s end; reflexivity.
Qed.

(** and so is the second *)
Lemma mirror_y_nan a b c x y :
  PrimFloat.eqb a 0 = true -> PrimFloat.eqb b 0 = true ->
  2 * ((a * a * y - a * b * x - b * c) / (a * a + b * b)) - y = nan.
Proof.
  intros Ha Hb.
  destruct (zero_spec Ha) as [sa Ea]. destruct (zero_spec Hb) as [sb Eb].
  apply Prim2SF_inj.
  rewrite !sub_spec, !mul_spec, !div_spec, !add_spec, !sub_spec, !mul_spec, Ea, Eb.
  change (Prim2SF nan) with S754_nan.
  change (Prim2SF 2) with (S754_finite false 4503599627370496 (-51)).
  destruct (Prim2SF x) as [sx|sx| |sx mx ex], (Prim2SF y) as [sy|sy| |sy my ey],
    (Prim2SF c) as [sc|sc| |sc mc ec], sa, sb;
    try reflexivity;
    repeat match goal with s : bool |- _ => destruct s end; reflexivity.
Qed.

Lemma flip_zero_line (t : Tri float) (line : Line float) :
  PrimFloat.eqb (la line) 0 = true -> PrimFloat.eqb (lb line) 0 = true ->
  flip line t = (Ok tt, Run.allNaN t).
Proof.
  intros Ha Hb. rewrite flip_reflected. unfold Run.allNaN, reflected; simpl.
  rewrite !(mirror_x_nan _ _ _ Ha Hb), !(mirror_y_nan _ _ _ Ha Hb).
  reflexivity.
Qed.
End Binary64.

(* ================================================================== *)
(** ** The claims *)

Section ClaimsBinary64.
Local Open Scope float_scope.
Local Open Scope string_scope.

Lemma ABC_constructed : createDefaultTrianglePoints "ABC" = Ok Run.ABC.
Proof. vm_compute. reflexivity. Qed.

Lemma ABC_satisfies_invariant : coreInvariant Run.ABC = true.
Proof. vm_compute. reflexivity. Qed.

(** Calls the length check decides rightly: [setSideLength({a: 50})] on the
    default triangle keeps [b], [c] and the side of [A]; [fromSSS(3, 4, 5)]
    builds the right triangle; [setSideLength({a: 300})] is rejected. *)
Example setSideLength_accepts_and_rejects :
  (let t' := snd (setSideLength [("a", 50)] Run.ABC) in
   fst (setSideLength [("a", 50)] Run.ABC) = Ok tt
   /\ getSideLength t' "a" = Ok 50
   /\ getSideLength t' "b" = Ok (PrimFloat.sqrt 12500)
   /\ getSideLength t' "c" = Ok (PrimFloat.sqrt 12500)
   /\ PrimFloat.ltb 0 (sideCross (pt2 t') (pt1 t') (pt0 t')) = true)
  /\ fromSSS 3 4 5 "ABC"
     = Ok (mkTri (Point.mk 23 116 "A") (Point.mk 20 120 "B") (Point.mk 23 120 "C"))
  /\ setSideLength [("a", 300)] Run.ABC = (Throw InvalidTriangle, Run.ABC)
  /\ setSideLength [("a", 5); ("BC", 6)] Run.ABC = (Throw ConflictLengths, Run.ABC)
  /\ setSideLength [("x", 5)] Run.ABC = (Throw VertexDoesNotExist, Run.ABC).
Proof. repeat apply conj; vm_compute; reflexivity. Qed.

(** C1.  [fromSSS] is said to fail on every triple that violates the strict
    inequality, (2, 2, 10) among them, after sorting the lengths as numbers.
    The code sorts them by their string forms: (2, 2, 10) becomes
    [10, 2, 2], the test [10 + 2 <= 2] is false, nothing is thrown, and a
    triangle with a [NaN] vertex is returned.  (2, 2, 4) and (1, 1, 3) are
    rejected. *)
Theorem fromSSS_2_2_10_is_not_rejected :
  sortedTriple 2 2 10 = (10, 2, 2)
  /\ rejected 2 2 10 = false
  /\ fromSSS 2 2 10 "ABC"
     = Ok (mkTri (Point.mk nan nan "A") (Point.mk 20 120 "B") (Point.mk 22 120 "C"))
  /\ fromSSS 2 2 4 "ABC" = Throw InvalidTriangle
  /\ fromSSS 1 1 3 "ABC" = Throw InvalidTriangle.
Proof. repeat apply conj; vm_compute; reflexivity. Qed.


(** C4.  After a successful single-edge [setSideLength] the third vertex is
    said to stay on its side of the edge.  On the default triangle
    [setSideLength({a: 1000})] passes the length check (the lengths are
    sorted as strings, and 1000 sorts first), succeeds, and leaves the
    vertex [A] at [NaN]: the cross product, 10000 before the call, is [NaN]
    after it. *)
Theorem setSideLength_a_1000_loses_orientation :
  setSideLength [("a", 1000)] Run.ABC
  = (Ok tt, mkTri (Point.mk nan nan "A") (Point.mk 20 120 "B") (Point.mk 1020 120 "C"))
  /\ sideCross (Point.mk 120 120 "C") (Point.mk 20 120 "B") (Point.mk 70 20 "A") = 10000
  /\ sideCross (Point.mk 1020 120 "C") (Point.mk 20 120 "B") (Point.mk nan nan "A") = nan
  /\ rejected 1000 (PrimFloat.sqrt 12500) (PrimFloat.sqrt 12500) = false.
Proof. repeat apply conj; vm_compute; reflexivity. Qed.

(** C5.  After a successful [setSideLength({a: L})] side [a] is said to
    measure [L] and the sides [b] and [c] to keep their lengths.  With
    [L = 1000] on the default triangle the call succeeds and [a] measures
    1000, but [b] and [c], both [sqrt 12500] before, are [NaN] after. *)
Theorem setSideLength_a_1000_spoils_other_sides :
  let t' := snd (setSideLength [("a", 1000)] Run.ABC) in
  fst (setSideLength [("a", 1000)] Run.ABC) = Ok tt
  /\ getSideLength t' "a" = Ok 1000
  /\ getSideLength Run.ABC "b" = Ok (PrimFloat.sqrt 12500)
  /\ getSideLength Run.ABC "c" = Ok (PrimFloat.sqrt 12500)
  /\ getSideLength t' "b" = Ok nan
  /\ getSideLength t' "c" = Ok nan.
Proof. repeat apply conj; vm_compute; reflexivity. Qed.

(** C6.  [scale(1)] is said to be the identity.  With the formula
    [center + (p - center) * (factor - 1)] of the code it sends the three
    vertices of the default triangle to the centroid (70, 260/3). *)
Theorem scale_1_collapses_ABC :
  scale 1 Run.ABC
  = (Ok tt, mkTri (Point.mk 70 (260 / 3) "A") (Point.mk 70 (260 / 3) "B")
                  (Point.mk 70 (260 / 3) "C"))
  /\ scale 2 Run.ABC = (Ok tt, Run.ABC).
Proof. repeat apply conj; vm_compute; reflexivity. Qed.

(** C7, as stated, fails: [flip] with [a = b = 0] does not throw; on the
    default triangle it succeeds and leaves every coordinate [NaN]. *)
Lemma flip_zero_line_is_not_rejected :
  flip (mkLine 0 0 1) Run.ABC
  = (Ok tt, mkTri (Point.mk nan nan "A") (Point.mk nan nan "B") (Point.mk nan nan "C")).
Proof. vm_compute. reflexivity. Qed.


End ClaimsBinary64.

Section ClaimsGeneric.
Context {N : Type} {num : Num N}.
Local Open Scope num_scope.


(** C3.  Whenever [setSideLength] throws (a side name that does not
    resolve, lengths in conflict, a failed length check, or a property read
    on [undefined]) the three vertices are exactly as before the call, for
    every argument and every triangle. *)
Theorem setSideLength_atomic_on_failure
        {numstr : NumToString N} (sides : list (string * N)) (t t' : Tri N)
        (e : Thrown) :
  setSideLength sides t = (Throw e, t') -> t' = t.
Proof. intro H. exact (@atomic_setSideLength N num numstr sides t e t' H). Qed.
End ClaimsGeneric.

Section ClaimsWitnesses.
Local Open Scope float_scope.
Local Open Scope string_scope.

Lemma setSideLength_atomic_on_failure_witness :
  setSideLength [("a", 300)] Run.ABC = (Throw InvalidTriangle, Run.ABC)
  /\ Run.ABC = Run.ABC.
Proof.
  assert (H : setSideLength [("a", 300)] Run.ABC
              = (Throw InvalidTriangle, Run.ABC))
    by (vm_compute; reflexivity).
  split; [exact H|].
  exact (@setSideLength_atomic_on_failure float _ _ _ _ _ _ H).
Defined.
End ClaimsWitnesses.

Section ClaimsFlip.
Local Open Scope string_scope.

(** C7, amended.  [flip] has no check of the line and never throws.  With
    [a = b = 0] it divides zero by zero and leaves every coordinate [NaN],
    on every triangle; with [a] and [b] not both zero it maps, in exact
    arithmetic, each vertex to its mirror image across [a x + b y + c = 0]. *)
Theorem flip_never_rejects :
  (forall (t : Tri float) (line : Line float),
      fst (flip line t) = Ok tt
      /\ (PrimFloat.eqb (la line) 0%float = true ->
          PrimFloat.eqb (lb line) 0%float = true ->
          snd (flip line t) = Run.allNaN t))
  /\ (forall (t : Tri R) (line : Line R) (r : ref),
         fst (flip line t) = Ok tt
         /\ ((la line * la line + lb line * lb line)%R <> 0%R ->
             mirrorImage line (at_ t r) (at_ (snd (flip line t)) r))).
Proof.
  split.
  - intros t line. split.
    + rewrite flip_reflected. reflexivity.
    + intros Ha Hb. rewrite (flip_zero_line t line Ha Hb). reflexivity.
  - intros t line r. rewrite flip_reflected. split; [reflexivity|].
    intro H. destruct r; simpl; apply reflected_mirrorImage; exact H.
Qed.

Lemma flip_never_rejects_witness :
  snd (flip (mkLine 0 0 1)%float Run.ABC) = Run.allNaN Run.ABC
  /\ mirrorImage (mkLine 1 0 0)%R (Point.mk 70 20 "A")%R
       (at_ (snd (flip (mkLine 1 0 0)%R
                       (mkTri (Point.mk 70 20 "A") (Point.mk 20 120 "B")
                              (Point.mk 120 120 "C"))%R)) P0).
Proof.
  split.
  - apply (proj2 (proj1 flip_never_rejects Run.ABC (mkLine 0 0 1)%float));
      vm_compute; reflexivity.
  - apply (proj2 (proj2 flip_never_rejects
                    (mkTri (Point.mk 70 20 "A") (Point.mk 20 120 "B")
                           (Point.mk 120 120 "C"))%R (mkLine 1 0 0)%R P0)).
    simpl. lra.
Defined.
End ClaimsFlip.

Section ClaimsExact.
Local Open Scope R_scope.
Local Open Scope string_scope.

(** C8.  [fromASA(angle1, length, angle2)] is said to give the angle
    [angle1] at [B], the angle [angle2] at [C] and the length [length] to
    the side between them.  In exact arithmetic [fromASA(90, 10, 60)]
    returns A = (20, 100), B = (20, 120), C = (30, 120): the side [BC]
    measures 10 and the angle at [B] is right, but the cosine of the angle
    at [C] is not that of 60 degrees ([AB] measures 20, not 10 tan 60). *)
Theorem fromASA_90_10_60_misses_angle_C :
  let pA := Point.mk 20 100 "A" in
  let pB := Point.mk 20 120 "B" in
  let pC := Point.mk 30 120 "C" in
  fromASA 90 10 60 "ABC" = Ok (mkTri pA pB pC)
  /\ sideLength pB pC = 10
  /\ cosAngleAt pB pA pC = Rtrigo_def.cos (90 * Rtrigo1.PI / 180)
  /\ cosAngleAt pC pA pB <> Rtrigo_def.cos (60 * Rtrigo1.PI / 180)
  /\ sideLength pA pB = 20.
Proof.
  intros pA pB pC. repeat apply conj.
  - exact fromASA_90_10_60.
  - unfold sideLength, pow2, pB, pC; simpl.
    replace (_ + _) with (10 * 10) by ring. apply sqrt_square; lra.
  - rewrite deg90, cos_PI2. unfold cosAngleAt, pA, pB, pC; simpl.
    unfold Rdiv. replace ((20 - 20) * (30 - 20) + (100 - 120) * (120 - 120)) with 0 by ring.
    ring.
  - exact angle_C_90_10_60.
  - unfold sideLength, pow2, pA, pB; simpl.
    replace (_ + _) with (20 * 20) by ring. apply sqrt_square; lra.
Qed.
End ClaimsExact.

Section ClaimsHL.
Local Open Scope string_scope.



End ClaimsHL.

(* ================================================================== *)
(** * Further properties *)

(** *** Names *)

Section NameFacts.

Lemma upper_not_lower c : Str.isUpper c = true -> Str.isLower c = false.
Proof.
  destruct c as [b0 b1 b2 b3 b4 b5 b6 b7]. intro H.
  destruct b0, b1, b2, b3, b4, b5, b6, b7; cbv in *; congruence.
Qed.

Lemma lowChar_upper c :
  Str.isUpper c = true ->
  Str.isLower (Str.lowChar c) = true /\ Str.upChar (Str.lowChar c) = c.
Proof.
  destruct c as [b0 b1 b2 b3 b4 b5 b6 b7]. intro H.
  destruct b0, b1, b2, b3, b4, b5, b6, b7; cbv in *; split; congruence.
Qed.

Lemma upChar_lower c :
  Str.isLower c = true -> Str.isUpper (Str.upChar c) = true.
Proof.
  destruct c as [b0 b1 b2 b3 b4 b5 b6 b7]. intro H.
  destruct b0, b1, b2, b3, b4, b5, b6, b7; cbv in *; congruence.
Qed.

Lemma lowChar_other c : Str.isUpper c = false -> Str.lowChar c = c.
Proof. unfold Str.lowChar. now intros ->. Qed.

Lemma upChar_other c : Str.isLower c = false -> Str.upChar c = c.
Proof. unfold Str.upChar. now intros ->. Qed.

Lemma append_assoc_str (a b c : string) :
  ((a ++ b) ++ c = a ++ (b ++ c))%string.
Proof. induction a as [|x a IH]; simpl; [reflexivity | now rewrite IH]. Qed.

Lemma append_empty_str (a : string) : (a ++ "")%string = a.
Proof. induction a as [|x a IH]; simpl; [reflexivity | now rewrite IH]. Qed.

Lemma noUpper_app a b : noUpper (a ++ b) = noUpper a && noUpper b.
Proof.
  induction a as [|x a IH]; simpl; [reflexivity|].
  rewrite IH. now rewrite andb_assoc.
Qed.

Lemma hasLower_app a b : Str.hasLower (a ++ b) = Str.hasLower a || Str.hasLower b.
Proof.
  induction a as [|x a IH]; simpl; [reflexivity|].
  rewrite IH. now rewrite orb_assoc.
Qed.

(** the characters after a capital join the segment it opened *)
Lemma segmentsFrom_tail r : forall w rest,
  noUpper r = true ->
  Str.segmentsFrom (Some w) (r ++ rest)
  = Str.segmentsFrom (Some (w ++ r)%string) rest.
Proof.
  induction r as [|c r IH]; simpl; intros w rest H.
  - now rewrite append_empty_str.
  - apply andb_prop in H. destruct H as [Hc Hr].
    apply negb_true_iff in Hc. rewrite Hc, IH by exact Hr.
    now rewrite append_assoc_str.
Qed.

Lemma segmentsFrom_concat ws : forall cur,
  forallb isSegment ws = true ->
  Str.segmentsFrom cur (concatAll ws)
  = match cur with Some w => w :: ws | None => ws end.
Proof.
  induction ws as [|v r IH]; simpl; intros cur H.
  - destruct cur; reflexivity.
  - apply andb_prop in H. destruct H as [Hv Hr].
    destruct v as [|c t]; [discriminate|]. simpl in Hv.
    apply andb_prop in Hv. destruct Hv as [Hc Ht].
    simpl. rewrite Hc.
    rewrite segmentsFrom_tail by exact Ht. rewrite IH by exact Hr. simpl.
    destruct cur; reflexivity.
Qed.

(** splitting the concatenation of segments gives the segments back *)
Lemma segments_concat ws :
  forallb isSegment ws = true -> Str.segments (concatAll ws) = ws.
Proof. intro H. unfold Str.segments. now rewrite segmentsFrom_concat. Qed.

Lemma segmentsFrom_shape s : forall cur,
  match cur with Some w => isSegment w = true | None => True end ->
  forallb isSegment (Str.segmentsFrom cur s) = true.
Proof.
  induction s as [|c r IH]; simpl; intros cur H.
  - destruct cur; simpl; [now rewrite H | reflexivity].
  - destruct (Str.isUpper c) eqn:Hc.
    + assert (Hn : forallb isSegment (Str.segmentsFrom (Some (String c "")) r) = true)
        by (apply IH; simpl; now rewrite Hc).
      destruct cur; simpl; [now rewrite H, Hn | exact Hn].
    + destruct cur as [w|]; apply IH; [|exact I].
      destruct w as [|x t]; [discriminate|]. simpl in *.
      apply andb_prop in H. destruct H as [Hx Ht].
      rewrite Hx, noUpper_app, Ht. simpl. now rewrite Hc.
Qed.

(** every name the constructor gives a vertex is one segment *)
Lemma segments_shape s : forallb isSegment (Str.segments s) = true.
Proof. apply segmentsFrom_shape. exact I. Qed.

Lemma toLowerCase_noUpper t : noUpper t = true -> Str.toLowerCase t = t.
Proof.
  induction t as [|c t IH]; simpl; [reflexivity|]. intro H.
  apply andb_prop in H. destruct H as [Hc Ht]. apply negb_true_iff in Hc.
  rewrite lowChar_other by exact Hc. now rewrite IH.
Qed.

Lemma toUpperCase_noLower t : Str.hasLower t = false -> Str.toUpperCase t = t.
Proof.
  induction t as [|c t IH]; simpl; [reflexivity|]. intro H.
  apply orb_false_iff in H. destruct H as [Hc Ht].
  rewrite upChar_other by exact Hc. now rewrite IH.
Qed.

(** a plain name is found again from its lower-case form *)
Lemma plainName_roundtrip w :
  plainName w = true ->
  Str.hasLower (Str.toLowerCase w) = true
  /\ Str.toUpperCase (Str.toLowerCase w) = w.
Proof.
  unfold plainName. intro H. apply andb_prop in H. destruct H as [Hs Hl].
  apply negb_true_iff in Hl.
  destruct w as [|c t]; [discriminate|]. simpl in *.
  apply andb_prop in Hs. destruct Hs as [Hc Ht].
  apply orb_false_iff in Hl. destruct Hl as [_ Hl].
  destruct (lowChar_upper _ Hc) as [L U].
  rewrite L, U, (toLowerCase_noUpper _ Ht), (toUpperCase_noLower _ Hl).
  split; reflexivity.
Qed.

(** the upper-case form of a string with a lower-case letter carries a
    capital *)
Lemma toUpperCase_hasLower t :
  Str.hasLower t = true -> noUpper (Str.toUpperCase t) = false.
Proof.
  induction t as [|c t IH]; simpl; [discriminate|]. intro H.
  destruct (Str.isLower c) eqn:Hc.
  - now rewrite (upChar_lower _ Hc).
  - simpl in H. rewrite (IH H). apply andb_false_r.
Qed.

Lemma lowered_segment_not_found w v :
  isSegment w = true -> Str.hasLower w = true -> isSegment v = true ->
  String.eqb v (Str.toUpperCase (Str.toLowerCase w)) = false.
Proof.
  intros Hw Hl Hv. apply String.eqb_neq. intros ->.
  destruct w as [|c t]; [discriminate|]. simpl in *.
  apply andb_prop in Hw. destruct Hw as [Hc Ht].
  rewrite (upper_not_lower _ Hc) in Hl. simpl in Hl.
  apply andb_prop in Hv. destruct Hv as [_ Hv].
  rewrite (toLowerCase_noUpper _ Ht), (toUpperCase_hasLower _ Hl) in Hv.
  discriminate.
Qed.

Lemma plainName_segment w : plainName w = true -> isSegment w = true.
Proof. unfold plainName. intro H. now apply andb_prop in H. Qed.

Lemma plainName_noLower w : plainName w = true -> Str.hasLower w = false.
Proof.
  unfold plainName. intro H. apply andb_prop in H.
  now apply negb_true_iff.
Qed.
End NameFacts.

(** *** Resolving side names *)

Section Resolution.
Context {N : Type} {num : Num N}.

Lemma wellNamed_facts (t : Tri N) :
  wellNamed t = true ->
  plainName (Point.name (pt0 t)) = true
  /\ plainName (Point.name (pt1 t)) = true
  /\ plainName (Point.name (pt2 t)) = true
  /\ Point.name (pt0 t) <> Point.name (pt1 t)
  /\ Point.name (pt0 t) <> Point.name (pt2 t)
  /\ Point.name (pt1 t) <> Point.name (pt2 t).
Proof.
  unfold wellNamed. intro H.
  repeat (apply andb_prop in H; destruct H as [H ?]).
  repeat match goal with
         | Q : negb (String.eqb _ _) = true |- _ =>
             apply negb_true_iff in Q; apply String.eqb_neq in Q
         end.
  repeat apply conj; try assumption.
  unfold plainName. rewrite H. assumption.
Qed.

Ltac name_facts t W :=
  let Q0 := fresh "Q0" in let Q1 := fresh "Q1" in let Q2 := fresh "Q2" in
  let D01 := fresh "D01" in let D02 := fresh "D02" in let D12 := fresh "D12" in
  destruct (wellNamed_facts t W) as (Q0 & Q1 & Q2 & D01 & D02 & D12);
  destruct t as [[x0 y0 n0] [x1 y1 n1] [x2 y2 n2]]; simpl in Q0, Q1, Q2, D01, D02, D12;
  assert (E01 : String.eqb n0 n1 = false) by (apply String.eqb_neq; congruence);
  assert (E10 : String.eqb n1 n0 = false) by (apply String.eqb_neq; congruence);
  assert (E02 : String.eqb n0 n2 = false) by (apply String.eqb_neq; congruence);
  assert (E20 : String.eqb n2 n0 = false) by (apply String.eqb_neq; congruence);
  assert (E12 : String.eqb n1 n2 = false) by (apply String.eqb_neq; congruence);
  assert (E21 : String.eqb n2 n1 = false) by (apply String.eqb_neq; congruence).

(** the side opposite a vertex, named by the lower-case letter *)
Lemma resolve_opposite (t : Tri N) (r : ref) :
  wellNamed t = true ->
  getPointsByName t (Str.toLowerCase (Point.name (at_ t r)))
  = Ok (filter (fun q => negb (ref_eqb q r)) refs).
Proof.
  intro W. name_facts t W.
  unfold getPointsByName, getPointsByOppositeVertex.
  destruct r; simpl at_; simpl Point.name;
    match goal with
    | |- context [Str.toLowerCase ?n] =>
        let L := fresh "L" in let U := fresh "U" in
        destruct (plainName_roundtrip n ltac:(assumption)) as [L U]; rewrite L, U
    end;
    unfold refs; simpl;
    rewrite ?String.eqb_refl, ?E01, ?E10, ?E02, ?E20, ?E12, ?E21; reflexivity.
Qed.

(** the side between two vertices, named by its two ends in either order *)
Lemma resolve_adjacent (t : Tri N) (r r' : ref) :
  wellNamed t = true -> ref_eqb r r' = false ->
  getPointsByName t (Point.name (at_ t r) ++ Point.name (at_ t r'))
  = Ok (filter (fun q => ref_eqb q r || ref_eqb q r') refs).
Proof.
  intros W D. name_facts t W.
  unfold getPointsByName, getPointsByAdjacentVertex.
  destruct r, r'; try discriminate; simpl at_; simpl Point.name;
    match goal with
    | |- context [Str.hasLower (?a ++ ?b)] =>
        rewrite hasLower_app, (plainName_noLower a), (plainName_noLower b)
          by assumption;
        simpl orb;
        replace (Str.segments (a ++ b)) with [a; b]
          by (symmetry; rewrite <- (append_empty_str b) at 1;
              change (Str.segments (concatAll [a; b]) = [a; b]);
              apply segments_concat; simpl;
              rewrite (plainName_segment a), (plainName_segment b) by assumption;
              reflexivity)
    end;
    unfold Str.includes, refs; simpl;
    rewrite ?String.eqb_refl, ?E01, ?E10, ?E02, ?E20, ?E12, ?E21; reflexivity.
Qed.
End Resolution.

Section NamesKept.
Context {N : Type} {num : Num N}.

Lemma keepsNames_bind A B (m : M (Tri N) A) (k : A -> M (Tri N) B) :
  keepsNames m -> (forall a, keepsNames (k a)) -> keepsNames (bind m k).
Proof.
  intros Hm Hk s. unfold bind. specialize (Hm s).
  destruct (m s) as [[a|e] s1]; simpl in *; [|exact Hm].
  now rewrite Hk.
Qed.

Lemma keepsNames_setX r v : keepsNames (@setX N r v).
Proof. intros [[] [] []]; destruct r; reflexivity. Qed.

Lemma keepsNames_setY r v : keepsNames (@setY N r v).
Proof. intros [[] [] []]; destruct r; reflexivity. Qed.

Lemma keepsNames_same A (m : M (Tri N) A) : readOnly m -> keepsNames m.
Proof. intros R s. now rewrite R. Qed.

Lemma readOnly_throw A e : readOnly (@throw (Tri N) A e).
Proof. intro s; reflexivity. Qed.

Lemma readOnly_ret A (a : A) : readOnly (@ret (Tri N) A a).
Proof. intro s; reflexivity. Qed.

Ltac keeps :=
  repeat first
    [ apply keepsNames_setX | apply keepsNames_setY
    | apply keepsNames_same;
        first [ apply readOnly_get | apply readOnly_lift | apply readOnly_deref
              | apply readOnly_throw | apply readOnly_ret ]
    | (apply keepsNames_bind; [| intro])
    | match goal with
      | |- keepsNames (if ?b then _ else _) => destruct b
      | |- keepsNames (let '(_, _) := ?p in _) => destruct p
      | |- keepsNames (match ?x with _ => _ end) => destruct x
      end ].

Context {numstr : NumToString N}.

Lemma keepsNames_setSideLength sides : keepsNames (setSideLength sides).
Proof.
  unfold setSideLength, setOneSideLength, setTwoSidesLength, setAllSidesLength.
  keeps.
Qed.
End NamesKept.

Section MoreClosedForms.
Context {N : Type} {num : Num N} {trig : Trig N}.
Local Open Scope num_scope.

Lemma rotate_rotatedAbout angle (t : Tri N) :
  rotate angle t
  = (Ok tt,
     mkTri (rotatedAbout (centroidX t) (centroidY t) (angle * Math_PI / lit 180) (pt0 t))
           (rotatedAbout (centroidX t) (centroidY t) (angle * Math_PI / lit 180) (pt1 t))
           (rotatedAbout (centroidX t) (centroidY t) (angle * Math_PI / lit 180) (pt2 t))).
Proof. destruct t as [[] [] []]. reflexivity. Qed.

Lemma fromSAS_placed length1 angle length2 name A B C :
  (angle <=? lit 0) || (angle >=? lit 180) = false ->
  (length1 <=? lit 0) || (length2 <=? lit 0) = false ->
  Str.segments name = [A; B; C] ->
  fromSAS length1 angle length2 name
  = Ok (translated (fst (margin (placedSAS length1 angle length2 A B C)))
                   (snd (margin (placedSAS length1 angle length2 A B C)))
                   (placedSAS length1 angle length2 A B C)).
Proof.
  intros H1 H2 H3. unfold fromSAS.
  rewrite (createDefault_segments _ H3), H1, H2.
  unfold returning.
  match goal with
  | |- context [(bind ?a ?b) ?t] =>
      replace ((bind a b) t)
        with (moveToMargin (placedSAS length1 angle length2 A B C))
        by reflexivity
  end.
  rewrite moveToMargin_translated. reflexivity.
Qed.
End MoreClosedForms.

Section Generic.
Context {N : Type} {num : Num N}.
Local Open Scope string_scope.

(** X1.  Both ways of naming a side reach the same two points *)
Theorem side_names_agree (t : Tri N) :
  wellNamed t = true ->
  let n r := Point.name (at_ t r) in
  (getSideLength t (n P1 ++ n P2) = Ok (sideLength (pt1 t) (pt2 t))
   /\ getSideLength t (n P2 ++ n P1) = Ok (sideLength (pt1 t) (pt2 t))
   /\ getSideLength t (Str.toLowerCase (n P0)) = Ok (sideLength (pt1 t) (pt2 t)))
  /\ (getSideLength t (n P0 ++ n P2) = Ok (sideLength (pt0 t) (pt2 t))
      /\ getSideLength t (n P2 ++ n P0) = Ok (sideLength (pt0 t) (pt2 t))
      /\ getSideLength t (Str.toLowerCase (n P1)) = Ok (sideLength (pt0 t) (pt2 t)))
  /\ (getSideLength t (n P0 ++ n P1) = Ok (sideLength (pt0 t) (pt1 t))
      /\ getSideLength t (n P1 ++ n P0) = Ok (sideLength (pt0 t) (pt1 t))
      /\ getSideLength t (Str.toLowerCase (n P2)) = Ok (sideLength (pt0 t) (pt1 t))).
Proof.
  intros W n. unfold n, getSideLength.
  rewrite !(resolve_opposite t _ W).
  rewrite (resolve_adjacent t P1 P2 W eq_refl), (resolve_adjacent t P2 P1 W eq_refl),
    (resolve_adjacent t P0 P2 W eq_refl), (resolve_adjacent t P2 P0 W eq_refl),
    (resolve_adjacent t P0 P1 W eq_refl), (resolve_adjacent t P1 P0 W eq_refl).
  repeat apply conj; reflexivity.
Qed.

(** X2.  The constructor reads the capital-led segments only: joining the
    names it gave and parsing again yields the same vertices *)
Theorem constructor_reparses_its_names (name A B C : string) :
  Str.segments name = [A; B; C] ->
  createDefaultTrianglePoints (N := N) (A ++ B ++ C)
  = createDefaultTrianglePoints name.
Proof.
  intro H. unfold createDefaultTrianglePoints. rewrite H.
  pose proof (segments_shape name) as S. rewrite H in S.
  rewrite <- (append_empty_str C) at 1.
  change (A ++ B ++ C ++ "") with (concatAll [A; B; C]).
  now rewrite (segments_concat _ S).
Qed.
End Generic.

Section GenericEdges.
Context {N : Type} {num : Num N} {numstr : NumToString N}.
Local Open Scope string_scope.

Lemma oref_eqb_refl p : oref_eqb p p = true.
Proof. destruct p as [[]|]; reflexivity. Qed.

Lemma checkAndMergeFrom_throws (t : Tri N) sides : forall options k v e0,
  In (k, v) sides -> getPointsByName t k = Throw e0 ->
  exists e, checkAndMergeFrom t sides options = Throw e.
Proof.
  induction sides as [|[k' v'] rest IH]; simpl; intros options k v e0 Hin Hk.
  - contradiction.
  - destruct (getPointsByName t k') as [l|e1] eqn:G; [|eauto].
    destruct Hin as [E|Hin]; [inversion E; subst; congruence|].
    destruct (find _ options).
    + destruct (negb _); eauto.
    + eauto.
Qed.

Lemma setSideLength_bad_entry (t : Tri N) sides e :
  checkAndMergeFrom t sides [] = Throw e ->
  setSideLength sides t = (Throw e, t).
Proof.
  intro H. unfold setSideLength, bind at 1, get at 1, bind at 1, lift at 1.
  unfold checkAndMergeSides. now rewrite H.
Qed.

Lemma putKey_has (obj : list (string * N)) k v :
  exists v', In (k, v') (putKey obj k v).
Proof.
  induction obj as [|[k' w] r IH]; simpl.
  - eauto.
  - destruct (String.eqb_spec k' k) as [->|D].
    + exists v. now left.
    + destruct IH as [v' H]. exists v'. now right.
Qed.

Lemma putKey_keeps (obj : list (string * N)) k v k0 v0 :
  In (k0, v0) obj -> exists v', In (k0, v') (putKey obj k v).
Proof.
  induction obj as [|[k' w] r IH]; simpl; [contradiction|].
  intros [E|H].
  - inversion E; subst. destruct (String.eqb k0 k); eexists; left; reflexivity.
  - destruct (IH H) as [v' H']. destruct (String.eqb k' k); eexists; right; eauto.
Qed.

Lemma lowered_not_resolved (t : Tri N) (r : ref) :
  forallb isSegment (names t) = true ->
  Str.hasLower (Point.name (at_ t r)) = true ->
  getPointsByName t (Str.toLowerCase (Point.name (at_ t r)))
  = Throw VertexDoesNotExist.
Proof.
  intros S L. unfold names in S. simpl in S.
  apply andb_prop in S. destruct S as [S0 S].
  apply andb_prop in S. destruct S as [S1 S].
  apply andb_prop in S. destruct S as [S2 _].
  assert (Sr : isSegment (Point.name (at_ t r)) = true) by (destruct r; assumption).
  unfold getPointsByName, getPointsByOppositeVertex.
  assert (HL : Str.hasLower (Str.toLowerCase (Point.name (at_ t r))) = true).
  { destruct (Point.name (at_ t r)) as [|c w]; [discriminate|]. simpl in *.
    apply andb_prop in Sr. destruct Sr as [Hc _].
    now rewrite (proj1 (lowChar_upper _ Hc)). }
  rewrite HL. unfold refs; simpl.
  rewrite (lowered_segment_not_found _ _ Sr L S0),
    (lowered_segment_not_found _ _ Sr L S1),
    (lowered_segment_not_found _ _ Sr L S2).
  reflexivity.
Qed.

(** X3.  A vertex name with a lower-case letter cannot be addressed, and
    [fromSSS] on such a name never returns a triangle *)
Theorem fromSSS_lowercase_name_fails (length1 length2 length3 : N)
        (name A B C : string) :
  Str.segments name = [A; B; C] ->
  Str.hasLower A || Str.hasLower B || Str.hasLower C = true ->
  exists e, fromSSS length1 length2 length3 name = Throw e.
Proof.
  intros Hn Hl. unfold fromSSS. rewrite (createDefault_segments _ Hn).
  set (t := mkTri (Point.mk (lit 70) (lit 20) A) (Point.mk (lit 20) (lit 120) B)
                  (Point.mk (lit 120) (lit 120) C)).
  assert (S : forallb isSegment (names t) = true).
  { pose proof (segments_shape name) as S. now rewrite Hn in S. }
  assert (R : exists r, Str.hasLower (Point.name (at_ t r)) = true).
  { apply orb_prop in Hl. destruct Hl as [Hl|Hl].
    - apply orb_prop in Hl. destruct Hl; [exists P0 | exists P1]; assumption.
    - exists P2; assumption. }
  destruct R as [r Hr].
  pose proof (lowered_not_resolved t r S Hr) as Hk.
  set (sides := putKey (putKey (putKey [] (Str.toLowerCase A) length1)
                               (Str.toLowerCase B) length2)
                       (Str.toLowerCase C) length3).
  assert (Hin : exists v, In (Str.toLowerCase (Point.name (at_ t r)), v) sides).
  { unfold sides. destruct r; simpl at_; simpl Point.name.
    - destruct (putKey_has [] (Str.toLowerCase A) length1) as [v0 H0].
      destruct (putKey_keeps _ (Str.toLowerCase B) length2 _ _ H0) as [v1 H1].
      exact (putKey_keeps _ _ length3 _ _ H1).
    - destruct (putKey_has (putKey [] (Str.toLowerCase A) length1)
                  (Str.toLowerCase B) length2) as [v1 H1].
      exact (putKey_keeps _ _ length3 _ _ H1).
    - apply putKey_has. }
  destruct Hin as [v Hin].
  destruct (checkAndMergeFrom_throws t sides [] _ _ Hin Hk) as [e He].
  exists e. unfold returning, bind at 1, get at 1.
  unfold bind at 1.
  change (setSideLength _ t) with (setSideLength sides t).
  now rewrite (setSideLength_bad_entry t sides He).
Qed.

(** X4.  Two entries that name the same edge: with different lengths the call
    throws the conflict and writes nothing; with equal lengths it is the
    call with the first entry alone *)
Theorem setSideLength_same_edge_twice (t : Tri N) (k1 k2 : string) (v1 v2 : N)
        (l : list ref) :
  getPointsByName t k1 = Ok l -> getPointsByName t k2 = Ok l ->
  setSideLength [(k1, v1); (k2, v2)] t
  = if eqb v1 v2 then setSideLength [(k1, v1)] t
    else (Throw ConflictLengths, t).
Proof.
  intros H1 H2.
  assert (E1 : checkAndMergeFrom t [(k1, v1)] []
               = Ok [mkOption k1 v1 (nth_error l 0) (nth_error l 1)])
    by (simpl; now rewrite H1).
  assert (E2 : checkAndMergeFrom t [(k1, v1); (k2, v2)] []
               = if eqb v1 v2
                 then Ok [mkOption k1 v1 (nth_error l 0) (nth_error l 1)]
                 else Throw ConflictLengths).
  { simpl. rewrite H1, H2. simpl. unfold samePair; simpl.
    rewrite !oref_eqb_refl. simpl. destruct (eqb v1 v2); reflexivity. }
  unfold setSideLength, bind, get, lift, checkAndMergeSides.
  rewrite E1, E2. destruct (eqb v1 v2); reflexivity.
Qed.
End GenericEdges.

Section GenericMore.
Context {N : Type} {num : Num N}.
Local Open Scope string_scope.

Lemma segmentsFrom_length s : forall cur,
  List.length (Str.segmentsFrom cur s)
  = (countUpper s + match cur with Some _ => 1 | None => 0 end)%nat.
Proof.
  induction s as [|c r IH]; simpl; intro cur.
  - destruct cur; reflexivity.
  - destruct (Str.isUpper c).
    + destruct cur; simpl; rewrite IH; lia.
    + destruct cur; rewrite IH; reflexivity.
Qed.

Lemma segments_length s : List.length (Str.segments s) = countUpper s.
Proof. unfold Str.segments. rewrite segmentsFrom_length. lia. Qed.

(** X5.  The constructor accepts a name exactly when it has three capitals *)
Theorem constructor_accepts_three_capitals (name : string) :
  (countUpper name = 3%nat ->
   exists A B C,
     Str.segments name = [A; B; C]
     /\ createDefaultTrianglePoints (N := N) name
        = Ok (mkTri (Point.mk (lit 70) (lit 20) A)
                    (Point.mk (lit 20) (lit 120) B)
                    (Point.mk (lit 120) (lit 120) C)))
  /\ (countUpper name <> 3%nat ->
      createDefaultTrianglePoints (N := N) name = Throw InvalidTriangleName).
Proof.
  unfold createDefaultTrianglePoints. rewrite <- segments_length.
  destruct (Str.segments name) as [|A [|B [|C [|D l]]]]; simpl; split;
    try discriminate; try reflexivity; try (intro H; now elim H).
  intros _. exists A, B, C. split; reflexivity.
Qed.

Lemma find_name (t : Tri N) (r : ref) :
  NoDup (names t) ->
  find (fun q => String.eqb (Point.name (at_ t q)) (Point.name (at_ t r))) refs
  = Some r.
Proof.
  intro D. unfold names in D.
  inversion D as [|? ? H0 D1]; subst. inversion D1 as [|? ? H1 D2]; subst.
  simpl in H0, H1.
  assert (E01 : String.eqb (Point.name (pt0 t)) (Point.name (pt1 t)) = false)
    by (apply String.eqb_neq; intro Q; apply H0; left; now rewrite Q).
  assert (E02 : String.eqb (Point.name (pt0 t)) (Point.name (pt2 t)) = false)
    by (apply String.eqb_neq; intro Q; apply H0; right; left; now rewrite Q).
  assert (E12 : String.eqb (Point.name (pt1 t)) (Point.name (pt2 t)) = false)
    by (apply String.eqb_neq; intro Q; apply H1; left; now rewrite Q).
  destruct r; unfold refs; simpl;
    rewrite ?String.eqb_refl, ?E01, ?E02, ?E12; reflexivity.
Qed.

(** X6.  [movePoint] moves the vertex it names and no other *)
Theorem movePoint_moves_only_named (t : Tri N) (r : ref) (deltaX deltaY : N) :
  NoDup (names t) ->
  movePoint (Point.name (at_ t r)) deltaX deltaY t
  = (Ok tt, update t r (shifted deltaX deltaY (at_ t r))).
Proof.
  intro D. unfold movePoint, bind at 1, get at 1.
  rewrite (@find_name t r D).
  destruct t as [[] [] []]; destruct r; reflexivity.
Qed.

(** X7.  Side names that do not name two different vertices are refused *)
Theorem getSideLength_refuses_malformed (t : Tri N) :
  wellNamed t = true ->
  let n r := Point.name (at_ t r) in
  (forall r, getSideLength t (n r ++ n r) = Throw VerticesDoNotMatch)
  /\ (forall r, getSideLength t (n r) = Throw ExpectedTwoVertices)
  /\ getSideLength t (n P0 ++ n P1 ++ n P2) = Throw ExpectedTwoVertices
  /\ getSideLength t "" = Throw ExpectedTwoVertices.
Proof.
  intros W n.
  destruct (wellNamed_facts t W) as (Q0 & Q1 & Q2 & D01 & D02 & D12).
  assert (Q : forall r, plainName (n r) = true) by (intros []; assumption).
  assert (E01 : String.eqb (n P0) (n P1) = false) by (apply String.eqb_neq; exact D01).
  assert (E10 : String.eqb (n P1) (n P0) = false)
    by (apply String.eqb_neq; unfold n; simpl; congruence).
  assert (E02 : String.eqb (n P0) (n P2) = false) by (apply String.eqb_neq; exact D02).
  assert (E20 : String.eqb (n P2) (n P0) = false)
    by (apply String.eqb_neq; unfold n; simpl; congruence).
  assert (E12 : String.eqb (n P1) (n P2) = false) by (apply String.eqb_neq; exact D12).
  assert (E21 : String.eqb (n P2) (n P1) = false)
    by (apply String.eqb_neq; unfold n; simpl; congruence).
  assert (S2 : forall a b, plainName a = true -> plainName b = true ->
               Str.segments (a ++ b) = [a; b]).
  { intros a b Ha Hb. rewrite <- (append_empty_str b) at 1.
    change (Str.segments (concatAll [a; b]) = [a; b]).
    apply segments_concat. simpl.
    now rewrite (plainName_segment _ Ha), (plainName_segment _ Hb). }
  assert (S1 : forall a, plainName a = true -> Str.segments a = [a]).
  { intros a Ha. rewrite <- (append_empty_str a) at 1.
    change (Str.segments (concatAll [a]) = [a]).
    apply segments_concat. simpl. now rewrite (plainName_segment _ Ha). }
  assert (S3 : Str.segments (n P0 ++ n P1 ++ n P2) = [n P0; n P1; n P2]).
  { rewrite <- (append_empty_str (n P2)) at 1.
    change (Str.segments (concatAll [n P0; n P1; n P2]) = [n P0; n P1; n P2]).
    apply segments_concat. simpl.
    now rewrite !plainName_segment by apply Q. }
  unfold getSideLength, getPointsByName, getPointsByAdjacentVertex.
  repeat apply conj.
  - intro r. rewrite hasLower_app, (plainName_noLower _ (Q r)). simpl orb.
    rewrite (S2 _ _ (Q r) (Q r)). unfold Str.includes, refs.
    cbn [filter existsb List.length Nat.eqb negb]. fold (n P0) (n P1) (n P2).
    destruct r; rewrite ?String.eqb_refl, ?E01, ?E10, ?E02, ?E20, ?E12, ?E21;
      reflexivity.
  - intro r. rewrite (plainName_noLower _ (Q r)), (S1 _ (Q r)). reflexivity.
  - rewrite !hasLower_app, !plainName_noLower by apply Q. simpl orb.
    rewrite S3. reflexivity.
  - reflexivity.
Qed.
End GenericMore.

Section NamesStay.
Context {N : Type} {num : Num N} {numstr : NumToString N} {trig : Trig N}.

Ltac keeps :=
  repeat first
    [ apply keepsNames_setX | apply keepsNames_setY
    | apply keepsNames_same;
        first [ apply readOnly_get | apply readOnly_lift | apply readOnly_deref
              | apply readOnly_throw | apply readOnly_ret ]
    | (apply keepsNames_bind; [| intro])
    | match goal with
      | |- keepsNames (if ?b then _ else _) => destruct b
      | |- keepsNames (let '(_, _) := ?p in _) => destruct p
      | |- keepsNames (match ?x with _ => _ end) => destruct x
      end ].

(** X8.  No operation renames a vertex, whether it returns or throws *)
Theorem operations_keep_vertex_names (t : Tri N) :
  (forall sides, names (snd (setSideLength sides t)) = names t)
  /\ (forall name deltaX deltaY,
        names (snd (movePoint name deltaX deltaY t)) = names t)
  /\ (forall deltaX deltaY, names (snd (move deltaX deltaY t)) = names t)
  /\ (forall factor, names (snd (scale factor t)) = names t)
  /\ (forall angle, names (snd (rotate angle t)) = names t)
  /\ (forall line, names (snd (flip line t)) = names t).
Proof.
  repeat apply conj; intros.
  - apply keepsNames_setSideLength.
  - revert t. change (keepsNames (movePoint name deltaX deltaY)).
    unfold movePoint, shiftPoint. keeps.
  - revert t. change (keepsNames (move deltaX deltaY)).
    unfold move, forEachPoint, shiftPoint. keeps.
  - revert t. change (keepsNames (scale factor)).
    unfold scale, forEachPoint. keeps.
  - revert t. change (keepsNames (rotate angle)).
    unfold rotate, forEachPoint. keeps.
  - revert t. change (keepsNames (flip line)).
    unfold flip, forEachPoint. keeps.
Qed.
End NamesStay.

Section EdgeFrames.
Context {N : Type} {num : Num N} {numstr : NumToString N}.

Lemma resolved_pair (t : Tri N) k p1 p2 :
  getPointsByName t k = Ok [p1; p2] ->
  (p1, p2) = (P0, P1) \/ (p1, p2) = (P0, P2) \/ (p1, p2) = (P1, P2).
Proof.
  intro G. destruct (getPointsByName_keep _ _ G) as (a & b & c & _ & E).
  destruct a, b, c; cbv in E; inversion E; auto.
Qed.

Lemma setSideLength_one (t : Tri N) k v l :
  getPointsByName t k = Ok l ->
  setSideLength [(k, v)] t
  = setOneSideLength (mkOption k v (nth_error l 0) (nth_error l 1)) t.
Proof.
  intro G. unfold setSideLength, bind at 1, get at 1, bind at 1, lift at 1.
  unfold checkAndMergeSides. simpl. now rewrite G.
Qed.

Ltac run H :=
  repeat match type of H with
         | (Throw _, _) = (Ok _, _) => discriminate H
         | context [match ?x with _ => _ end] =>
             match x with
             | getSideLength _ _ => destruct x eqn:?
             | alcutePoint _ _ _ => destruct x eqn:?
             | rejected _ _ _ => destruct x eqn:?
             | (_ >? _)%num => destruct x eqn:?
             | ltb _ _ => destruct x eqn:?
             end; cbn [fst snd] in H
         end.

(** X9.  Setting one edge leaves one end of that edge where it was *)
Theorem setSideLength_one_edge_keeps_an_end (t t' : Tri N) k v p1 p2 :
  getPointsByName t k = Ok [p1; p2] ->
  setSideLength [(k, v)] t = (Ok tt, t') ->
  at_ t' p1 = at_ t p1 \/ at_ t' p2 = at_ t p2.
Proof.
  intros G H. rewrite (setSideLength_one t k v G) in H.
  pose proof (resolved_pair t k G) as C. clear G.
  destruct t as [[x0 y0 n0] [x1 y1 n1] [x2 y2 n2]].
  unfold setOneSideLength in H.
  destruct C as [C|[C|C]]; inversion C; subst; clear C;
    cbn [nth_error op1 op2 olength deref bind get ret lift at_ pt0 pt1 pt2
         Point.x Point.y Point.name] in H;
    run H; unfold sortBy in H; cbn [fold_left insertSorted] in H;
    run H.
  all: cbn in H; run H; inversion H; subst; cbn; auto.
Qed.

Lemma setSideLength_two (t : Tri N) k0 v0 k1 v1 a b c d :
  getPointsByName t k0 = Ok [a; b] -> getPointsByName t k1 = Ok [c; d] ->
  [a; b] <> [c; d] ->
  setSideLength [(k0, v0); (k1, v1)] t
  = setTwoSidesLength (mkOption k0 v0 (Some a) (Some b))
                      (mkOption k1 v1 (Some c) (Some d)) t.
Proof.
  intros G0 G1 D.
  pose proof (resolved_pair t k0 G0) as C0.
  pose proof (resolved_pair t k1 G1) as C1.
  unfold setSideLength, bind at 1, get at 1, bind at 1, lift at 1.
  unfold checkAndMergeSides. simpl. rewrite G0, G1. simpl.
  destruct C0 as [C0|[C0|C0]]; inversion C0; subst;
    destruct C1 as [C1|[C1|C1]]; inversion C1; subst;
    try (now elim D); reflexivity.
Qed.

Ltac fin :=
  cbn; repeat apply conj; auto; intros [] Q; try reflexivity; now elim Q.

(** X10.  Setting two edges moves the vertex they share and no other *)
Theorem setSideLength_two_edges_move_shared_vertex
        (t t' : Tri N) k0 v0 k1 v1 a b c d :
  getPointsByName t k0 = Ok [a; b] -> getPointsByName t k1 = Ok [c; d] ->
  [a; b] <> [c; d] ->
  setSideLength [(k0, v0); (k1, v1)] t = (Ok tt, t') ->
  exists pv, In pv [a; b] /\ In pv [c; d]
             /\ forall q, q <> pv -> at_ t' q = at_ t q.
Proof.
  intros G0 G1 D H. rewrite (setSideLength_two t k0 v0 k1 v1 G0 G1 D) in H.
  pose proof (resolved_pair t k0 G0) as C0.
  pose proof (resolved_pair t k1 G1) as C1. clear G0 G1.
  destruct t as [[x0 y0 n0] [x1 y1 n1] [x2 y2 n2]].
  unfold setTwoSidesLength in H.
  destruct C0 as [C0|[C0|C0]]; inversion C0; subst; clear C0;
    destruct C1 as [C1|[C1|C1]]; inversion C1; subst; clear C1;
    try (now elim D);
    cbn [nth_error op1 op2 olength deref bind get ret lift at_ pt0 pt1 pt2
         Point.x Point.y Point.name oref_eqb ref_eqb orb] in H;
    run H; cbn in H; run H; inversion H; subst.
  all: first [ solve [exists P0; fin] | solve [exists P1; fin]
             | solve [exists P2; fin] ].
Qed.
End EdgeFrames.

(** ** The transforms in exact arithmetic *)

Ltac to_R :=
  change (@add R R_Num) with Rplus in *;
  change (@sub R R_Num) with Rminus in *;
  change (@mul R R_Num) with Rmult in *;
  change (@div R R_Num) with Rdiv in *;
  change (@lit R R_Num) with IZR in *;
  change (@Math_sqrt R R_Num) with sqrt in *;
  change (@Math_cos R R_Trig) with cos in *;
  change (@Math_sin R R_Trig) with sin in *;
  change (@Math_PI R R_Trig) with PI in *.

Section ExactTransforms.
Local Open Scope R_scope.

Lemma triple_eq (a a' b b' c c' : R) :
  a = a' -> b = b' -> c = c' -> (a, b, c) = (a', b', c').
Proof. intros; subst; reflexivity. Qed.

Lemma sqrt_eq (a b : R) : a = b -> sqrt a = sqrt b.
Proof. now intros ->. Qed.

Lemma sum_sq_nonneg (a b : R) : 0 <= a * a + b * b.
Proof. nra. Qed.

Lemma sideLength_R (p q : Point.t R) :
  sideLength p q
  = sqrt ((Point.x q - Point.x p) * (Point.x q - Point.x p)
          + (Point.y q - Point.y p) * (Point.y q - Point.y p)).
Proof. reflexivity. Qed.

Lemma sideLength_sym (p q : Point.t R) : sideLength p q = sideLength q p.
Proof. rewrite !sideLength_R. f_equal. ring. Qed.

Lemma sideLength_pos (p q : Point.t R) : 0 <= sideLength p q.
Proof. rewrite sideLength_R. apply sqrt_pos. Qed.

Lemma sideLength_sqr (p q : Point.t R) :
  sideLength p q * sideLength p q
  = (Point.x q - Point.x p) * (Point.x q - Point.x p)
    + (Point.y q - Point.y p) * (Point.y q - Point.y p).
Proof. rewrite sideLength_R. apply sqrt_sqrt. apply sum_sq_nonneg. Qed.

Lemma sqrt_scaled (k u : R) : 0 <= u -> sqrt (k * k * u) = Rabs k * sqrt u.
Proof.
  intro Hu. rewrite sqrt_mult; [| nra | exact Hu].
  f_equal. replace (k * k) with (Rsqr k) by reflexivity. apply sqrt_Rsqr_abs.
Qed.

(** X11.  [move] is a translation: it keeps the three lengths and the
    orientation, two moves add up, and the opposite move undoes it *)
Theorem move_is_rigid (deltaX deltaY : R) (t : Tri R) :
  let t' := snd (move deltaX deltaY t) in
  lengths t' = lengths t
  /\ sideCross (pt0 t') (pt1 t') (pt2 t') = sideCross (pt0 t) (pt1 t) (pt2 t)
  /\ (forall deltaX' deltaY',
        snd (move deltaX' deltaY' t')
        = snd (move (deltaX + deltaX') (deltaY + deltaY') t))
  /\ snd (move (- deltaX) (- deltaY) t') = t.
Proof.
  intro t'. unfold t'. rewrite move_translated. cbn [snd].
  destruct t as [[x0 y0 n0] [x1 y1 n1] [x2 y2 n2]].
  repeat apply conj.
  - unfold lengths, translated. cbn [pt0 pt1 pt2]. rewrite !sideLength_R. simpl.
    to_R. apply triple_eq; apply sqrt_eq; ring.
  - unfold sideCross, translated; simpl. to_R. ring.
  - intros dX dY. rewrite !move_translated. cbn [snd].
    unfold translated; simpl. to_R. apply tri_eq; ring.
  - rewrite move_translated. cbn [snd]. unfold translated; simpl. to_R.
    apply tri_eq; ring.
Qed.

Lemma cos_sin_one (a : R) : cos a * cos a + sin a * sin a = 1.
Proof. pose proof (sin2_cos2 a) as H. unfold Rsqr in H. lra. Qed.

(** X12.  [rotate] turns the triangle about its centroid: lengths,
    orientation and centroid stay *)
Theorem rotate_is_rigid (angle : R) (t : Tri R) :
  let t' := snd (rotate angle t) in
  lengths t' = lengths t
  /\ sideCross (pt0 t') (pt1 t') (pt2 t') = sideCross (pt0 t) (pt1 t) (pt2 t)
  /\ centroidX t' = centroidX t /\ centroidY t' = centroidY t.
Proof.
  intro t'. unfold t'. rewrite rotate_rotatedAbout. cbn [snd].
  destruct t as [[x0 y0 n0] [x1 y1 n1] [x2 y2 n2]].
  unfold centroidX, centroidY, rotatedAbout. cbn [pt0 pt1 pt2 Point.x Point.y Point.name].
  to_R.
  set (r := angle * PI / 180).
  pose proof (cos_sin_one r) as E.
  set (c := cos r) in *. set (s := sin r) in *.
  set (cx := (x0 + x1 + x2) / 3). set (cy := (y0 + y1 + y2) / 3).
  assert (L : forall xa ya xb yb,
    (cx + (xb - cx) * c - (yb - cy) * s - (cx + (xa - cx) * c - (ya - cy) * s))
    * (cx + (xb - cx) * c - (yb - cy) * s - (cx + (xa - cx) * c - (ya - cy) * s))
    + (cy + (xb - cx) * s + (yb - cy) * c - (cy + (xa - cx) * s + (ya - cy) * c))
      * (cy + (xb - cx) * s + (yb - cy) * c - (cy + (xa - cx) * s + (ya - cy) * c))
    = (xb - xa) * (xb - xa) + (yb - ya) * (yb - ya)).
  { intros. transitivity (((xb - xa) * (xb - xa) + (yb - ya) * (yb - ya))
                          * (c * c + s * s)); [ring | rewrite E; ring]. }
  repeat apply conj.
  - unfold lengths. cbn [pt0 pt1 pt2]. rewrite !sideLength_R. simpl.
    apply triple_eq; apply sqrt_eq; apply L.
  - unfold sideCross; simpl.
    transitivity (((x1 - x0) * (y2 - y0) - (y1 - y0) * (x2 - x0)) * (c * c + s * s));
      [ring | rewrite E; ring].
  - unfold cx, cy. field.
  - unfold cx, cy. field.
Qed.

(** X13.  Two rotations add their angles, and a full turn changes nothing *)
Theorem rotate_composes (angle angle' : R) (t : Tri R) :
  snd (rotate angle' (snd (rotate angle t))) = snd (rotate (angle + angle') t)
  /\ snd (rotate 360 t) = t
  /\ snd (rotate 0 t) = t.
Proof.
  rewrite !rotate_rotatedAbout. cbn [snd].
  destruct t as [[x0 y0 n0] [x1 y1 n1] [x2 y2 n2]].
  unfold centroidX, centroidY, rotatedAbout. cbn [pt0 pt1 pt2 Point.x Point.y Point.name].
  to_R.
  repeat apply conj.
  - replace ((angle + angle') * PI / 180)
      with (angle * PI / 180 + angle' * PI / 180) by field.
    rewrite cos_plus, sin_plus.
    set (c := cos (angle * PI / 180)). set (s := sin (angle * PI / 180)).
    set (c' := cos (angle' * PI / 180)). set (s' := sin (angle' * PI / 180)).
    apply tri_eq; field.
  - replace (360 * PI / 180) with (2 * PI) by field.
    rewrite cos_2PI, sin_2PI. apply tri_eq; field.
  - replace (0 * PI / 180) with 0 by field.
    rewrite cos_0, sin_0. apply tri_eq; field.
Qed.

(** X14.  [flip] across a line with [a] and [b] not both zero is a
    reflection: doing it twice restores the triangle, the lengths stay and
    the orientation is reversed *)
Theorem flip_is_an_involution (line : Line R) (t : Tri R) :
  la line * la line + lb line * lb line <> 0 ->
  let t' := snd (flip line t) in
  snd (flip line t') = t
  /\ lengths t' = lengths t
  /\ sideCross (pt0 t') (pt1 t') (pt2 t') = - sideCross (pt0 t) (pt1 t) (pt2 t).
Proof.
  intros Hd t'. unfold t'. rewrite !flip_reflected. cbn [snd].
  destruct t as [[x0 y0 n0] [x1 y1 n1] [x2 y2 n2]].
  destruct line as [a b c]. simpl in Hd.
  unfold reflected. cbn [pt0 pt1 pt2 Point.x Point.y Point.name la lb lc].
  to_R.
  repeat apply conj.
  - apply tri_eq; field; exact Hd.
  - unfold lengths. cbn [pt0 pt1 pt2]. rewrite !sideLength_R. simpl.
    apply triple_eq; apply sqrt_eq; field; exact Hd.
  - unfold sideCross; simpl. field; exact Hd.
Qed.

(** X15.  [scale] keeps the centroid and multiplies every length by
    [|factor - 1|] *)
Theorem scale_multiplies_lengths (factor : R) (t : Tri R) :
  let t' := snd (scale factor t) in
  centroidX t' = centroidX t /\ centroidY t' = centroidY t
  /\ sideLength (pt1 t') (pt2 t') = Rabs (factor - 1) * sideLength (pt1 t) (pt2 t)
  /\ sideLength (pt0 t') (pt2 t') = Rabs (factor - 1) * sideLength (pt0 t) (pt2 t)
  /\ sideLength (pt0 t') (pt1 t') = Rabs (factor - 1) * sideLength (pt0 t) (pt1 t).
Proof.
  intro t'. unfold t'. rewrite scale_scaledAbout. cbn [snd].
  destruct t as [[x0 y0 n0] [x1 y1 n1] [x2 y2 n2]].
  unfold centroidX, centroidY, scaledAbout. cbn [pt0 pt1 pt2 Point.x Point.y Point.name].
  to_R.
  set (cx := (x0 + x1 + x2) / 3). set (cy := (y0 + y1 + y2) / 3).
  repeat apply conj.
  - unfold cx, cy. field.
  - unfold cx, cy. field.
  - rewrite !sideLength_R. simpl. rewrite <- sqrt_scaled by apply sum_sq_nonneg. apply sqrt_eq. ring.
  - rewrite !sideLength_R. simpl. rewrite <- sqrt_scaled by apply sum_sq_nonneg. apply sqrt_eq. ring.
  - rewrite !sideLength_R. simpl. rewrite <- sqrt_scaled by apply sum_sq_nonneg. apply sqrt_eq. ring.
Qed.
End ExactTransforms.

(** ** Labels in exact arithmetic *)

Section ExactLabels.
Local Open Scope R_scope.

Lemma atLeast7_spec (v : R) :
  7 <= atLeast7 v /\ (7 <= v -> atLeast7 v = v).
Proof.
  unfold atLeast7. cbv [ltb lit R_Num]. unfold Rltb.
  destruct (Rlt_dec v 7); split; lra.
Qed.

(** X16.  A label is never placed left of or above 7; unless that bound moves
    it, it lies at distance [distance] from the end point, straight on from
    the start point *)
Theorem calculatePoint_exact (start end_ : R * R) (distance : R) :
  let vx := fst end_ - fst start in
  let vy := snd end_ - snd start in
  let length := sqrt (vx * vx + vy * vy) in
  let p := calculatePoint start end_ distance in
  (7 <= fst p /\ 7 <= snd p)
  /\ (0 < length -> 0 <= distance ->
      7 <= fst end_ + vx / length * distance ->
      7 <= snd end_ + vy / length * distance ->
      fst p - fst end_ = distance / length * vx
      /\ snd p - snd end_ = distance / length * vy
      /\ sqrt ((fst p - fst end_) * (fst p - fst end_)
               + (snd p - snd end_) * (snd p - snd end_)) = distance).
Proof.
  intros vx vy length p. unfold p, calculatePoint. cbn [fst snd]. to_R.
  fold vx vy. fold length.
  split.
  - split; apply atLeast7_spec.
  - intros Hl Hd Hx Hy.
    rewrite (proj2 (atLeast7_spec _) Hx), (proj2 (atLeast7_spec _) Hy).
    assert (E : length * length = vx * vx + vy * vy)
      by (apply sqrt_sqrt, sum_sq_nonneg).
    split; [field; lra | split; [field; lra|]].
    replace (_ + _)
      with (distance * distance * ((vx * vx + vy * vy) / (length * length)))
      by (field; lra).
    rewrite <- E.
    replace (distance * distance * (length * length / (length * length)))
      with (distance * distance) by (field; lra).
    now apply sqrt_square.
Qed.
End ExactLabels.

Section ExactMargin.
Local Open Scope R_scope.

Lemma lengths_translated (deltaX deltaY : R) (t : Tri R) :
  lengths (translated deltaX deltaY t) = lengths t.
Proof.
  destruct t as [[x0 y0 n0] [x1 y1 n1] [x2 y2 n2]].
  unfold lengths, translated. cbn [pt0 pt1 pt2]. rewrite !sideLength_R. simpl.
  to_R. apply triple_eq; apply sqrt_eq; ring.
Qed.

Lemma sideCross_translated (deltaX deltaY : R) (t : Tri R) :
  sideCross (pt1 (translated deltaX deltaY t)) (pt2 (translated deltaX deltaY t))
            (pt0 (translated deltaX deltaY t))
  = sideCross (pt1 t) (pt2 t) (pt0 t).
Proof.
  destruct t as [[x0 y0 n0] [x1 y1 n1] [x2 y2 n2]].
  unfold sideCross, translated; simpl. to_R. ring.
Qed.

Lemma pick_max (d v : R) :
  d <= (if Rltb d v then v else d) /\ v <= (if Rltb d v then v else d)
  /\ ((if Rltb d v then v else d) = d \/ (if Rltb d v then v else d) = v).
Proof. unfold Rltb. destruct (Rlt_dec d v); lra. Qed.

(** the shift the closing loop finds: the least one that is not negative and
    brings every coordinate to 20 *)
Lemma margin_spec (t : Tri R) :
  let dX := fst (margin t) in
  let dY := snd (margin t) in
  (0 <= dX /\ 20 - Point.x (pt0 t) <= dX /\ 20 - Point.x (pt1 t) <= dX
   /\ 20 - Point.x (pt2 t) <= dX
   /\ (dX = 0 \/ dX = 20 - Point.x (pt0 t) \/ dX = 20 - Point.x (pt1 t)
       \/ dX = 20 - Point.x (pt2 t)))
  /\ (0 <= dY /\ 20 - Point.y (pt0 t) <= dY /\ 20 - Point.y (pt1 t) <= dY
      /\ 20 - Point.y (pt2 t) <= dY
      /\ (dY = 0 \/ dY = 20 - Point.y (pt0 t) \/ dY = 20 - Point.y (pt1 t)
          \/ dY = 20 - Point.y (pt2 t))).
Proof.
  destruct t as [[x0 y0 n0] [x1 y1 n1] [x2 y2 n2]].
  unfold margin, refs. cbn [fold_left at_ pt0 pt1 pt2 Point.x Point.y]. to_R.
  cbv [ltb R_Num]. cbn [fst snd].
  pose proof (pick_max 0 (20 - x0)) as X0.
  set (mx0 := if Rltb 0 (20 - x0) then 20 - x0 else 0) in *.
  pose proof (pick_max mx0 (20 - x1)) as X1.
  set (mx1 := if Rltb mx0 (20 - x1) then 20 - x1 else mx0) in *.
  pose proof (pick_max mx1 (20 - x2)) as X2.
  set (mx2 := if Rltb mx1 (20 - x2) then 20 - x2 else mx1) in *.
  pose proof (pick_max 0 (20 - y0)) as Y0.
  set (my0 := if Rltb 0 (20 - y0) then 20 - y0 else 0) in *.
  pose proof (pick_max my0 (20 - y1)) as Y1.
  set (my1 := if Rltb my0 (20 - y1) then 20 - y1 else my0) in *.
  pose proof (pick_max my1 (20 - y2)) as Y2.
  set (my2 := if Rltb my1 (20 - y2) then 20 - y2 else my1) in *.
  clearbody mx0 mx1 mx2 my0 my1 my2. lra.
Qed.

(** X17.  The closing shift of the constructors brings every coordinate to 20
    or more, moves nothing that is already there, keeps the lengths, and
    has nothing left to do when run again *)
Theorem moveToMargin_clears_the_margin (t : Tri R) :
  let t' := snd (moveToMargin t) in
  (forall r, 20 <= Point.x (at_ t' r) /\ 20 <= Point.y (at_ t' r))
  /\ lengths t' = lengths t
  /\ ((forall r, 20 <= Point.x (at_ t r) /\ 20 <= Point.y (at_ t r)) -> t' = t)
  /\ snd (moveToMargin t') = t'.
Proof.
  intro t'.
  assert (C : forall r, 20 <= Point.x (at_ t' r) /\ 20 <= Point.y (at_ t' r)).
  { unfold t'. rewrite moveToMargin_translated. cbn [snd].
    pose proof (margin_spec t) as M. cbv zeta in M.
    destruct t as [[x0 y0 n0] [x1 y1 n1] [x2 y2 n2]].
    cbn [pt0 pt1 pt2 Point.x Point.y] in M.
    intros []; unfold translated; cbn [at_ pt0 pt1 pt2 Point.x Point.y]; to_R; lra. }
  assert (I : forall u : Tri R,
             (forall r, 20 <= Point.x (at_ u r) /\ 20 <= Point.y (at_ u r)) ->
             snd (moveToMargin u) = u).
  { intros u Hu. rewrite moveToMargin_translated. cbn [snd].
    rewrite margin_none by
      (first [apply (Hu P0) | apply (Hu P1) | apply (Hu P2)]).
    destruct u as [[x0 y0 n0] [x1 y1 n1] [x2 y2 n2]].
    unfold translated; simpl. to_R. apply tri_eq; ring. }
  repeat apply conj.
  - exact C.
  - unfold t'. rewrite moveToMargin_translated. apply lengths_translated.
  - exact (I t).
  - exact (I t' C).
Qed.
End ExactMargin.

(** ** The two-circle intersection in exact arithmetic *)

Section ExactIntersector.
Local Open Scope R_scope.

Lemma foot_bounds (d1 d2 D : R) :
  0 < D -> D <= d1 + d2 -> d1 <= D + d2 -> d2 <= D + d1 ->
  0 <= d1 * d1 - ((d1 * d1 - d2 * d2 + D * D) / (2 * D))
                 * ((d1 * d1 - d2 * d2 + D * D) / (2 * D)).
Proof.
  intros HD H1 H2 H3.
  replace (d1 * d1 - (d1 * d1 - d2 * d2 + D * D) / (2 * D)
                     * ((d1 * d1 - d2 * d2 + D * D) / (2 * D)))
    with (((d1 + D - d2) * (d1 + D + d2)) * ((d2 - d1 + D) * (d2 + d1 - D))
          / (4 * D * D)) by (field; lra).
  apply Rmult_le_pos.
  - apply Rmult_le_pos; apply Rmult_le_pos; lra.
  - apply Rlt_le, Rinv_0_lt_compat. nra.
Qed.

Lemma foot_bounds_strict (d1 d2 D : R) :
  0 < D -> D < d1 + d2 -> d1 < D + d2 -> d2 < D + d1 ->
  0 < d1 * d1 - ((d1 * d1 - d2 * d2 + D * D) / (2 * D))
                * ((d1 * d1 - d2 * d2 + D * D) / (2 * D)).
Proof.
  intros HD H1 H2 H3.
  replace (d1 * d1 - (d1 * d1 - d2 * d2 + D * D) / (2 * D)
                     * ((d1 * d1 - d2 * d2 + D * D) / (2 * D)))
    with (((d1 + D - d2) * (d1 + D + d2)) * ((d2 - d1 + D) * (d2 + d1 - D))
          / (4 * D * D)) by (field; lra).
  apply Rmult_lt_0_compat.
  - apply Rmult_lt_0_compat; apply Rmult_lt_0_compat; lra.
  - apply Rinv_0_lt_compat. nra.
Qed.

(** both candidates lie on both circles *)
Lemma candidate_distances (ux uy a h D d1 d2 : R) (sg : R) :
  0 < D -> D * D = ux * ux + uy * uy -> sg * sg = 1 ->
  a = (d1 * d1 - d2 * d2 + D * D) / (2 * D) ->
  h * h = d1 * d1 - a * a ->
  (a * (ux / D) + sg * h * (uy / D)) * (a * (ux / D) + sg * h * (uy / D))
  + (a * (uy / D) - sg * h * (ux / D)) * (a * (uy / D) - sg * h * (ux / D))
  = d1 * d1
  /\ (a * (ux / D) + sg * h * (uy / D) - ux) * (a * (ux / D) + sg * h * (uy / D) - ux)
     + (a * (uy / D) - sg * h * (ux / D) - uy) * (a * (uy / D) - sg * h * (ux / D) - uy)
     = d2 * d2.
Proof.
  intros HD E S Ha Hh. split.
  - transitivity ((a * a + sg * sg * (h * h)) * (ux * ux + uy * uy) / (D * D));
      [field; lra|].
    rewrite <- E, S, Hh. field; lra.
  - transitivity ((a * a + sg * sg * (h * h)) * (ux * ux + uy * uy) / (D * D)
                  - 2 * a * (ux * ux + uy * uy) / D + (ux * ux + uy * uy));
      [field; lra|].
    rewrite <- E, S, Hh, Ha. field; lra.
Qed.

Lemma alcutePoint_exact (v q1 q2 : Point.t R) (d1 d2 : R) (n : string) :
  let D := sideLength q1 q2 in
  let X := Point.mk (fst (alcutePoint v (d1, q1) (d2, q2)))
                    (snd (alcutePoint v (d1, q1) (d2, q2))) n in
  0 < D -> D <= d1 + d2 -> d1 <= D + d2 -> d2 <= D + d1 ->
  sideLength q1 X = d1 /\ sideLength q2 X = d2
  /\ (D < d1 + d2 -> d1 < D + d2 -> d2 < D + d1 -> sideCross q1 q2 v <> 0 ->
      0 < sideCross q1 q2 X * sideCross q1 q2 v).
Proof.
  intros D X HD H1 H2 H3.
  assert (Hd1 : 0 <= d1) by lra. assert (Hd2 : 0 <= d2) by lra.
  split; [|split].
  3: { intros S1 S2 S3 Hv. unfold X.
       apply alcutePoint_same_side; trivial.
       apply foot_bounds_strict; assumption. }
  all: unfold X, D in *; clear X D;
    destruct q1 as [x1 y1 m1], q2 as [x2 y2 m2], v as [vx vy vn];
    rewrite sideLength_R in *; cbn [Point.x Point.y] in *;
    unfold alcutePoint, pow2; cbn [Point.x Point.y]; to_R;
    set (ux := x2 - x1) in *; set (uy := y2 - y1) in *;
    set (D := sqrt (ux * ux + uy * uy)) in *;
    assert (E : D * D = ux * ux + uy * uy)
      by (apply sqrt_sqrt, sum_sq_nonneg);
    set (a := (d1 * d1 - d2 * d2 + D * D) / (2 * D));
    pose proof (foot_bounds HD H1 H2 H3) as Hh; fold a in Hh;
    set (h := sqrt (d1 * d1 - a * a));
    assert (Hhh : h * h = d1 * d1 - a * a) by (apply sqrt_sqrt; exact Hh);
    destruct (@candidate_distances ux uy a h D d1 d2 1 HD E
                ltac:(ring) eq_refl Hhh) as [P1 P2];
    destruct (@candidate_distances ux uy a h D d1 d2 (-1) HD E
                ltac:(ring) eq_refl Hhh) as [M1 M2];
    match goal with
    | |- context [if ?b then _ else _] => destruct b
    end; cbn [fst snd].
  - rewrite <- (sqrt_square d1 Hd1). apply sqrt_eq. rewrite <- P1. ring.
  - rewrite <- (sqrt_square d1 Hd1). apply sqrt_eq. rewrite <- M1. ring.
  - rewrite <- (sqrt_square d2 Hd2). apply sqrt_eq. rewrite <- P2. unfold ux, uy. ring.
  - rewrite <- (sqrt_square d2 Hd2). apply sqrt_eq. rewrite <- M2. unfold ux, uy. ring.
Qed.

(** X18.  [#alcutePoint] returns a point at the two given distances from the
    two anchors, on the side of their line where the reference vertex is *)
Theorem alcutePoint_solves_two_circles (v q1 q2 : Point.t R) (d1 d2 : R) (n : string) :
  let D := sideLength q1 q2 in
  let X := Point.mk (fst (alcutePoint v (d1, q1) (d2, q2)))
                    (snd (alcutePoint v (d1, q1) (d2, q2))) n in
  0 < D -> D <= d1 + d2 -> d1 <= D + d2 -> d2 <= D + d1 ->
  sideLength q1 X = d1 /\ sideLength q2 X = d2
  /\ (D < d1 + d2 -> d1 < D + d2 -> d2 < D + d1 -> sideCross q1 q2 v <> 0 ->
      0 < sideCross q1 q2 X * sideCross q1 q2 v).
Proof.
  intros D X HD H1 H2 H3.
  assert (Hd1 : 0 <= d1) by lra. assert (Hd2 : 0 <= d2) by lra.
  split; [|split].
  3: { intros S1 S2 S3 Hv. unfold X.
       apply alcutePoint_same_side; trivial.
       apply foot_bounds_strict; assumption. }
  all: unfold X, D in *; clear X D;
    destruct q1 as [x1 y1 m1], q2 as [x2 y2 m2], v as [vx vy vn];
    rewrite sideLength_R in *; cbn [Point.x Point.y] in *;
    unfold alcutePoint, pow2; cbn [Point.x Point.y]; to_R;
    set (ux := x2 - x1) in *; set (uy := y2 - y1) in *;
    set (D := sqrt (ux * ux + uy * uy)) in *;
    assert (E : D * D = ux * ux + uy * uy)
      by (apply sqrt_sqrt, sum_sq_nonneg);
    set (a := (d1 * d1 - d2 * d2 + D * D) / (2 * D));
    pose proof (foot_bounds HD H1 H2 H3) as Hh; fold a in Hh;
    set (h := sqrt (d1 * d1 - a * a));
    assert (Hhh : h * h = d1 * d1 - a * a) by (apply sqrt_sqrt; exact Hh);
    destruct (@candidate_distances ux uy a h D d1 d2 1 HD E
                ltac:(ring) eq_refl Hhh) as [P1 P2];
    destruct (@candidate_distances ux uy a h D d1 d2 (-1) HD E
                ltac:(ring) eq_refl Hhh) as [M1 M2];
    match goal with
    | |- context [if ?b then _ else _] => destruct b
    end; cbn [fst snd].
  - rewrite <- (sqrt_square d1 Hd1). apply sqrt_eq. rewrite <- P1. ring.
  - rewrite <- (sqrt_square d1 Hd1). apply sqrt_eq. rewrite <- M1. ring.
  - rewrite <- (sqrt_square d2 Hd2). apply sqrt_eq. rewrite <- P2. unfold ux, uy. ring.
  - rewrite <- (sqrt_square d2 Hd2). apply sqrt_eq. rewrite <- M2. unfold ux, uy. ring.
Qed.
End ExactIntersector.

Section ConstructorErrors.
Context {N : Type} {num : Num N} {numstr : NumToString N} {trig : Trig N}.
Local Open Scope num_scope.

Lemma createDefault_refused name :
  countUpper name <> 3%nat ->
  createDefaultTrianglePoints (N := N) name = Throw InvalidTriangleName.
Proof.
  intro H. unfold createDefaultTrianglePoints. rewrite <- segments_length in H.
  destruct (Str.segments name) as [|A [|B [|C [|D l]]]]; simpl in H;
    try reflexivity. now elim H.
Qed.

(** X19.  A name without exactly three capitals is refused by every
    constructor; [fromHL] alone looks at its numbers first *)
Theorem constructors_refuse_bad_names (name : string) :
  countUpper name <> 3%nat ->
  (forall l1 l2 l3, fromSSS l1 l2 l3 name = Throw InvalidTriangleName)
  /\ (forall l1 angle l2, fromSAS l1 angle l2 name = Throw InvalidTriangleName)
  /\ (forall a1 l a2, fromASA a1 l a2 name = Throw InvalidTriangleName)
  /\ (forall a1 a2 l, fromAAS a1 a2 l name = Throw InvalidTriangleName)
  /\ (forall hypotenuse leg,
        fromHL hypotenuse leg name
        = if leg <=? lit 0 then Throw LegNotPositive
          else if hypotenuse <=? leg then Throw HypotenuseNotGreater
          else Throw InvalidTriangleName).
Proof.
  intro H. pose proof (createDefault_refused name H) as E.
  unfold fromSSS, fromSAS, fromAAS, fromASA, fromHL. rewrite E.
  repeat apply conj; reflexivity.
Qed.

(** X20.  The guards of [fromSAS]: the angle is looked at before the
    lengths *)
Theorem fromSAS_guards (length1 angle length2 : N) (name : string) :
  countUpper name = 3%nat ->
  ((angle <=? lit 0) || (angle >=? lit 180) = true ->
   fromSAS length1 angle length2 name = Throw AngleOutOfRange)
  /\ ((angle <=? lit 0) || (angle >=? lit 180) = false ->
      (length1 <=? lit 0) || (length2 <=? lit 0) = true ->
      fromSAS length1 angle length2 name = Throw LengthNotPositive).
Proof.
  intro H. rewrite <- segments_length in H. unfold fromSAS.
  destruct (Str.segments name) as [|A [|B [|C [|D l]]]] eqn:S; try discriminate.
  rewrite (createDefault_segments _ S).
  split.
  - intros ->. reflexivity.
  - intros -> ->. reflexivity.
Qed.
End ConstructorErrors.

Section ExactConstructors.
Local Open Scope R_scope.

Lemma at_translated (dX dY : R) (t : Tri R) :
  pt0 (translated dX dY t)
  = Point.mk (Point.x (pt0 t) + dX) (Point.y (pt0 t) + dY) (Point.name (pt0 t))
  /\ pt1 (translated dX dY t)
     = Point.mk (Point.x (pt1 t) + dX) (Point.y (pt1 t) + dY) (Point.name (pt1 t))
  /\ pt2 (translated dX dY t)
     = Point.mk (Point.x (pt2 t) + dX) (Point.y (pt2 t) + dY) (Point.name (pt2 t)).
Proof. repeat apply conj; reflexivity. Qed.

Lemma default_slope :
  let d := sqrt ((20 - 70) * (20 - 70) + (120 - 20) * (120 - 20)) in
  0 < d /\ ((20 - 70) / d) * ((20 - 70) / d) + ((120 - 20) / d) * ((120 - 20) / d) = 1.
Proof.
  intro d.
  assert (Hd : 0 < d) by (apply sqrt_lt_R0; lra).
  assert (E : d * d = (20 - 70) * (20 - 70) + (120 - 20) * (120 - 20))
    by (apply sqrt_sqrt; lra).
  split; [exact Hd|].
  transitivity (((20 - 70) * (20 - 70) + (120 - 20) * (120 - 20)) / (d * d));
    [field; lra|].
  rewrite <- E. field; lra.
Qed.

(** X21.  [fromSAS] in exact arithmetic: the sides at the first vertex measure
    [length2] and [length1] and enclose the given angle *)
Theorem fromSAS_exact (length1 angle length2 : R) (name A B C : string) :
  0 < angle -> angle < 180 -> 0 < length1 -> 0 < length2 ->
  Str.segments name = [A; B; C] ->
  exists t,
    fromSAS length1 angle length2 name = Ok t
    /\ names t = [A; B; C]
    /\ sideLength (pt0 t) (pt1 t) = length2
    /\ sideLength (pt0 t) (pt2 t) = length1
    /\ cosAngleAt (pt0 t) (pt1 t) (pt2 t) = cos (angle * PI / 180).
Proof.
  intros Ha1 Ha2 Hl1 Hl2 Hn.
  rewrite (@fromSAS_placed R _ _ length1 angle length2 name A B C); trivial.
  2: { simpl. rewrite Rleb_false, Rleb_false by lra. reflexivity. }
  2: { simpl. rewrite Rleb_false, Rleb_false by lra. reflexivity. }
  eexists; split; [reflexivity|].
  generalize (fst (margin (placedSAS length1 angle length2 A B C))) as dX.
  generalize (snd (margin (placedSAS length1 angle length2 A B C))) as dY.
  intros dY dX.
  destruct default_slope as [Hd Hu]. cbv zeta in Hd, Hu.
  assert (LB : sideLength (pt0 (translated dX dY (placedSAS length1 angle length2 A B C)))
                 (pt1 (translated dX dY (placedSAS length1 angle length2 A B C)))
               = length2).
  { rewrite sideLength_R. unfold placedSAS, translated, neg, pow2.
    cbn [pt0 pt1 pt2 Point.x Point.y]. to_R.
    set (d := sqrt ((20 - 70) * (20 - 70) + (120 - 20) * (120 - 20))) in *.
    set (dx := (20 - 70) / d) in *. set (dy := (120 - 20) / d) in *.
    replace (_ + _) with (length2 * length2 * (dx * dx + dy * dy)) by ring.
    rewrite Hu, Rmult_1_r. apply sqrt_square; lra. }
  assert (LC : sideLength (pt0 (translated dX dY (placedSAS length1 angle length2 A B C)))
                 (pt2 (translated dX dY (placedSAS length1 angle length2 A B C)))
               = length1).
  { rewrite sideLength_R. unfold placedSAS, translated, neg, pow2.
    cbn [pt0 pt1 pt2 Point.x Point.y]. to_R.
    set (d := sqrt ((20 - 70) * (20 - 70) + (120 - 20) * (120 - 20))) in *.
    set (dx := (20 - 70) / d) in *. set (dy := (120 - 20) / d) in *.
    pose proof (cos_sin_one (angle * PI / 180)) as T.
    set (c := cos (angle * PI / 180)) in *. set (s := sin (angle * PI / 180)) in *.
    replace (_ + _)
      with (length1 * length1 * ((dx * dx + dy * dy) * (c * c + s * s))) by ring.
    rewrite Hu, T, !Rmult_1_r. apply sqrt_square; lra. }
  repeat apply conj.
  - reflexivity.
  - exact LB.
  - exact LC.
  - unfold cosAngleAt. rewrite LB, LC.
    unfold placedSAS, translated, neg, pow2.
    cbn [pt0 pt1 pt2 Point.x Point.y]. to_R.
    set (d := sqrt ((20 - 70) * (20 - 70) + (120 - 20) * (120 - 20))) in *.
    set (dx := (20 - 70) / d) in *. set (dy := (120 - 20) / d) in *.
    set (c := cos (angle * PI / 180)) in *. set (s := sin (angle * PI / 180)) in *.
    transitivity ((dx * dx + dy * dy) * c); [field; lra | rewrite Hu; ring].
Qed.

Lemma scaled_PI_lt (k1 k2 : R) : k1 < k2 -> k1 * PI < k2 * PI.
Proof. intro H. apply Rmult_lt_compat_r; [exact PI_RGT_0 | exact H]. Qed.

Lemma cos_sum_pos (b c : R) :
  0 < b -> 0 < c -> b + c < 180 ->
  0 < cos (b * PI / 180) + cos (c * PI / 180).
Proof.
  intros Hb Hc Hs. rewrite form1.
  replace ((b * PI / 180 - c * PI / 180) / 2) with ((b - c) / 360 * PI) by field.
  replace ((b * PI / 180 + c * PI / 180) / 2) with ((b + c) / 360 * PI) by field.
  apply Rmult_lt_0_compat; [apply Rmult_lt_0_compat; [lra|]|];
    (apply cos_gt_0;
     [ replace (- (PI / 2)) with (- / 2 * PI) by field
     | replace (PI / 2) with (/ 2 * PI) by field ];
     apply scaled_PI_lt; lra).
Qed.

Lemma sin_deg_pos (b : R) : 0 < b -> b < 180 -> 0 < sin (b * PI / 180).
Proof.
  intros H1 H2. apply sin_gt_0.
  - replace 0 with (0 * PI) by ring.
    replace (b * PI / 180) with (b / 180 * PI) by field.
    apply scaled_PI_lt; lra.
  - replace PI with (1 * PI) at 2 by ring.
    replace (b * PI / 180) with (b / 180 * PI) by field.
    apply scaled_PI_lt; lra.
Qed.

(** what [fromASA] does get right, for accepted arguments *)
Lemma fromASA_base (angle1 length angle2 : R) (name A B C : string) :
  0 < angle1 -> 0 < angle2 -> angle1 + angle2 < 180 -> 0 < length ->
  Str.segments name = [A; B; C] ->
  exists t,
    fromASA angle1 length angle2 name = Ok t
    /\ names t = [A; B; C]
    /\ sideLength (pt1 t) (pt2 t) = length
    /\ Point.y (pt1 t) = Point.y (pt2 t)
    /\ Point.y (pt0 t) < Point.y (pt1 t)
    /\ cosAngleAt (pt1 t) (pt0 t) (pt2 t) = cos (angle1 * PI / 180).
Proof.
  intros H1 H2 H3 H4 Hn.
  rewrite (@fromASA_placed R _ _ angle1 length angle2 name A B C); trivial.
  2: { simpl. rewrite Rleb_false, Rleb_false by lra. reflexivity. }
  2: { simpl. rewrite Rleb_false, Rleb_false by lra. reflexivity. }
  2: { simpl. apply Rleb_false. lra. }
  2: { simpl. apply Rleb_false. lra. }
  eexists; split; [reflexivity|].
  generalize (fst (margin (placedASA angle1 length angle2 A B C))) as dX.
  generalize (snd (margin (placedASA angle1 length angle2 A B C))) as dY.
  intros dY dX.
  pose proof (cos_sum_pos H1 H2 H3) as HS.
  pose proof (@sin_deg_pos angle1 H1 ltac:(lra)) as Hsin.
  pose proof (cos_sin_one (angle1 * PI / 180)) as T.
  assert (LA : sideLength (pt1 (translated dX dY (placedASA angle1 length angle2 A B C)))
                 (pt0 (translated dX dY (placedASA angle1 length angle2 A B C)))
               = length / (cos (angle1 * PI / 180) + cos (angle2 * PI / 180))).
  { rewrite sideLength_R. unfold placedASA, translated.
    cbn [pt0 pt1 pt2 Point.x Point.y]. to_R.
    set (c1 := cos (angle1 * PI / 180)) in *. set (s1 := sin (angle1 * PI / 180)) in *.
    set (c2 := cos (angle2 * PI / 180)) in *.
    replace (_ + _)
      with ((length / (c1 + c2)) * (length / (c1 + c2)) * (c1 * c1 + s1 * s1))
      by (field; lra).
    rewrite T, Rmult_1_r. apply sqrt_square.
    apply Rlt_le, Rdiv_lt_0_compat; lra. }
  assert (LC : sideLength (pt1 (translated dX dY (placedASA angle1 length angle2 A B C)))
                 (pt2 (translated dX dY (placedASA angle1 length angle2 A B C)))
               = length).
  { rewrite sideLength_R. unfold placedASA, translated.
    cbn [pt0 pt1 pt2 Point.x Point.y]. to_R.
    replace (_ + _) with (length * length) by ring.
    apply sqrt_square; lra. }
  repeat apply conj.
  - reflexivity.
  - exact LC.
  - reflexivity.
  - unfold placedASA, translated. cbn [pt0 pt1 pt2 Point.x Point.y]. to_R.
    set (c1 := cos (angle1 * PI / 180)) in *. set (s1 := sin (angle1 * PI / 180)) in *.
    set (c2 := cos (angle2 * PI / 180)) in *.
    assert (0 < length * s1 / (c1 + c2))
      by (apply Rdiv_lt_0_compat; [apply Rmult_lt_0_compat|]; lra).
    lra.
  - unfold cosAngleAt. rewrite LA, LC.
    unfold placedASA, translated. cbn [pt0 pt1 pt2 Point.x Point.y]. to_R.
    set (c1 := cos (angle1 * PI / 180)) in *. set (s1 := sin (angle1 * PI / 180)) in *.
    set (c2 := cos (angle2 * PI / 180)) in *.
    field; lra.
Qed.

(** X22.  For accepted arguments [fromASA] builds a triangle whose side from
    the second to the third vertex is horizontal and measures [length],
    with the first vertex above it and the angle [angle1] at the second *)
Theorem fromASA_base_and_first_angle (angle1 length angle2 : R) (name A B C : string) :
  0 < angle1 -> 0 < angle2 -> angle1 + angle2 < 180 -> 0 < length ->
  Str.segments name = [A; B; C] ->
  exists t,
    fromASA angle1 length angle2 name = Ok t
    /\ names t = [A; B; C]
    /\ sideLength (pt1 t) (pt2 t) = length
    /\ Point.y (pt1 t) = Point.y (pt2 t)
    /\ Point.y (pt0 t) < Point.y (pt1 t)
    /\ cosAngleAt (pt1 t) (pt0 t) (pt2 t) = cos (angle1 * PI / 180).
Proof.
  intros H1 H2 H3 H4 Hn.
  rewrite (@fromASA_placed R _ _ angle1 length angle2 name A B C); trivial.
  2: { simpl. rewrite Rleb_false, Rleb_false by lra. reflexivity. }
  2: { simpl. rewrite Rleb_false, Rleb_false by lra. reflexivity. }
  2: { simpl. apply Rleb_false. lra. }
  2: { simpl. apply Rleb_false. lra. }
  eexists; split; [reflexivity|].
  generalize (fst (margin (placedASA angle1 length angle2 A B C))) as dX.
  generalize (snd (margin (placedASA angle1 length angle2 A B C))) as dY.
  intros dY dX.
  pose proof (cos_sum_pos H1 H2 H3) as HS.
  pose proof (@sin_deg_pos angle1 H1 ltac:(lra)) as Hsin.
  pose proof (cos_sin_one (angle1 * PI / 180)) as T.
  assert (LA : sideLength (pt1 (translated dX dY (placedASA angle1 length angle2 A B C)))
                 (pt0 (translated dX dY (placedASA angle1 length angle2 A B C)))
               = length / (cos (angle1 * PI / 180) + cos (angle2 * PI / 180))).
  { rewrite sideLength_R. unfold placedASA, translated.
    cbn [pt0 pt1 pt2 Point.x Point.y]. to_R.
    set (c1 := cos (angle1 * PI / 180)) in *. set (s1 := sin (angle1 * PI / 180)) in *.
    set (c2 := cos (angle2 * PI / 180)) in *.
    replace (_ + _)
      with ((length / (c1 + c2)) * (length / (c1 + c2)) * (c1 * c1 + s1 * s1))
      by (field; lra).
    rewrite T, Rmult_1_r. apply sqrt_square.
    apply Rlt_le, Rdiv_lt_0_compat; lra. }
  assert (LC : sideLength (pt1 (translated dX dY (placedASA angle1 length angle2 A B C)))
                 (pt2 (translated dX dY (placedASA angle1 length angle2 A B C)))
               = length).
  { rewrite sideLength_R. unfold placedASA, translated.
    cbn [pt0 pt1 pt2 Point.x Point.y]. to_R.
    replace (_ + _) with (length * length) by ring.
    apply sqrt_square; lra. }
  repeat apply conj.
  - reflexivity.
  - exact LC.
  - reflexivity.
  - unfold placedASA, translated. cbn [pt0 pt1 pt2 Point.x Point.y]. to_R.
    set (c1 := cos (angle1 * PI / 180)) in *. set (s1 := sin (angle1 * PI / 180)) in *.
    set (c2 := cos (angle2 * PI / 180)) in *.
    assert (0 < length * s1 / (c1 + c2))
      by (apply Rdiv_lt_0_compat; [apply Rmult_lt_0_compat|]; lra).
    lra.
  - unfold cosAngleAt. rewrite LA, LC.
    unfold placedASA, translated. cbn [pt0 pt1 pt2 Point.x Point.y]. to_R.
    set (c1 := cos (angle1 * PI / 180)) in *. set (s1 := sin (angle1 * PI / 180)) in *.
    set (c2 := cos (angle2 * PI / 180)) in *.
    field; lra.
Qed.

(** X23.  [fromAAS] accepts exactly two positive angles with a sum below 180
    and a positive length; the triangle then has the side [length] between
    the second and the third vertex and the angle [angle2] at the second *)
Theorem fromAAS_accepts (angle1 angle2 length : R) (name A B C : string) :
  Str.segments name = [A; B; C] ->
  (0 < angle1 /\ 0 < angle2 /\ angle1 + angle2 < 180 /\ 0 < length ->
   exists t,
     fromAAS angle1 angle2 length name = Ok t
     /\ sideLength (pt1 t) (pt2 t) = length
     /\ cosAngleAt (pt1 t) (pt0 t) (pt2 t) = cos (angle2 * PI / 180))
  /\ (~ (0 < angle1 /\ 0 < angle2 /\ angle1 + angle2 < 180 /\ 0 < length) ->
      fromAAS angle1 angle2 length name = Throw AngleOutOfRange
      \/ fromAAS angle1 angle2 length name = Throw LengthNotPositive).
Proof.
  intro Hn. split.
  - intros (H1 & H2 & H3 & H4). unfold fromAAS.
    change (@lit R _ 180) with 180. change (@sub R _) with Rminus.
    destruct (@fromASA_base angle2 length (180 - angle1 - angle2) name A B C)
      as (t & E & _ & L & _ & _ & K); trivial; try lra.
    exists t. repeat apply conj; assumption.
  - intro H. unfold fromAAS, fromASA. rewrite (createDefault_segments _ Hn).
    unfold returning. to_R. cbv [leb ltb R_Num].
    unfold Rleb.
    repeat match goal with
           | |- context [Rle_dec ?a ?b] => destruct (Rle_dec a b)
           end; cbn [orb throw]; auto.
    exfalso. apply H. repeat apply conj; lra.
Qed.
End ExactConstructors.

Ltac run_R :=
  repeat (decide_cmp;
          cbn [orb andb negb insertSorted fold_left hd_error deref bind ret get
               filter ref_eqb oref_eqb at_ pt0 pt1 pt2 Point.x Point.y Point.name
               findIndex samePair op1 op2 olength nth_error removeAt otherThan
               find refs setX setY modify update fst snd]).

Section ExactSides.
Context {numstr : NumToString R}.
Local Open Scope R_scope.

(** three lengths that satisfy the strict inequality pass the check of the
    helpers in whatever order [sort()] leaves them *)
Lemma rejected_valid (a b c : R) :
  a < b + c -> b < a + c -> c < a + b -> rejected a b c = false.
Proof.
  intros H1 H2 H3. unfold rejected, sortedTriple, sortBy.
  cbn [fold_left insertSorted].
  repeat match goal with
         | |- context [if defaultGt ?u ?v then _ else _] =>
             destruct (defaultGt u v); cbn [insertSorted]
         end;
    cbv [leb add R_Num]; apply Rleb_false; lra.
Qed.

Lemma lowered_distinct (a b : string) :
  plainName a = true -> plainName b = true -> a <> b ->
  String.eqb (Str.toLowerCase a) (Str.toLowerCase b) = false.
Proof.
  intros Ha Hb D. apply String.eqb_neq. intro E. apply D.
  rewrite <- (proj2 (plainName_roundtrip a Ha)), <- (proj2 (plainName_roundtrip b Hb)).
  now rewrite E.
Qed.

Lemma default_options (A B C : string) (l1 l2 l3 : R) :
  let t := mkTri (Point.mk 70 20 A) (Point.mk 20 120 B) (Point.mk 120 120 C) in
  wellNamed t = true ->
  checkAndMergeSides t
    (putKey (putKey (putKey [] (Str.toLowerCase A) l1) (Str.toLowerCase B) l2)
            (Str.toLowerCase C) l3)
  = Ok [mkOption (Str.toLowerCase A) l1 (Some P1) (Some P2);
        mkOption (Str.toLowerCase B) l2 (Some P0) (Some P2);
        mkOption (Str.toLowerCase C) l3 (Some P0) (Some P1)].
Proof.
  intros t W.
  destruct (wellNamed_facts t W) as (Q0 & Q1 & Q2 & D01 & D02 & D12).
  cbn [Point.name pt0 pt1 pt2 t] in *.
  pose proof (resolve_opposite t P0 W) as R0.
  pose proof (resolve_opposite t P1 W) as R1.
  pose proof (resolve_opposite t P2 W) as R2.
  cbn [at_ Point.name pt0 pt1 pt2 t] in R0, R1, R2. fold t in R0, R1, R2.
  cbn [putKey].
  rewrite (lowered_distinct Q0 Q1 D01). cbn [putKey].
  rewrite (lowered_distinct Q0 Q2 D02), (lowered_distinct Q1 Q2 D12).
  unfold checkAndMergeSides. cbn [checkAndMergeFrom].
  rewrite R0, R1, R2. reflexivity.
Qed.

Lemma default_all_sides (A B C ka kb kc : string) (l1 l2 l3 : R) :
  let t := mkTri (Point.mk 70 20 A) (Point.mk 20 120 B) (Point.mk 120 120 C) in
  let d := sqrt ((120 - 20) * (120 - 20) + (120 - 120) * (120 - 120)) in
  let C' := Point.mk (20 + (120 - 20) / d * l1) (120 + (120 - 120) / d * l1) C in
  let X := alcutePoint (pt0 t) (l2, C') (l3, pt1 t) in
  rejected l1 l2 l3 = false ->
  setAllSidesLength
    [mkOption ka l1 (Some P1) (Some P2);
     mkOption kb l2 (Some P0) (Some P2);
     mkOption kc l3 (Some P0) (Some P1)] t
  = (Ok tt, mkTri (Point.mk (fst X) (snd X) A) (pt1 t) C').
Proof.
  intros t d C' X Hr. unfold setAllSidesLength.
  cbn [olength]. rewrite Hr.
  unfold bind at 1, get at 1.
  unfold sortBy, refs, leftThenLow, orElse, truthy.
  subst t.
  cbn [fold_left insertSorted at_ pt0 pt1 pt2 Point.x Point.y filter ref_eqb negb].
  to_R. cbv [ltb R_Num].
  run_R.
  unfold pow2. to_R. fold d. fold C'.
  destruct (alcutePoint _ _ _) as [x y] eqn:EX.
  run_R. reflexivity.
Qed.

Lemma sqrt_default_base :
  sqrt ((120 - 20) * (120 - 20) + (120 - 120) * (120 - 120)) = 100.
Proof.
  replace ((120 - 20) * (120 - 20) + (120 - 120) * (120 - 120)) with (100 * 100)
    by ring.
  apply sqrt_square. lra.
Qed.

(** X24.  [fromSSS] in exact arithmetic, for three lengths that satisfy the
    strict inequality: the sides opposite the first, second and third
    vertex measure [length1], [length2], [length3]; the second and third
    vertex are level, left to right, and the first lies above them *)
Theorem fromSSS_exact (length1 length2 length3 : R) (name : string) (t0 : Tri R) :
  createDefaultTrianglePoints name = Ok t0 -> wellNamed t0 = true ->
  length1 < length2 + length3 -> length2 < length1 + length3 ->
  length3 < length1 + length2 ->
  exists t,
    fromSSS length1 length2 length3 name = Ok t
    /\ names t = names t0
    /\ lengths t = (length1, length2, length3)
    /\ Point.y (pt1 t) = Point.y (pt2 t)
    /\ Point.x (pt1 t) < Point.x (pt2 t)
    /\ Point.y (pt0 t) < Point.y (pt1 t).
Proof.
  intros Hc W H1 H2 H3.
  unfold fromSSS. rewrite Hc.
  unfold createDefaultTrianglePoints in Hc.
  destruct (Str.segments name) as [|A [|B [|C [|D l]]]]; try discriminate.
  inversion Hc; subst t0; clear Hc.
  unfold returning, bind at 1, get at 1. unfold bind at 1.
  unfold setSideLength, bind at 1, get at 1, bind at 1, lift at 1.
  cbn [pt0 pt1 pt2 Point.name].
  rewrite (default_options A B C length1 length2 length3 W).
  rewrite (@default_all_sides A B C _ _ _ length1 length2 length3
             (rejected_valid H1 H2 H3)).
  rewrite moveToMargin_translated.
  eexists; split; [reflexivity|].
  match goal with
  | |- context [translated ?a ?b ?u] =>
      generalize a as dX; generalize b as dY; intros dY dX
  end.
  cbn [pt0 pt1 pt2].
  rewrite sqrt_default_base.
  set (B0 := Point.mk 20 120 B).
  set (C' := Point.mk (20 + (120 - 20) / 100 * length1)
                      (120 + (120 - 120) / 100 * length1) C).
  set (A0 := Point.mk 70 20 A).
  assert (L1 : sideLength C' B0 = length1).
  { rewrite sideLength_R. unfold C', B0; cbn [Point.x Point.y].
    replace (_ + _) with (length1 * length1) by field.
    apply sqrt_square. lra. }
  assert (SC : sideCross C' B0 A0 = 100 * length1).
  { unfold sideCross, C', B0, A0; cbn [Point.x Point.y]. to_R. field. }
  destruct (@alcutePoint_exact A0 C' B0 length2 length3 A) as (E1 & E2 & E3);
    rewrite ?L1; try lra.
  rewrite L1, SC in E3.
  specialize (E3 ltac:(lra) ltac:(lra) ltac:(lra) ltac:(lra)).
  set (X := Point.mk (fst (alcutePoint A0 (length2, C') (length3, B0)))
                     (snd (alcutePoint A0 (length2, C') (length3, B0))) A) in *.
  repeat apply conj.
  - reflexivity.
  - rewrite lengths_translated. unfold lengths. cbn [pt0 pt1 pt2].
    rewrite (sideLength_sym B0 C'), (sideLength_sym X C'), (sideLength_sym X B0).
    rewrite L1, E1, E2. reflexivity.
  - unfold translated, C', B0. cbn [pt0 pt1 pt2 Point.x Point.y]. to_R. field.
  - unfold translated, C', B0. cbn [pt0 pt1 pt2 Point.x Point.y]. to_R. lra.
  - unfold translated. cbn [pt0 pt1 pt2 Point.x Point.y]. to_R.
    unfold sideCross, C', B0 in E3. cbn [Point.x Point.y] in E3. to_R.
    fold X.
    match type of E3 with
    | 0 < ?e =>
        replace e with (100 * (length1 * length1) * (120 - Point.y X)) in E3
          by field
    end.
    assert (P : 0 < 100 * (length1 * length1)) by nra.
    assert (Q : 0 < 120 - Point.y X).
    { destruct (Rlt_dec 0 (120 - Point.y X)) as [Q|Q]; [exact Q|].
      exfalso. apply Rnot_lt_le in Q.
      pose proof (Rmult_le_compat_l _ _ _ (Rlt_le _ _ P) Q) as K.
      rewrite Rmult_0_r in K. lra. }
    unfold B0. cbn [Point.y]. lra.
Qed.
End ExactSides.

Section ExactEdges.
Context {numstr : NumToString R}.
Local Open Scope R_scope.

Lemma getSideLength_opposite (t : Tri R) (r : ref) :
  wellNamed t = true ->
  getSideLength t (Str.toLowerCase (Point.name (at_ t r)))
  = Ok (sideLength (at_ t (fst (opposite r))) (at_ t (snd (opposite r)))).
Proof.
  intro W. unfold getSideLength. rewrite (resolve_opposite t r W).
  destruct r; reflexivity.
Qed.

Lemma getPointsByName_opposite (t : Tri R) (r : ref) :
  wellNamed t = true ->
  getPointsByName t (Str.toLowerCase (Point.name (at_ t r)))
  = Ok [fst (opposite r); snd (opposite r)].
Proof. intro W. rewrite (resolve_opposite t r W). destruct r; reflexivity. Qed.

Lemma sideCross_apart (p q v : Point.t R) :
  sideCross p q v <> 0 -> 0 < sideLength p q.
Proof.
  intro H. rewrite sideLength_R. apply sqrt_lt_R0.
  unfold sideCross in H. to_R.
  set (ux := Point.x q - Point.x p) in *. set (uy := Point.y q - Point.y p) in *.
  destruct (Req_dec ux 0) as [Ex|Ex]; destruct (Req_dec uy 0) as [Ey|Ey];
    first [ nra | exfalso; apply H; rewrite Ex, Ey; ring ].
Qed.

(** sliding one end of an edge along it until the edge measures [L] *)
Lemma slide_facts (fx fy sx sy d L : R) :
  0 < d -> d * d = (sx - fx) * (sx - fx) + (sy - fy) * (sy - fy) -> 0 < L ->
  sqrt ((fx + (sx - fx) / d * L - fx) * (fx + (sx - fx) / d * L - fx)
        + (fy + (sy - fy) / d * L - fy) * (fy + (sy - fy) / d * L - fy)) = L
  /\ sqrt ((fx - (fx + (sx - fx) / d * L)) * (fx - (fx + (sx - fx) / d * L))
           + (fy - (fy + (sy - fy) / d * L)) * (fy - (fy + (sy - fy) / d * L))) = L.
Proof.
  intros Hd E HL.
  assert (K : forall e, e = L * L * (((sx - fx) * (sx - fx) + (sy - fy) * (sy - fy))
                                     / (d * d)) -> sqrt e = L).
  { intros e ->. rewrite <- E.
    replace (L * L * (d * d / (d * d))) with (L * L) by (field; lra).
    apply sqrt_square. lra. }
  split; apply K; field; lra.
Qed.

Lemma slide_cross (fx fy sx sy d L vx vy : R) :
  0 < d ->
  (fx + (sx - fx) / d * L - fx) * (vy - fy)
  - (fy + (sy - fy) / d * L - fy) * (vx - fx)
  = L / d * ((sx - fx) * (vy - fy) - (sy - fy) * (vx - fx))
  /\ (fx - (fx + (sx - fx) / d * L)) * (vy - (fy + (sy - fy) / d * L))
     - (fy - (fy + (sy - fy) / d * L)) * (vx - (fx + (sx - fx) / d * L))
     = L / d * ((fx - sx) * (vy - sy) - (fy - sy) * (vx - sx)).
Proof. intro Hd. split; field; lra. Qed.

Lemma sideCross_swap (p q v : Point.t R) : sideCross q p v = - sideCross p q v.
Proof. unfold sideCross. to_R. ring. Qed.

Lemma slide_point (F S : Point.t R) (d L : R) (n : string) :
  0 < d ->
  d * d = (Point.x S - Point.x F) * (Point.x S - Point.x F)
          + (Point.y S - Point.y F) * (Point.y S - Point.y F) ->
  0 < L ->
  let S' := Point.mk (Point.x F + (Point.x S - Point.x F) / d * L)
                     (Point.y F + (Point.y S - Point.y F) / d * L) n in
  sideLength F S' = L /\ sideLength S' F = L
  /\ forall v, sideCross F S' v = L / d * sideCross F S v
               /\ sideCross S' F v = L / d * sideCross S F v.
Proof.
  intros Hd E HL S'.
  destruct (@slide_facts (Point.x F) (Point.y F) (Point.x S) (Point.y S) d L Hd E HL)
    as [K1 K2].
  split; [|split; [|intro v; split]].
  - rewrite sideLength_R. exact K1.
  - rewrite sideLength_R. exact K2.
  - unfold sideCross, S'. cbn [Point.x Point.y]. to_R.
    apply (proj1 (@slide_cross (Point.x F) (Point.y F) (Point.x S) (Point.y S) d L
                    (Point.x v) (Point.y v) Hd)).
  - unfold sideCross, S'. cbn [Point.x Point.y]. to_R.
    apply (proj2 (@slide_cross (Point.x F) (Point.y F) (Point.x S) (Point.y S) d L
                    (Point.x v) (Point.y v) Hd)).
Qed.

Lemma same_sign_scaled (a b k : R) : 0 < k -> 0 < a * (k * b) -> 0 < a * b.
Proof.
  intros Hk H. replace (a * b) with (a * (k * b) * / k) by (field; lra).
  apply Rmult_lt_0_compat; [exact H | apply Rinv_0_lt_compat; exact Hk].
Qed.

Lemma scaled_nonzero (k o : R) : 0 < k -> o <> 0 -> - (k * o) <> 0.
Proof.
  intros Hk Ho Z. apply Ho.
  destruct (Rmult_integral k o) as [E|E]; [lra | lra | exact E].
Qed.

Ltac one_edge t r p1 p2 L W Hc H1 H2 H3 :=
  let Hd := fresh "Hd" in
  let HL := fresh "HL" in
  let V := fresh "V" in
  let Q1 := fresh "Q1" in
  let Q2 := fresh "Q2" in
  let b := fresh "b" in
  let c := fresh "c" in
  let d := fresh "d" in
  let Ed := fresh "Ed" in
  let Edd := fresh "Edd" in
  let Hd' := fresh "Hdp" in
  let K := fresh "K" in
  let S1 := fresh "S1" in
  let S2 := fresh "S2" in
  let S3 := fresh "S3" in
  let S' := fresh "Sp" in
  let E1 := fresh "E1" in
  let E2 := fresh "E2" in
  let E3 := fresh "E3" in
  let x := fresh "x" in
  let y := fresh "y" in
  let X := fresh "X" in
  let T1 := fresh "T1" in
  let T2 := fresh "T2" in
  rewrite (setSideLength_one t _ L (getPointsByName_opposite t r W));
  unfold setOneSideLength;
  cbn [opposite fst snd nth_error op1 op2 olength deref];
  unfold bind at 1, get at 1; unfold bind at 1, ret at 1;
  rewrite (getSideLength_opposite t p1 W);
  unfold bind at 1, lift at 1; unfold bind at 1, ret at 1;
  rewrite (getSideLength_opposite t p2 W);
  unfold bind at 1, lift at 1;
  cbn [opposite fst snd];
  pose proof (sideCross_apart Hc) as Hd;
  assert (HL : 0 < L) by lra;
  cbn [at_] in *;
  let v := eval cbn [at_] in (at_ t r) in set (V := v) in *;
  let v := eval cbn [at_] in (at_ t p1) in set (Q1 := v) in *;
  let v := eval cbn [at_] in (at_ t p2) in set (Q2 := v) in *;
  rewrite ?(sideLength_sym Q1 V), ?(sideLength_sym Q2 V);
  set (b := sideLength V Q2) in *; set (c := sideLength V Q1) in *;
  rewrite rejected_valid by lra;
  rewrite sortBy2;
  unfold pow2; to_R;
  set (d := sqrt ((Point.x Q1 - Point.x Q2) * (Point.x Q1 - Point.x Q2)
                  + (Point.y Q1 - Point.y Q2) * (Point.y Q1 - Point.y Q2)));
  assert (Ed : d = sideLength Q1 Q2)
    by (rewrite sideLength_R; apply sqrt_eq; ring);
  assert (Edd : d * d = (Point.x Q1 - Point.x Q2) * (Point.x Q1 - Point.x Q2)
                  + (Point.y Q1 - Point.y Q2) * (Point.y Q1 - Point.y Q2))
    by (apply sqrt_sqrt, sum_sq_nonneg);
  assert (Hd' : 0 < d) by (rewrite Ed; exact Hd);
  assert (K : 0 < L / d) by (apply Rdiv_lt_0_compat; lra);
  destruct (ltb _ _);
  cbn [bind get setX setY modify update at_ pt0 pt1 pt2 Point.x Point.y Point.name
       deref otherThan find refs ref_eqb negb andb ret];
  fold V; fold Q1; fold Q2;
  match goal with
  | |- context [Point.mk (Point.x ?F + (Point.x ?S - Point.x ?F) / d * L) _ ?n] =>
      destruct (@slide_point F S d L n Hd' ltac:(rewrite Edd; ring) HL)
        as (S1 & S2 & S3);
      cbv zeta in S1, S2, S3;
      set (S' := Point.mk (Point.x F + (Point.x S - Point.x F) / d * L)
                          (Point.y F + (Point.y S - Point.y F) / d * L) n) in *
  end;
  match goal with
  | |- context [alcutePoint V (?d1, ?q1) (?d2, ?q2)] =>
      destruct (@alcutePoint_exact V q1 q2 d1 d2 (Point.name V)) as (E1 & E2 & E3);
      rewrite ?S1, ?S2; try lra;
      rewrite ?S1, ?S2 in E3;
      specialize (E3 ltac:(lra) ltac:(lra) ltac:(lra));
      destruct (alcutePoint V (d1, q1) (d2, q2)) as [x y];
      cbn [fst snd] in E1, E2, E3;
      set (X := Point.mk x y (Point.name V)) in *;
      eexists; split; [reflexivity|];
      cbn [at_ pt0 pt1 pt2 update Point.x Point.y Point.name];
      fold X;
      repeat apply conj;
      [ reflexivity
      | first [exact S1 | exact S2]
      | first [exact E1 | exact E2
              | rewrite sideLength_sym; first [exact E1 | exact E2]]
      | first [exact E1 | exact E2
              | rewrite sideLength_sym; first [exact E1 | exact E2]]
      | match goal with
        | |- 0 < sideCross ?p ?q X * sideCross ?p0 ?q0 V =>
            destruct (S3 V) as [T1 T2];
            rewrite (sideCross_swap p q X), (sideCross_swap p q V) in E3;
            rewrite ?T1, ?T2 in E3;
            apply same_sign_scaled with (k := L / d); [exact K|];
            replace (sideCross p q X * (L / d * sideCross p0 q0 V))
              with (- sideCross p q X * - (L / d * sideCross p0 q0 V)) by ring;
            apply E3; apply scaled_nonzero; [exact K | exact Hc]
        end ]
  end.

(** X25.  Setting one edge, in exact arithmetic and for lengths that satisfy
    the strict inequality: the edge gets the new length, the two other
    sides keep theirs, and the opposite vertex stays on its side of the
    edge *)
Theorem setSideLength_one_edge_exact (t : Tri R) (r : ref) (L : R) :
  wellNamed t = true ->
  sideCross (at_ t (fst (opposite r))) (at_ t (snd (opposite r))) (at_ t r) <> 0 ->
  L < sideLength (at_ t r) (at_ t (snd (opposite r)))
      + sideLength (at_ t r) (at_ t (fst (opposite r))) ->
  sideLength (at_ t r) (at_ t (snd (opposite r)))
  < L + sideLength (at_ t r) (at_ t (fst (opposite r))) ->
  sideLength (at_ t r) (at_ t (fst (opposite r)))
  < L + sideLength (at_ t r) (at_ t (snd (opposite r))) ->
  exists t',
    setSideLength [(Str.toLowerCase (Point.name (at_ t r)), L)] t = (Ok tt, t')
    /\ names t' = names t
    /\ sideLength (at_ t' (fst (opposite r))) (at_ t' (snd (opposite r))) = L
    /\ sideLength (at_ t' r) (at_ t' (snd (opposite r)))
       = sideLength (at_ t r) (at_ t (snd (opposite r)))
    /\ sideLength (at_ t' r) (at_ t' (fst (opposite r)))
       = sideLength (at_ t r) (at_ t (fst (opposite r)))
    /\ 0 < sideCross (at_ t' (fst (opposite r))) (at_ t' (snd (opposite r)))
                     (at_ t' r)
           * sideCross (at_ t (fst (opposite r))) (at_ t (snd (opposite r)))
                       (at_ t r).
Proof.
  intros W Hc H1 H2 H3.
  destruct r; cbn [opposite fst snd] in *.
  - one_edge t P0 P1 P2 L W Hc H1 H2 H3.
  - one_edge t P1 P0 P2 L W Hc H1 H2 H3.
  - one_edge t P2 P0 P1 L W Hc H1 H2 H3.
Qed.

Lemma getPointsByName_adjacent (t : Tri R) (r q : ref) :
  wellNamed t = true -> ref_eqb r q = false ->
  getPointsByName t (Point.name (at_ t r) ++ Point.name (at_ t q))
  = Ok (if ref_eqb q (fst (opposite r))
        then (if ref_eqb r P0 then [P0; q] else [q; r])
        else (if ref_eqb r P2 then [q; P2] else [r; q])).
Proof.
  intros W D. rewrite (resolve_adjacent t r q W D).
  destruct r, q; try discriminate; reflexivity.
Qed.

Ltac two_edges t r p1 p2 v1 v2 W Hc H1 H2 H3 :=
  let G0 := fresh "G0" in let G1 := fresh "G1" in
  let Hd := fresh "Hd" in
  let V := fresh "V" in let Q1 := fresh "Q1" in let Q2 := fresh "Q2" in
  let E1 := fresh "E1" in let E2 := fresh "E2" in let E3 := fresh "E3" in
  let x := fresh "x" in let y := fresh "y" in let X := fresh "X" in
  pose proof (getPointsByName_adjacent t r p1 W eq_refl) as G0;
  pose proof (getPointsByName_adjacent t r p2 W eq_refl) as G1;
  cbn [opposite fst snd ref_eqb] in G0, G1;
  rewrite (setSideLength_two t _ v1 _ v2 G0 G1 ltac:(discriminate));
  unfold setTwoSidesLength;
  cbn [op1 op2 olength oref_eqb ref_eqb orb deref];
  unfold bind at 1, get at 1; unfold bind at 1, ret at 1;
  rewrite (getSideLength_opposite t r W);
  unfold bind at 1, lift at 1;
  cbn [opposite fst snd];
  pose proof (sideCross_apart Hc) as Hd;
  cbn [at_] in *;
  let v := eval cbn [at_] in (at_ t r) in set (V := v) in *;
  let v := eval cbn [at_] in (at_ t p1) in set (Q1 := v) in *;
  let v := eval cbn [at_] in (at_ t p2) in set (Q2 := v) in *;
  rewrite rejected_valid by lra;
  cbn [bind get setX setY modify update at_ pt0 pt1 pt2 Point.x Point.y Point.name
       deref ret];
  fold V; fold Q1; fold Q2;
  destruct (@alcutePoint_exact V Q1 Q2 v1 v2 (Point.name V)) as (E1 & E2 & E3);
  try lra;
  specialize (E3 ltac:(lra) ltac:(lra) ltac:(lra) Hc);
  destruct (alcutePoint V (v1, Q1) (v2, Q2)) as [x y];
  cbn [fst snd] in E1, E2, E3;
  set (X := Point.mk x y (Point.name V)) in *;
  eexists; split; [reflexivity|];
  cbn [at_ pt0 pt1 pt2 update Point.x Point.y Point.name];
  fold X;
  repeat apply conj;
  [ reflexivity | reflexivity | reflexivity
  | rewrite sideLength_sym; exact E1
  | rewrite sideLength_sym; exact E2
  | exact E3 ].

(** X26.  Setting the two edges at a vertex, in exact arithmetic and for
    lengths that satisfy the strict inequality with the third side: the
    two other vertices stay, the two edges get their lengths, and the
    vertex stays on its side of the third side *)
Theorem setSideLength_two_edges_exact (t : Tri R) (r : ref) (v1 v2 : R) :
  wellNamed t = true ->
  sideCross (at_ t (fst (opposite r))) (at_ t (snd (opposite r))) (at_ t r) <> 0 ->
  sideLength (at_ t (fst (opposite r))) (at_ t (snd (opposite r))) < v1 + v2 ->
  v1 < sideLength (at_ t (fst (opposite r))) (at_ t (snd (opposite r))) + v2 ->
  v2 < sideLength (at_ t (fst (opposite r))) (at_ t (snd (opposite r))) + v1 ->
  exists t',
    setSideLength
      [((Point.name (at_ t r) ++ Point.name (at_ t (fst (opposite r))))%string, v1);
       ((Point.name (at_ t r) ++ Point.name (at_ t (snd (opposite r))))%string, v2)]
      t = (Ok tt, t')
    /\ names t' = names t
    /\ at_ t' (fst (opposite r)) = at_ t (fst (opposite r))
    /\ at_ t' (snd (opposite r)) = at_ t (snd (opposite r))
    /\ sideLength (at_ t' r) (at_ t' (fst (opposite r))) = v1
    /\ sideLength (at_ t' r) (at_ t' (snd (opposite r))) = v2
    /\ 0 < sideCross (at_ t' (fst (opposite r))) (at_ t' (snd (opposite r)))
                     (at_ t' r)
           * sideCross (at_ t (fst (opposite r))) (at_ t (snd (opposite r)))
                       (at_ t r).
Proof.
  intros W Hc H1 H2 H3.
  destruct r; cbn [opposite fst snd] in *.
  - two_edges t P0 P1 P2 v1 v2 W Hc H1 H2 H3.
  - two_edges t P1 P0 P2 v1 v2 W Hc H1 H2 H3.
  - two_edges t P2 P0 P1 v1 v2 W Hc H1 H2 H3.
Qed.
End ExactEdges.

(** ** [NaN] in binary64 *)

Section NaN.
Local Open Scope float_scope.

Lemma nan_sum_left (v w : float) : PrimFloat.leb (nan + v) w = false.
Proof.
  rewrite leb_spec, add_spec. change (Prim2SF nan) with S754_nan.
  destruct (Prim2SF v); reflexivity.
Qed.

Lemma nan_sum_right (u w : float) : PrimFloat.leb (u + nan) w = false.
Proof.
  rewrite leb_spec, add_spec. change (Prim2SF nan) with S754_nan.
  destruct (Prim2SF u); reflexivity.
Qed.

Lemma nan_bound (x : float) : PrimFloat.leb x nan = false.
Proof.
  rewrite leb_spec. change (Prim2SF nan) with S754_nan.
  destruct (Prim2SF x) as [s|s| |s m e]; try reflexivity; destruct s; reflexivity.
Qed.

(** X27.  The length check of the three helpers never rejects a triple with a
    [NaN] in it *)
Theorem length_check_passes_NaN (a b : float) :
  rejected nan a b = false /\ rejected a nan b = false /\ rejected a b nan = false.
Proof.
  unfold rejected, sortedTriple, sortBy. cbn [fold_left insertSorted].
  repeat apply conj;
    repeat match goal with
           | |- context [if defaultGt ?u ?v then _ else _] =>
               destruct (defaultGt u v); cbn [insertSorted]
           end;
    cbv [leb add float_Num];
    first [apply nan_sum_left | apply nan_sum_right | apply nan_bound].
Qed.

Lemma nan_height (h : float) : 120 - PrimFloat.sqrt (h * h - nan * nan) = nan.
Proof.
  apply Prim2SF_inj.
  rewrite sub_spec, sqrt_spec, sub_spec, !mul_spec.
  change (Prim2SF nan) with S754_nan.
  destruct (SF64mul (Prim2SF h) (Prim2SF h)); reflexivity.
Qed.

(** X28.  [fromHL] does not reject a leg that is [NaN], whatever the
    hypotenuse: it returns a triangle with [NaN] coordinates *)
Theorem fromHL_lets_NaN_through (hypotenuse : float) (name A B C : string) :
  Str.segments name = [A; B; C] ->
  fromHL hypotenuse nan name
  = Ok (mkTri (Point.mk 20 nan A) (Point.mk 20 120 B) (Point.mk nan 120 C)).
Proof.
  intro Hn.
  rewrite (@fromHL_placed float _ hypotenuse nan name A B C); trivial;
    [| apply nan_bound].
  unfold placedHL, pow2. cbv [sub mul Math_sqrt float_Num lit add].
  change (ofZ 120) with 120. rewrite nan_height.
  vm_compute. reflexivity.
Qed.
End NaN.

(** ** Default names *)

Section DefaultNames.

Lemma includes_In (l : list string) (s : string) :
  Str.includes l s = true <-> In s l.
Proof.
  unfold Str.includes. rewrite existsb_exists. split.
  - intros (x & Hx & E). apply String.eqb_eq in E. now subst.
  - intro H. exists s. split; [exact H | apply String.eqb_refl].
Qed.

Lemma includes_not_In (l : list string) (s : string) :
  Str.includes l s = false <-> ~ In s l.
Proof.
  rewrite <- includes_In. destruct (Str.includes l s); split; congruence.
Qed.

Lemma onlyQuotes_app (s : string) : onlyQuotes s = true -> onlyQuotes (s ++ "'")%string = true.
Proof.
  induction s as [|c r IH]; simpl; [reflexivity|]. intro H.
  apply andb_prop in H. destruct H as [Hc Hr]. now rewrite Hc, IH.
Qed.

Lemma onlyQuotes_plain (s : string) :
  onlyQuotes s = true -> noUpper s = true /\ Str.hasLower s = false.
Proof.
  induction s as [|c r IH]; simpl; [now split|]. intro H.
  apply andb_prop in H. destruct H as [Hc Hr].
  apply Ascii.eqb_eq in Hc. subst c. destruct (IH Hr) as [-> ->].
  split; reflexivity.
Qed.

Lemma default_point_plain (c : ascii) (s : string) :
  Str.isUpper c = true -> onlyQuotes s = true -> plainName (String c s) = true.
Proof.
  intros Hc Hs. destruct (onlyQuotes_plain s Hs) as [U L].
  unfold plainName. simpl. now rewrite Hc, U, (upper_not_lower _ Hc), L.
Qed.

Lemma length_append (a b : string) :
  String.length (a ++ b)%string = (String.length a + String.length b)%nat.
Proof. induction a as [|c r IH]; simpl; [reflexivity | now rewrite IH]. Qed.

Lemma capitals_upper : Forall (fun c => Str.isUpper c = true) capitals.
Proof. repeat constructor. Qed.

Lemma capitals_NoDup : NoDup capitals.
Proof.
  cbv. repeat constructor; intro H;
    repeat (destruct H as [H|H]; [discriminate H|]); exact H.
Qed.


Lemma forCapitals_spec (seen : list string) (s : string) (ls : list ascii) :
  onlyQuotes s = true -> Forall (fun c => Str.isUpper c = true) ls ->
  forall NU, fresh seen NU -> (List.length NU < 3)%nat ->
  exists res NU',
    forCapitals ls s (seen ++ NU) NU = (res, (seen ++ NU', NU'))
    /\ fresh seen NU'
    /\ (forall a, In a (seen ++ NU') ->
          In a (seen ++ NU) \/ String.length a = S (String.length s))
    /\ match res with
       | Some name => List.length NU' = 3%nat /\ name = concatAll NU'
       | None => (List.length NU' < 3)%nat
       end.
Proof.
  intros Hs Hls. induction Hls as [|c rest Hc Hrest IH]; intros NU F L.
  - exists None, NU. simpl.
    split; [reflexivity | split; [exact F | split; [intros; now left | exact L]]].
  - cbn [forCapitals].
    destruct (Str.includes (seen ++ NU) (String c s)) eqn:I; cbn [negb].
    + apply IH; assumption.
    + apply includes_not_In in I.
      assert (F' : fresh seen (NU ++ [String c s])).
      { destruct F as (F1 & F2 & F3). repeat apply conj.
        - apply NoDup_app; [exact F1 | repeat constructor; intros [] | ].
          intros a Ha Hb. destruct Hb as [<-|[]]. apply I, in_or_app. now right.
        - intros a Ha. apply in_app_or in Ha. destruct Ha as [Ha|[<-|[]]].
          + now apply F2.
          + intro Q. apply I, in_or_app. now left.
        - apply Forall_app. split; [exact F3|].
          repeat constructor. now apply default_point_plain. }
      rewrite <- app_assoc.
      destruct (3 <=? List.length (NU ++ [String c s]))%nat eqn:T.
      * exists (Some (concatAll (NU ++ [String c s]))), (NU ++ [String c s]).
        apply Nat.leb_le in T.
        split; [reflexivity | split; [exact F' | split]].
        -- intros a Ha. rewrite app_assoc in Ha. apply in_app_or in Ha.
           destruct Ha as [Ha|[<-|[]]]; [now left | now right].
        -- split; [|reflexivity]. rewrite length_app in *. simpl in *. lia.
      * apply Nat.leb_gt in T.
        destruct (IH (NU ++ [String c s]) F' T) as (res & NU' & E & F'' & B & R).
        exists res, NU'.
        split; [exact E | split; [exact F'' | split; [|exact R]]].
        intros a Ha. destruct (B a Ha) as [Hb|Hb]; [|now right].
        rewrite app_assoc in Hb. apply in_app_or in Hb.
        destruct Hb as [Hb|[<-|[]]]; [now left | now right].
Qed.

(** in a round whose candidates are longer than every earlier name, the
    loop finds three names *)
Lemma forCapitals_finds (s : string) (ls : list ascii) :
  NoDup ls ->
  forall pts NU,
  (forall a, In a pts ->
     (String.length a <= String.length s)%nat
     \/ exists c, a = String c s /\ ~ In c ls) ->
  (List.length NU < 3)%nat -> (3 <= List.length NU + List.length ls)%nat ->
  exists name rest, forCapitals ls s pts NU = (Some name, rest).
Proof.
  intro D. induction D as [|c rest Hc D IH]; intros pts NU Q L T.
  - simpl in T. lia.
  - cbn [forCapitals].
    assert (I : Str.includes pts (String c s) = false).
    { apply includes_not_In. intro H. destruct (Q _ H) as [B|(c' & E & B)].
      - simpl in B. lia.
      - inversion E; subst. apply B. now left. }
    rewrite I. cbn [negb].
    destruct (3 <=? List.length (NU ++ [String c s]))%nat eqn:T'; [eauto|].
    apply Nat.leb_gt in T'. rewrite length_app in T'. simpl in T'.
    apply IH.
    + intros a Ha. apply in_app_or in Ha. destruct Ha as [Ha|[<-|[]]].
      * destruct (Q _ Ha) as [B|(c' & E & B)]; [now left|].
        right. exists c'. split; [exact E|]. intro K. apply B. now right.
      * right. exists c. split; [reflexivity | exact Hc].
    + rewrite length_app. simpl. lia.
    + rewrite length_app. simpl in *. lia.
Qed.

Lemma whileFewer_spec (seen : list string) : forall k s NU,
  onlyQuotes s = true -> fresh seen NU -> (List.length NU < 3)%nat ->
  (forall a, In a (seen ++ NU) -> (String.length a <= String.length s + k)%nat) ->
  forall fuel, (k < fuel)%nat ->
  exists NU',
    whileFewer fuel s (seen ++ NU) NU = Some (Some (concatAll NU'), seen ++ NU')
    /\ fresh seen NU' /\ List.length NU' = 3%nat.
Proof.
  induction k as [|k IH]; intros s NU Hs F L B fuel Hf;
    (destruct fuel as [|fuel]; [lia|]); cbn [whileFewer];
    apply Nat.ltb_lt in L; rewrite L; apply Nat.ltb_lt in L;
    destruct (@forCapitals_spec seen s capitals Hs capitals_upper NU F L)
      as (res & NU' & E & F' & B' & R); rewrite E.
  - destruct (@forCapitals_finds s capitals capitals_NoDup (seen ++ NU) NU)
      as (name & rest & E'); auto.
    { intros a Ha. left. specialize (B a Ha). lia. }
    { unfold capitals. rewrite length_map, length_seq. lia. }
    rewrite E in E'. destruct res as [name'|]; [|discriminate].
    destruct R as [R1 ->]. exists NU'. auto.
  - destruct res as [name|].
    + destruct R as [R1 ->]. exists NU'. auto.
    + apply IH; auto.
      * now apply onlyQuotes_app.
      * intros a Ha. rewrite length_append. simpl.
        destruct (B' a Ha) as [Hb|Hb]; [specialize (B a Hb)|]; lia.
      * lia.
Qed.

Lemma maxLength_bound (l : list string) (a : string) :
  In a l -> (String.length a <= maxLength l)%nat.
Proof.
  induction l as [|b r IH]; simpl; [contradiction|].
  intros [<-|H]; [lia | specialize (IH H); lia].
Qed.
End DefaultNames.

Section DefaultConstruction.
Context {N : Type} {num : Num N}.

Lemma defaultName_fresh (fuel id : nat) (m : WeakMap) (points : list string) :
  lookup m id = Some points -> (maxLength points < fuel)%nat ->
  exists p1 p2 p3,
    defaultName fuel (VElement id) m
    = Some (Ok (Some (p1 ++ p2 ++ p3)%string), (id, points ++ [p1; p2; p3]) :: m)
    /\ fresh points [p1; p2; p3].
Proof.
  intros Hl Hf. unfold defaultName. cbn [weakMap_get]. rewrite Hl.
  assert (F0 : fresh points []).
  { repeat split; [constructor | intros a [] | constructor]. }
  destruct (@whileFewer_spec points (maxLength points) EmptyString [] eq_refl F0
              ltac:(simpl; lia)) with (fuel := fuel) as (NU & E & F & L).
  - intros a Ha. rewrite app_nil_r in Ha. simpl.
    now apply maxLength_bound.
  - exact Hf.
  - rewrite app_nil_r in E. rewrite E. cbn [weakMap_set].
    destruct NU as [|p1 [|p2 [|p3 [|p4 r]]]]; try discriminate.
    exists p1, p2, p3. split; [|exact F].
    cbn [concatAll]. now rewrite append_empty_str.
Qed.

(** X29.  A triangle made without a name on a canvas gets three names that
    are well formed, pairwise different and not yet in the registry of the
    canvas, and the registry gains exactly these; the first such triangle
    is ABC; a triangle made with a name leaves the registry as it was *)
Theorem construct_without_name (fuel id : nat) (m : WeakMap) :
  (lookup m id = None ->
   construct (N := N) fuel VUndefined (VElement id) m
   = Some (createDefaultTrianglePoints "ABC",
           (id, ["A"; "B"; "C"]%string) :: m))
  /\ (forall points,
        lookup m id = Some points -> (maxLength points < fuel)%nat ->
        exists t : Tri N,
          construct fuel VUndefined (VElement id) m
          = Some (Ok t, (id, points ++ names t) :: m)
          /\ wellNamed t = true
          /\ forall n, In n (names t) -> ~ In n points)
  /\ (forall s canvas,
        exists o, construct (N := N) fuel (VString s) canvas m = Some (o, m)).
Proof.
  split; [|split].
  3: { intros s canvas. unfold construct.
       destruct (createDefaultTrianglePoints s); [|eexists; reflexivity].
       destruct canvas; eexists; reflexivity. }
  - intro Hl. unfold construct, defaultName. cbn [weakMap_get]. rewrite Hl.
    reflexivity.
  - intros points Hl Hf.
    destruct (defaultName_fresh id m Hl Hf) as (p1 & p2 & p3 & E & F1 & F2 & F3).
    unfold construct. rewrite E.
    inversion F3 as [|? ? Q1 F3']; subst.
    inversion F3' as [|? ? Q2 F3'']; subst.
    inversion F3'' as [|? ? Q3 _]; subst.
    assert (S : Str.segments (p1 ++ p2 ++ p3) = [p1; p2; p3]).
    { rewrite <- (append_empty_str p3) at 1.
      change (Str.segments (concatAll [p1; p2; p3]) = [p1; p2; p3]).
      apply segments_concat. simpl.
      now rewrite !plainName_segment by assumption. }
    rewrite (createDefault_segments _ S).
    exists (mkTri (Point.mk (lit 70) (lit 20) p1) (Point.mk (lit 20) (lit 120) p2)
                  (Point.mk (lit 120) (lit 120) p3)).
    split; [reflexivity|]. split.
    + unfold wellNamed. cbn [pt0 pt1 pt2 Point.name]. rewrite Q1, Q2, Q3.
      inversion F1 as [|? ? N1 F1']; subst.
      inversion F1' as [|? ? N2 _]; subst.
      assert (E12 : String.eqb p1 p2 = false)
        by (apply String.eqb_neq; intro; subst; apply N1; now left).
      assert (E13 : String.eqb p1 p3 = false)
        by (apply String.eqb_neq; intro; subst; apply N1; right; now left).
      assert (E23 : String.eqb p2 p3 = false)
        by (apply String.eqb_neq; intro; subst; apply N2; now left).
      now rewrite E12, E13, E23.
    + exact F2.
Qed.

(** X30.  [copy()] never returns: the constructor receives the canvas where it
    expects the name, so that the new name is used as a key of the registry
    or, when the canvas is itself a string, as a canvas; the registry is
    left as it was *)
Theorem copy_always_throws (fuel : nat) (canvas : Value) (t : Tri N) (m : WeakMap) :
  (exists e, copy fuel canvas t m = Some (Throw e, m))
  /\ match canvas with
     | VString _ => True
     | _ => copy fuel canvas t m = Some (Throw NativeTypeError, m)
     end.
Proof.
  unfold copy, construct, defaultName.
  destruct canvas as [|s|id]; cbn [weakMap_get weakMap_set].
  - split; [eexists|]; reflexivity.
  - split; [|exact I].
    destruct (createDefaultTrianglePoints s); eexists; reflexivity.
  - split; [eexists|]; reflexivity.
Qed.

End DefaultConstruction.

(** ** Instances of the properties *)

Section Instances.
Local Open Scope string_scope.

Lemma ABC_wellNamed : wellNamed Run.ABC = true.
Proof. reflexivity. Qed.

Lemma ABC_names_differ : NoDup (names Run.ABC).
Proof.
  repeat constructor; simpl; intro H;
    repeat (destruct H as [H|H]; [discriminate H|]); exact H.
Qed.

Lemma side_names_agree_witness :
  wellNamed Run.ABC = true
  /\ getSideLength Run.ABC "CB" = getSideLength Run.ABC "a"
  /\ getSideLength Run.ABC "AC" = getSideLength Run.ABC "b".
Proof.
  split; [reflexivity|].
  destruct (@side_names_agree float _ Run.ABC eq_refl)
    as ((_ & H1 & H2) & (H3 & _ & H4) & _).
  cbn [at_ Run.ABC pt0 pt1 pt2 Point.name append Str.toLowerCase] in H1, H2, H3, H4.
  split.
  - exact (eq_trans H1 (eq_sym H2)).
  - exact (eq_trans H3 (eq_sym H4)).
Defined.

Lemma getSideLength_refuses_malformed_witness :
  wellNamed Run.ABC = true
  /\ getSideLength Run.ABC "AA" = Throw VerticesDoNotMatch
  /\ getSideLength Run.ABC "B" = Throw ExpectedTwoVertices.
Proof.
  split; [reflexivity|].
  destruct (@getSideLength_refuses_malformed float _ Run.ABC eq_refl)
    as (H1 & H2 & _).
  split; [exact (H1 P0) | exact (H2 P1)].
Defined.

Lemma constructor_reparses_its_names_witness :
  Str.segments "xA1B'C" = ["A1"; "B'"; "C"]
  /\ createDefaultTrianglePoints (N := float) ("A1" ++ "B'" ++ "C")
     = createDefaultTrianglePoints "xA1B'C".
Proof.
  split; [reflexivity|].
  exact (@constructor_reparses_its_names float _ "xA1B'C" "A1" "B'" "C" eq_refl).
Defined.

Lemma fromSSS_lowercase_name_fails_witness :
  Str.segments "AbBC" = ["Ab"; "B"; "C"]
  /\ exists e, fromSSS 3%float 4%float 5%float "AbBC" = Throw e.
Proof.
  split; [reflexivity|].
  exact (@fromSSS_lowercase_name_fails float _ _ 3%float 4%float 5%float
           "AbBC" "Ab" "B" "C" eq_refl eq_refl).
Defined.

Lemma setSideLength_same_edge_twice_witness :
  setSideLength [("a", 50%float); ("BC", 60%float)] Run.ABC
  = (Throw ConflictLengths, Run.ABC).
Proof.
  exact (@setSideLength_same_edge_twice float _ _ Run.ABC "a" "BC"
           50%float 60%float [P1; P2] eq_refl eq_refl).
Defined.

Lemma movePoint_moves_only_named_witness :
  movePoint "A" 1%float 2%float Run.ABC
  = (Ok tt, update Run.ABC P0 (shifted 1%float 2%float (at_ Run.ABC P0))).
Proof.
  exact (@movePoint_moves_only_named float _ Run.ABC P0 1%float 2%float
           ABC_names_differ).
Defined.

Lemma setSideLength_one_edge_keeps_an_end_witness :
  at_ (snd (setSideLength [("a", 50%float)] Run.ABC)) P1 = at_ Run.ABC P1
  \/ at_ (snd (setSideLength [("a", 50%float)] Run.ABC)) P2 = at_ Run.ABC P2.
Proof.
  apply (@setSideLength_one_edge_keeps_an_end float _ _ Run.ABC
           (snd (setSideLength [("a", 50%float)] Run.ABC)) "a" 50%float P1 P2).
  - reflexivity.
  - vm_compute. reflexivity.
Defined.

Lemma setSideLength_two_edges_move_shared_vertex_witness :
  exists pv,
    In pv [P0; P1] /\ In pv [P0; P2]
    /\ forall q, q <> pv ->
         at_ (snd (setSideLength [("AB", 100%float); ("AC", 100%float)] Run.ABC)) q
         = at_ Run.ABC q.
Proof.
  apply (@setSideLength_two_edges_move_shared_vertex float _ _ Run.ABC
           (snd (setSideLength [("AB", 100%float); ("AC", 100%float)] Run.ABC))
           "AB" 100%float "AC" 100%float P0 P1 P0 P2).
  - reflexivity.
  - reflexivity.
  - discriminate.
  - vm_compute. reflexivity.
Defined.

Lemma fromHL_lets_NaN_through_witness :
  fromHL 10%float nan "ABC"
  = Ok (mkTri (Point.mk 20%float nan "A") (Point.mk 20%float 120%float "B")
              (Point.mk nan 120%float "C")).
Proof.
  exact (@fromHL_lets_NaN_through 10%float "ABC" "A" "B" "C" eq_refl).
Defined.
End Instances.

Section ExactInstances.
Local Open Scope R_scope.
Local Open Scope string_scope.



Lemma sideLength_of (p q : Point.t R) (l : R) :
  0 <= l ->
  (Point.x q - Point.x p) * (Point.x q - Point.x p)
  + (Point.y q - Point.y p) * (Point.y q - Point.y p) = l * l ->
  sideLength p q = l.
Proof.
  intros Hl E. rewrite sideLength_R, E. now apply sqrt_square.
Qed.

Lemma T345_sides :
  sideLength (pt1 T345) (pt2 T345) = 3 /\ sideLength (pt0 T345) (pt2 T345) = 5
  /\ sideLength (pt0 T345) (pt1 T345) = 4.
Proof.
  repeat apply conj; apply sideLength_of; simpl; lra.
Qed.

Lemma T345_cross : sideCross (pt1 T345) (pt2 T345) (pt0 T345) = 12.
Proof. unfold sideCross; simpl. lra. Qed.

Lemma constructors_refuse_bad_names_witness :
  fromSSS (numstr := blank) 3 4 5 "AB" = Throw InvalidTriangleName
  /\ fromSAS 3 90 4 "AB" = Throw InvalidTriangleName.
Proof.
  destruct (@constructors_refuse_bad_names R _ blank _ "AB" ltac:(discriminate))
    as (H1 & H2 & _).
  split; [exact (H1 3 4 5) | exact (H2 3 90 4)].
Defined.

Lemma fromSAS_guards_witness :
  fromSAS 3 180 4 "ABC" = Throw AngleOutOfRange
  /\ fromSAS 0 90 4 "ABC" = Throw LengthNotPositive.
Proof.
  split.
  - apply (proj1 (@fromSAS_guards R _ _ 3 180 4 "ABC" eq_refl)).
    simpl. rewrite (@Rleb_true 180 180) by lra. apply orb_true_r.
  - apply (proj2 (@fromSAS_guards R _ _ 0 90 4 "ABC" eq_refl)).
    + simpl. rewrite Rleb_false, Rleb_false by lra. reflexivity.
    + simpl. rewrite (@Rleb_true 0 0) by lra. reflexivity.
Defined.

Lemma flip_is_an_involution_witness :
  snd (flip (mkLine 1 0 0) (snd (flip (mkLine 1 0 0) T345))) = T345.
Proof.
  apply (@flip_is_an_involution (mkLine 1 0 0) T345). simpl. lra.
Defined.

Lemma alcutePoint_solves_two_circles_witness :
  sideLength (pt1 T345)
    (Point.mk (fst (alcutePoint (pt0 T345) (4, pt1 T345) (5, pt2 T345)))
              (snd (alcutePoint (pt0 T345) (4, pt1 T345) (5, pt2 T345))) "A") = 4
  /\ sideLength (pt2 T345)
       (Point.mk (fst (alcutePoint (pt0 T345) (4, pt1 T345) (5, pt2 T345)))
                 (snd (alcutePoint (pt0 T345) (4, pt1 T345) (5, pt2 T345))) "A") = 5.
Proof.
  destruct T345_sides as (Ha & _ & _).
  destruct (@alcutePoint_solves_two_circles (pt0 T345) (pt1 T345) (pt2 T345) 4 5 "A")
    as (H1 & H2 & _); try (rewrite Ha; lra).
  split; [exact H1 | exact H2].
Defined.

Lemma fromSAS_exact_witness :
  exists t,
    fromSAS 3 90 4 "ABC" = Ok t
    /\ names t = ["A"; "B"; "C"]
    /\ sideLength (pt0 t) (pt1 t) = 4
    /\ sideLength (pt0 t) (pt2 t) = 3
    /\ cosAngleAt (pt0 t) (pt1 t) (pt2 t) = cos (90 * PI / 180).
Proof.
  apply (@fromSAS_exact 3 90 4 "ABC" "A" "B" "C"); try lra. reflexivity.
Defined.

Lemma fromASA_base_and_first_angle_witness :
  exists t,
    fromASA 60 10 60 "ABC" = Ok t
    /\ names t = ["A"; "B"; "C"]
    /\ sideLength (pt1 t) (pt2 t) = 10
    /\ Point.y (pt1 t) = Point.y (pt2 t)
    /\ Point.y (pt0 t) < Point.y (pt1 t)
    /\ cosAngleAt (pt1 t) (pt0 t) (pt2 t) = cos (60 * PI / 180).
Proof.
  apply (@fromASA_base_and_first_angle 60 10 60 "ABC" "A" "B" "C"); try lra.
  reflexivity.
Defined.

Lemma fromAAS_accepts_witness :
  (exists t,
      fromAAS 60 60 10 "ABC" = Ok t
      /\ sideLength (pt1 t) (pt2 t) = 10
      /\ cosAngleAt (pt1 t) (pt0 t) (pt2 t) = cos (60 * PI / 180))
  /\ (fromAAS 0 60 10 "ABC" = Throw AngleOutOfRange
      \/ fromAAS 0 60 10 "ABC" = Throw LengthNotPositive).
Proof.
  split.
  - apply (proj1 (@fromAAS_accepts 60 60 10 "ABC" "A" "B" "C" eq_refl)).
    repeat apply conj; lra.
  - apply (proj2 (@fromAAS_accepts 0 60 10 "ABC" "A" "B" "C" eq_refl)).
    intros (H & _). lra.
Defined.

Lemma fromSSS_exact_witness :
  exists t,
    fromSSS (numstr := blank) 3 4 5 "ABC" = Ok t
    /\ names t = ["A"; "B"; "C"]
    /\ lengths t = (3, 4, 5)
    /\ Point.y (pt1 t) = Point.y (pt2 t)
    /\ Point.x (pt1 t) < Point.x (pt2 t)
    /\ Point.y (pt0 t) < Point.y (pt1 t).
Proof.
  apply (@fromSSS_exact blank 3 4 5 "ABC"
           (mkTri (Point.mk 70 20 "A") (Point.mk 20 120 "B") (Point.mk 120 120 "C")));
    try lra; reflexivity.
Defined.

Lemma setSideLength_one_edge_exact_witness :
  exists t',
    setSideLength (numstr := blank) [("a", 4)] T345 = (Ok tt, t')
    /\ names t' = names T345
    /\ sideLength (pt1 t') (pt2 t') = 4
    /\ sideLength (pt0 t') (pt2 t') = sideLength (pt0 T345) (pt2 T345)
    /\ sideLength (pt0 t') (pt1 t') = sideLength (pt0 T345) (pt1 T345)
    /\ 0 < sideCross (pt1 t') (pt2 t') (pt0 t')
           * sideCross (pt1 T345) (pt2 T345) (pt0 T345).
Proof.
  destruct T345_sides as (Ha & Hb & Hc).
  apply (@setSideLength_one_edge_exact blank T345 P0 4).
  - reflexivity.
  - cbn [opposite fst snd at_]. rewrite T345_cross. lra.
  - cbn [opposite fst snd at_]. rewrite Hb, Hc. lra.
  - cbn [opposite fst snd at_]. rewrite Hb, Hc. lra.
  - cbn [opposite fst snd at_]. rewrite Hb, Hc. lra.
Defined.

Lemma setSideLength_two_edges_exact_witness :
  exists t',
    setSideLength (numstr := blank) [("AB", 5); ("AC", 5)] T345 = (Ok tt, t')
    /\ names t' = names T345
    /\ pt1 t' = pt1 T345
    /\ pt2 t' = pt2 T345
    /\ sideLength (pt0 t') (pt1 t') = 5
    /\ sideLength (pt0 t') (pt2 t') = 5
    /\ 0 < sideCross (pt1 t') (pt2 t') (pt0 t')
           * sideCross (pt1 T345) (pt2 T345) (pt0 T345).
Proof.
  destruct T345_sides as (Ha & Hb & Hc).
  apply (@setSideLength_two_edges_exact blank T345 P0 5 5).
  - reflexivity.
  - cbn [opposite fst snd at_]. rewrite T345_cross. lra.
  - cbn [opposite fst snd at_]. rewrite Ha. lra.
  - cbn [opposite fst snd at_]. rewrite Ha. lra.
  - cbn [opposite fst snd at_]. rewrite Ha. lra.
Defined.
End ExactInstances.
